(** * Four-axis milling: a shallow embedding of the fabrication pipeline

    The development follows the C++ sources of the repository:
    - [fouraxis/fouraxis.cpp]: extreme-face selection ([cutExtremes]), the
      first visibility check ([checkVisibilityAllPlanes]) and the set-cover
      minimisation ([minimizeNumberPlanes]);
    - [methods/faf/faf_visibilitycheck.cpp]: the visibility analyser
      (ray shooting and projection) and the non-visible detector;
    - the frequency restorer ([restoreFrequencies],
      [checkVisibilityAfterFrequenciesAreRestored] and their helpers).

    Coordinates are [double] in the sources.  The embedding is parametric in
    the arithmetic ([Scalar]): the theorems on the code hold for any
    implementation of the operations, the rational instance [QScalar] is
    used to run the definitions on concrete meshes, and [DoubleScalar], the
    binary64 arithmetic of the kernel, shows where rounding matters. *)

From Stdlib Require Import ZArith QArith Bool Lia Lqa.
From Stdlib Require PrimFloat Uint63.
From stdpp Require Import base option list.

Local Open Scope nat_scope.

(** ** Arithmetic on coordinates *)

(** The operations of [double] that the sources use.  [a >= b] is written
    [sleb b a] and [a > b] is [sltb b a]. *)
Class Scalar := {
  scalar : Type;
  sadd : scalar -> scalar -> scalar;
  ssub : scalar -> scalar -> scalar;
  smul : scalar -> scalar -> scalar;
  sdiv : scalar -> scalar -> scalar;
  sopp : scalar -> scalar;
  sofZ : Z -> scalar;
  shalf : scalar;
  sepsilon : scalar;
  spi : scalar;
  sltb : scalar -> scalar -> bool;
  sleb : scalar -> scalar -> bool;
  scos : scalar -> scalar;
  ssqrt : scalar -> scalar
}.

(** [cg3::Point3d] / [cg3::Vec3d]: three coordinates, operations
    component-wise. *)
Record Point3 {S : Scalar} := mkPoint3 { px : scalar; py : scalar; pz : scalar }.
Arguments mkPoint3 {S} _ _ _.

(** [cg3::Point3i], the three vertex indices of a face. *)
Record Face := mkFace { fx : nat; fy : nat; fz : nat }.

Section PointOps.
Context `{Scalar}.

Definition pzero : Point3 := mkPoint3 (sofZ 0) (sofZ 0) (sofZ 0).

Definition padd (a b : Point3) : Point3 :=
  mkPoint3 (sadd (px a) (px b)) (sadd (py a) (py b)) (sadd (pz a) (pz b)).

Definition psub (a b : Point3) : Point3 :=
  mkPoint3 (ssub (px a) (px b)) (ssub (py a) (py b)) (ssub (pz a) (pz b)).

Definition popp (a : Point3) : Point3 :=
  mkPoint3 (sopp (px a)) (sopp (py a)) (sopp (pz a)).

Definition pscale (k : scalar) (a : Point3) : Point3 :=
  mkPoint3 (smul k (px a)) (smul k (py a)) (smul k (pz a)).

Definition pdiv (a : Point3) (k : scalar) : Point3 :=
  mkPoint3 (sdiv (px a) k) (sdiv (py a) k) (sdiv (pz a) k).

Definition pdot (a b : Point3) : scalar :=
  sadd (sadd (smul (px a) (px b)) (smul (py a) (py b))) (smul (pz a) (pz b)).

Definition pcross (a b : Point3) : Point3 :=
  mkPoint3 (ssub (smul (py a) (pz b)) (smul (pz a) (py b)))
           (ssub (smul (pz a) (px b)) (smul (px a) (pz b)))
           (ssub (smul (px a) (py b)) (smul (py a) (px b))).

(** [cg3::Point3::operator<]: lexicographic on (x, y, z). *)
Definition pltb (a b : Point3) : bool :=
  if sltb (px a) (px b) then true
  else if sltb (px b) (px a) then false
  else if sltb (py a) (py b) then true
  else if sltb (py b) (py a) then false
  else sltb (pz a) (pz b).

(** [cg3::Triangle3d::normal]: the normalised cross product of two edges. *)
Definition triangleNormal (p1 p2 p3 : Point3) : Point3 :=
  let n := pcross (psub p2 p1) (psub p3 p1) in
  pdiv n (ssqrt (pdot n n)).

(** The size of a container converted to [double]. *)
Definition sofnat (n : nat) : scalar := sofZ (Z.of_nat n).
End PointOps.

(** ** Meshes *)

(** [cg3::EigenMesh]: vertices, faces, the stored face normals and the
    stored bounding box (minimum and maximum corner). *)
Record Mesh {S : Scalar} := mkMesh {
  vertices : list Point3;
  faces : list Face;
  faceNormals : list Point3;
  bbMin : Point3;
  bbMax : Point3
}.
Arguments mkMesh {S} _ _ _ _ _.

Section MeshOps.
Context `{Scalar}.

Definition numberVertices (m : Mesh) : nat := length (vertices m).
Definition numberFaces (m : Mesh) : nat := length (faces m).

(** Reads outside the arrays are outside the contract of the mesh class;
    the model returns a default there. *)
Definition getVertex (m : Mesh) (i : nat) : Point3 :=
  default pzero (vertices m !! i).
Definition getFace (m : Mesh) (i : nat) : Face :=
  default (mkFace 0 0 0) (faces m !! i).
Definition getFaceNormal (m : Mesh) (i : nat) : Point3 :=
  default pzero (faceNormals m !! i).

(** [setVertex] overwrites one row of the vertex matrix and nothing else. *)
Definition setVertex (m : Mesh) (i : nat) (p : Point3) : Mesh :=
  mkMesh (<[i := p]> (vertices m)) (faces m) (faceNormals m) (bbMin m) (bbMax m).

(** Barycenter of a face, [(v1 + v2 + v3) / 3]. *)
Definition barycenter (m : Mesh) (f : nat) : Point3 :=
  let ff := getFace m f in
  pdiv (padd (padd (getVertex m (fx ff)) (getVertex m (fy ff))) (getVertex m (fz ff)))
       (sofZ 3).
End MeshOps.

(** ** Results of code that can leave its arrays or throw

    [OutOfRange i] records an access with index [i] outside the array
    (undefined behaviour in the sources), [Thrown] an exception that leaves
    the function, [OutOfFuel] a loop of the model stopped by its fuel. *)
Inductive outcome (A : Type) : Type :=
| Ok (a : A)
| OutOfRange (i : Z)
| Thrown
| OutOfFuel.
Arguments Ok {A} a.
Arguments OutOfRange {A} i.
Arguments Thrown {A}.
Arguments OutOfFuel {A}.

Definition obind {A B : Type} (x : outcome A) (k : A -> outcome B) : outcome B :=
  match x with
  | Ok a => k a
  | OutOfRange i => OutOfRange i
  | Thrown => Thrown
  | OutOfFuel => OutOfFuel
  end.

#[global] Instance outcome_bind : MBind outcome := fun A B k x => obind x k.
#[global] Instance outcome_ret : MRet outcome := fun A a => Ok a.

(** Arithmetic of [unsigned int] and [size_t]. *)
Definition UINT_MODULUS : Z := 2 ^ 32.
Definition SIZE_MODULUS : Z := 2 ^ 64.
Definition to_uint (z : Z) : Z := z mod UINT_MODULUS.
Definition to_size_t (z : Z) : Z := z mod SIZE_MODULUS.
Definition to_int (z : Z) : Z := (z + 2 ^ 31) mod UINT_MODULUS - 2 ^ 31.

(** ** Two-dimensional integer arrays *)

(** [cg3::Array2D<int>]: [sizeX] rows (directions) of [sizeY] cells (faces).
    An access outside the array is outside the contract of the class: the
    model reads [0] there and ignores a write. *)
Record Array2D := mkArray2D { sizeX : nat; sizeY : nat; rows : list (list Z) }.

Definition a2_resize_fill (nx ny : nat) (x : Z) : Array2D :=
  mkArray2D nx ny (replicate nx (replicate ny x)).

Definition a2_get (a : Array2D) (i j : nat) : Z :=
  default 0%Z (rows a !! i ≫= (.!! j)).

Definition a2_set (a : Array2D) (i j : nat) (x : Z) : Array2D :=
  mkArray2D (sizeX a) (sizeY a) (alter (<[j := x]>) i (rows a)).

(** The array has the shape its sizes announce. *)
Definition a2_wf (a : Array2D) : Prop :=
  length (rows a) = sizeX a /\ Forall (fun r => length r = sizeY a) (rows a).

(** The search loop [for (i = 0; i < sizeX && !found; i++)] that both
    visibility checks run on the column of face [j]. *)
Definition foundVisible (visibility : Array2D) (j : nat) : bool :=
  existsb (fun i => Z.eqb (a2_get visibility i j) 1) (seq 0 (sizeX visibility)).

(** [v[i]] for an integer index; [None] outside the vector. *)
Definition lookupZ {A : Type} (l : list A) (i : Z) : option A :=
  if (0 <=? i)%Z && (i <? Z.of_nat (length l))%Z then l !! Z.to_nat i else None.

(** A write whose column index is an [int]: a negative index is outside the
    array. *)
Definition a2_set_int (a : Array2D) (i : nat) (j : Z) (x : Z) : outcome Array2D :=
  if (j <? 0)%Z then OutOfRange j else Ok (a2_set a i (Z.to_nat j) x).

(** A loop over a list whose body can fail. *)
Fixpoint ofold {A B : Type} (f : A -> B -> outcome A) (l : list B) (a : A) : outcome A :=
  match l with
  | [] => Ok a
  | b :: l' => a' ← f a b; ofold f l' a'
  end.

(** A loop that fills one slot of the result per element of the list. *)
Fixpoint omap {A B : Type} (f : A -> outcome B) (l : list A) : outcome (list B) :=
  match l with
  | [] => Ok []
  | a :: l' => b ← f a; bs ← omap f l'; mret (b :: bs)
  end.

(** [v.at(i)] of [std::vector]: element [i], or the exception
    [std::out_of_range] when the vector has no element [i]. *)
Definition vectorAt {A : Type} (v : list A) (i : nat) : outcome A :=
  match v !! i with
  | Some a => Ok a
  | None => Thrown
  end.

(** ** The data threaded through the pipeline *)

Record Data {S : Scalar} := mkData {
  minExtremes : list nat;
  maxExtremes : list nat;
  directions : list Point3;
  angles : list scalar;
  visibility : Array2D;
  nonVisibleFaces : list nat;
  association : list nat;
  restoredMesh : Mesh;
  restoredMeshAssociation : list nat;
  restoredMeshNonVisibleFaces : list nat;
  restoredMeshVisibility : Array2D
}.
Arguments mkData {S} _ _ _ _ _ _ _ _ _ _ _.

Inductive CheckMode := RAYSHOOTING | PROJECTION | OPENGL.

(** ** Frequency restoration *)

Definition BINARY_SEARCH_ITERATIONS : nat := 10.

Section Frequencies.
Context `{Scalar}.

(** The adjacency queries of libigl and the two mesh refreshes of cg3 are
    library code; the restorer is defined for any implementation of them. *)
Variable getVertexVertexAdjacencies : Mesh -> list (list nat).
Variable getVertexFaceAdjacencies : Mesh -> list (list nat).
Variable updateFacesAndVerticesNormals : Mesh -> Mesh.
Variable updateBoundingBox : Mesh -> Mesh.

(** The body of the loop of [computeDifferentialCoordinates] for vertex
    [vId]; [vertexVertexAdjacencies.at(vId)] throws when the table has no
    entry for the vertex. *)
Definition differentialCoordinate (mesh : Mesh) (vertexVertexAdjacencies : list (list nat))
  (vId : nat) : outcome Point3 :=
  let currentPoint := getVertex mesh vId in
  neighbors ← vectorAt vertexVertexAdjacencies vId;
  let delta :=
    fold_left (fun d neighborId => padd d (psub currentPoint (getVertex mesh neighborId)))
              neighbors pzero in
  mret (pdiv delta (sofnat (length neighbors))).

(** The vector is resized to the number of vertices and slot [vId] is
    written by iteration [vId]; an exception in an iteration ends the
    function. *)
Definition computeDifferentialCoordinates (mesh : Mesh) (vertexVertexAdjacencies : list (list nat))
  : outcome (list Point3) :=
  omap (differentialCoordinate mesh vertexVertexAdjacencies) (seq 0 (numberVertices mesh)).

(** [vertexVertexAdjacencies.at(vId)] is evaluated first and
    [differentialCoordinates.at(vId)] after the loop. *)
Definition getTargetPoint (targetMesh : Mesh) (differentialCoordinates : list Point3)
  (vId : nat) (vertexVertexAdjacencies : list (list nat)) : outcome Point3 :=
  neighbors ← vectorAt vertexVertexAdjacencies vId;
  let delta := fold_left (fun d neighborId => padd d (getVertex targetMesh neighborId))
                         neighbors pzero in
  let delta := pdiv delta (sofnat (length neighbors)) in
  coordinate ← vectorAt differentialCoordinates vId;
  mret (padd coordinate delta).

(** The triangle of face [fId] with [newPoint] in the place of vertex [vId]. *)
Definition movedTriangleNormal (targetMesh : Mesh) (vId : nat) (newPoint : Point3) (fId : nat)
  : Point3 :=
  let face := getFace targetMesh fId in
  if fx face =? vId then
    triangleNormal newPoint (getVertex targetMesh (fy face)) (getVertex targetMesh (fz face))
  else if fy face =? vId then
    triangleNormal (getVertex targetMesh (fx face)) newPoint (getVertex targetMesh (fz face))
  else
    triangleNormal (getVertex targetMesh (fx face)) (getVertex targetMesh (fy face)) newPoint.

(** [vertexFaceAdjacencies.at(vId)] throws when the table has no entry for
    the vertex.  The loop returns [false] at the first incident face whose
    new normal has a dot product below the limit with the direction
    associated to the face. *)
Definition isHeightFieldValid (targetMesh : Mesh) (data : Data) (vId : nat) (newPoint : Point3)
  (vertexFaceAdjacencies : list (list nat)) (heightfieldAngle : scalar) : outcome bool :=
  let heightfieldLimit := scos heightfieldAngle in
  faces ← vectorAt vertexFaceAdjacencies vId;
  mret (forallb
          (fun fId =>
             let faceNormal := movedTriangleNormal targetMesh vId newPoint fId in
             let associatedDirection :=
               default pzero (directions data !! default 0 (association data !! fId)) in
             negb (sltb (pdot faceNormal associatedDirection) heightfieldLimit))
          faces).

(** The [while] loop of the binary search, with its two guards as written:
    the validity test is evaluated first, every time the guard is.  [fuel]
    bounds the number of times the guard is evaluated. *)
Fixpoint binarySearch (fuel : nat) (valid : Point3 -> outcome bool)
  (currentPoint targetPoint : Point3) (count : nat) : outcome (Point3 * nat) :=
  match fuel with
  | O => OutOfFuel
  | S fuel' =>
      isValid ← valid targetPoint;
      if negb isValid && (count <? BINARY_SEARCH_ITERATIONS)
      then binarySearch fuel' valid currentPoint
             (pscale shalf (padd targetPoint currentPoint)) (S count)
      else Ok (targetPoint, count)
  end.

(** The body of the sweep for one vertex: the state is the mesh being
    restored, updated in place, and the flag [aVertexHasMoved]. *)
Definition restoreVertex (fuel : nat) (differentialCoordinates : list Point3)
  (vertexVertexAdjacencies vertexFaceAdjacencies : list (list nat)) (data : Data)
  (heightfieldAngle : scalar) (st : Mesh * bool) (vId : nat) : outcome (Mesh * bool) :=
  let targetMesh := fst st in
  let currentPoint := getVertex targetMesh vId in
  targetPoint ← getTargetPoint targetMesh differentialCoordinates vId vertexVertexAdjacencies;
  found ← binarySearch fuel
            (fun p => isHeightFieldValid targetMesh data vId p vertexFaceAdjacencies
                        heightfieldAngle)
            currentPoint targetPoint 0;
  if snd found <? BINARY_SEARCH_ITERATIONS
  then mret (setVertex targetMesh vId (fst found), true)
  else mret st.

(** The sweep over a sequence of vertex ids, in the order given. *)
Definition sweepVertices (fuel : nat) (differentialCoordinates : list Point3)
  (vertexVertexAdjacencies vertexFaceAdjacencies : list (list nat)) (data : Data)
  (heightfieldAngle : scalar) (vIds : list nat) (st : Mesh * bool) : outcome (Mesh * bool) :=
  ofold (restoreVertex fuel differentialCoordinates vertexVertexAdjacencies
           vertexFaceAdjacencies data heightfieldAngle) vIds st.

(** [for (vId = 0; vId < targetMesh.getNumberVertices(); ++vId)]. *)
Definition restoreFrequenciesValidHeightfields (fuel : nat) (targetMesh : Mesh)
  (differentialCoordinates : list Point3)
  (vertexVertexAdjacencies vertexFaceAdjacencies : list (list nat)) (data : Data)
  (heightfieldAngle : scalar) : outcome (Mesh * bool) :=
  sweepVertices fuel differentialCoordinates vertexVertexAdjacencies vertexFaceAdjacencies
    data heightfieldAngle (seq 0 (numberVertices targetMesh)) (targetMesh, false).

Definition setRestoredMesh (data : Data) (m : Mesh) : Data :=
  mkData (minExtremes data) (maxExtremes data) (directions data) (angles data)
    (visibility data) (nonVisibleFaces data) (association data) m
    (restoredMeshAssociation data) (restoredMeshNonVisibleFaces data)
    (restoredMeshVisibility data).

(** The iteration loop.  [targetMesh] is a reference to [data.restoredMesh],
    so every sweep works on, and leaves its result in, that field. *)
Fixpoint restoreIterations (fuel iterations : nat) (differentialCoordinates : list Point3)
  (vertexVertexAdjacencies vertexFaceAdjacencies : list (list nat))
  (heightfieldAngle : scalar) (data : Data) : outcome Data :=
  match iterations with
  | O => Ok data
  | S iterations' =>
      swept ← restoreFrequenciesValidHeightfields fuel (restoredMesh data)
                differentialCoordinates vertexVertexAdjacencies vertexFaceAdjacencies
                data heightfieldAngle;
      restoreIterations fuel iterations' differentialCoordinates
        vertexVertexAdjacencies vertexFaceAdjacencies heightfieldAngle
        (setRestoredMesh data (fst swept))
  end.

(** The assertions on the sizes of the meshes and of the adjacency tables
    are compiled out: nothing checks them, and a table that is too short
    shows only when [.at(vId)] throws.  The face-face adjacency is computed
    and not used. *)
Definition restoreFrequencies (fuel iterations : nat) (heightfieldAngle : scalar)
  (originalMesh smoothedMesh : Mesh) (data : Data) : outcome Data :=
  let vertexVertexAdjacencies := getVertexVertexAdjacencies originalMesh in
  let vertexFaceAdjacencies := getVertexFaceAdjacencies originalMesh in
  differentialCoordinates ←
    computeDifferentialCoordinates originalMesh vertexVertexAdjacencies;
  let data := setRestoredMesh data smoothedMesh in
  data ← restoreIterations fuel iterations differentialCoordinates vertexVertexAdjacencies
           vertexFaceAdjacencies heightfieldAngle data;
  let data :=
    setRestoredMesh data
      (updateBoundingBox (updateFacesAndVerticesNormals (restoredMesh data))) in
  mret (mkData (minExtremes data) (maxExtremes data) (directions data) (angles data)
          (visibility data) (nonVisibleFaces data) (association data)
          (restoredMesh data)
          (association data) (nonVisibleFaces data) (visibility data)).

(** *** The recheck after restoration *)

(** The recheck calls [getVisibility(targetMesh, nDirections, true, newData,
    heightfieldAngle, checkMode)], an overload with six arguments of which
    the sources hold neither the definition nor the declaration: it is a
    parameter, and nothing is assumed of what it does with its arguments. *)
Variable getVisibility : Mesh -> Z -> bool -> Data -> scalar -> CheckMode -> outcome Data.

(** A default-constructed [Data]; the recheck only fills its extremes. *)
Definition emptyMesh : Mesh := mkMesh [] [] [] pzero pzero.
Definition emptyArray2D : Array2D := mkArray2D 0 0 [].
Definition newDataWithExtremes (data : Data) : Data :=
  mkData (minExtremes data) (maxExtremes data) [] [] emptyArray2D [] [] emptyMesh [] []
    emptyArray2D.

(** The faces whose entry for their associated direction is below [1]. *)
Definition facesNotVisibleFromAssociation (newVisibility : Array2D) (assoc : list nat)
  : list nat :=
  List.filter
    (fun faceId => Z.ltb (a2_get newVisibility (default 0 (assoc !! faceId)) faceId) 1)
    (seq 0 (length assoc)).

(** The returned expression, [(unsigned int) a.size() - b.size()]: the cast
    binds to the first operand, the subtraction is done in [size_t] and the
    result is converted to the return type [unsigned int]. *)
Definition newlyNonVisibleCount (restoredNonVisible nonVisible : list nat) : Z :=
  to_uint (to_size_t (to_uint (Z.of_nat (length restoredNonVisible))
                      - Z.of_nat (length nonVisible))).

Definition checkVisibilityAfterFrequenciesAreRestored (data : Data)
  (heightfieldAngle : scalar) (checkMode : CheckMode) : outcome (Data * Z) :=
  let targetMesh := restoredMesh data in
  let nDirections :=
    to_int (to_size_t (Z.of_nat (length (directions data)) - 2) / 2) in
  let newData := newDataWithExtremes data in
  newData ← getVisibility targetMesh nDirections true newData heightfieldAngle checkMode;
  let restoredNonVisible :=
    facesNotVisibleFromAssociation (visibility newData) (restoredMeshAssociation data) in
  let data :=
    mkData (minExtremes data) (maxExtremes data) (directions data) (angles data)
      (visibility data) (nonVisibleFaces data) (association data) (restoredMesh data)
      (restoredMeshAssociation data) restoredNonVisible (visibility newData) in
  mret (data, newlyNonVisibleCount (restoredMeshNonVisibleFaces data) (nonVisibleFaces data)).

(** *** The sweep as the specification words it

    Every vertex is handled against the mesh as it was when the sweep
    started, and the accepted moves are written together at the end. *)
Definition newPositionFromSnapshot (fuel : nat) (snapshot : Mesh)
  (differentialCoordinates : list Point3)
  (vertexVertexAdjacencies vertexFaceAdjacencies : list (list nat)) (data : Data)
  (heightfieldAngle : scalar) (vId : nat) : outcome Point3 :=
  st ← restoreVertex fuel differentialCoordinates vertexVertexAdjacencies
         vertexFaceAdjacencies data heightfieldAngle (snapshot, false) vId;
  mret (getVertex (fst st) vId).

Definition restoreSweepSimultaneous (fuel : nat) (targetMesh : Mesh)
  (differentialCoordinates : list Point3)
  (vertexVertexAdjacencies vertexFaceAdjacencies : list (list nat)) (data : Data)
  (heightfieldAngle : scalar) : outcome Mesh :=
  vs ← omap (newPositionFromSnapshot fuel targetMesh differentialCoordinates
               vertexVertexAdjacencies vertexFaceAdjacencies data heightfieldAngle)
            (seq 0 (numberVertices targetMesh));
  mret (mkMesh vs (faces targetMesh) (faceNormals targetMesh) (bbMin targetMesh)
          (bbMax targetMesh)).

End Frequencies.

(** ** fouraxis.cpp: extremes, first visibility check, set cover *)

Section FourAxis.
Context `{Scalar}.

(** [std::sort] is library code: any function returning the faces in an
    order compatible with the comparator. *)
Variable stdsort : (nat -> nat -> bool) -> list nat -> list nat.

(** [triangleComparator]: compares the centroids of two faces with
    [operator<] of the point class. *)
Definition triangleComparator (m : Mesh) (f1 f2 : nat) : bool :=
  let ff1 := getFace m f1 in
  let ff2 := getFace m f2 in
  let c1 := pdiv (padd (padd (getVertex m (fx ff1)) (getVertex m (fy ff1)))
                       (getVertex m (fz ff1))) (sofZ 3) in
  let c2 := pdiv (padd (padd (getVertex m (fx ff2)) (getVertex m (fy ff2)))
                       (getVertex m (fz ff2))) (sofZ 3) in
  pltb c1 c2.

Definition minusX : Point3 := mkPoint3 (sofZ (-1)) (sofZ 0) (sofZ 0).
Definition plusX : Point3 := mkPoint3 (sofZ 1) (sofZ 0) (sofZ 0).

(** The guard of both walks:
    [m.getFaceNormal(f).dot(axis) >= -std::numeric_limits<double>::epsilon()]. *)
Definition extremeTest (m : Mesh) (axis : Point3) (f : nat) : bool :=
  sleb (sopp sepsilon) (pdot (getFaceNormal m f) axis).

(** One [while] loop of [cutExtremes].  [i] is the [unsigned int] counter,
    [step] is [+1] for the walk from the front and [-1] for the walk from
    the back; [fIndices[i]] is read without a bound check. *)
Fixpoint extremeWalk (fuel : nat) (m : Mesh) (axis : Point3) (step : Z)
  (fIndices : list nat) (i : Z) (extreme : list nat) : outcome (list nat) :=
  match fuel with
  | O => OutOfFuel
  | S fuel' =>
      match lookupZ fIndices i with
      | None => OutOfRange i
      | Some f =>
          if extremeTest m axis f
          then extremeWalk fuel' m axis step fIndices (to_uint (i + step)) (extreme ++ [f])
          else Ok extreme
      end
  end.

Definition sortedFaceIndices (m : Mesh) : list nat :=
  stdsort (triangleComparator m) (seq 0 (numberFaces m)).

Definition cutExtremes (fuel : nat) (m : Mesh) : outcome (list nat * list nat) :=
  let fIndices := sortedFaceIndices m in
  minExtreme ← extremeWalk fuel m minusX 1 fIndices 0 [];
  maxExtreme ← extremeWalk fuel m plusX (-1) fIndices
                 (to_uint (to_size_t (Z.of_nat (length fIndices) - 1))) [];
  mret (minExtreme, maxExtreme).

(** *** checkVisibilityAllPlanes *)

(** The intersection query of the CGAL tree and the rotation of a mesh. *)
Variable getIntersectEigenFaces : Mesh -> Point3 -> Point3 -> list nat.
Variable Matrix3 : Type.
Variable getRotationMatrix : Point3 -> scalar -> Matrix3.
Variable meshRotate : Mesh -> Matrix3 -> Mesh.

Definition faceY (mesh : Mesh) (i : nat) : scalar :=
  py (getVertex mesh (fy (getFace mesh i))).

(** [maxYFace] and [minYFace] start from [list[0]]; they are only called on
    a non-empty list. *)
Definition maxYFace (l : list nat) (mesh : Mesh) : nat :=
  fold_left (fun max i => if sltb (faceY mesh max) (faceY mesh i) then i else max)
            l (default 0 (l !! 0)).

Definition minYFace (l : list nat) (mesh : Mesh) : nat :=
  fold_left (fun min i => if sltb (faceY mesh i) (faceY mesh min) then i else min)
            l (default 0 (l !! 0)).

Definition checkPlane (visibility : Array2D) (mesh : Mesh) (indexPlane numberPlanes : nat)
  : Array2D :=
  let max := sadd (py (bbMax mesh)) (sofZ 50) in
  let min := ssub (py (bbMin mesh)) (sofZ 50) in
  fold_left
    (fun visibility i =>
       let bar := barycenter mesh i in
       let blackList :=
         getIntersectEigenFaces mesh (mkPoint3 (px bar) max (pz bar))
           (mkPoint3 (px bar) min (pz bar)) in
       if 0 <? length blackList then
         let visibility := a2_set visibility indexPlane (maxYFace blackList mesh) 1 in
         a2_set visibility (numberPlanes + indexPlane) (minYFace blackList mesh) 1
       else visibility)
    (seq 0 (numberFaces mesh)) visibility.

(** The closing loop of [checkVisibilityAllPlanes]: a face seen from no plane
    gets the entry of the last row. *)
Definition forceStep (visibility : Array2D) (j : nat) : Array2D :=
  if foundVisible visibility j then visibility
  else a2_set visibility (sizeX visibility - 1) j 1.

Definition forceLastDirection (visibility : Array2D) : Array2D :=
  fold_left forceStep (seq 0 (sizeY visibility)) visibility.

Definition checkVisibilityAllPlanes (mesh : Mesh) (numberPlanes : nat) : Array2D :=
  let stepAngle := sofZ (Z.quot 180 (Z.of_nat numberPlanes)) in
  let visibility := a2_resize_fill (numberPlanes * 2 + 1) (numberFaces mesh) 0 in
  let rotation :=
    getRotationMatrix (mkPoint3 (sofZ 1) (sofZ 0) (sofZ 0))
      (smul stepAngle (sdiv spi (sofZ 180))) in
  let '(visibility, _) :=
    fold_left
      (fun '(visibility, meshEigen) i =>
         (checkPlane visibility meshEigen i numberPlanes, meshRotate meshEigen rotation))
      (seq 0 numberPlanes) (visibility, mesh) in
  forceLastDirection visibility.

(** *** minimizeNumberPlanes *)

(** What the Gurobi calls of the [try] block do: an exception before the
    solution is read back, or a solution whose attribute [X] of variable [i]
    is read as [x i] ([Some true] when it equals [1], [None] when the read
    throws). *)
Inductive GurobiRun :=
| GurobiThrows
| GurobiSolved (x : nat -> option bool).

(** The read-back loop; an exception leaves it with the planes pushed so far. *)
Fixpoint readSolution (x : nat -> option bool) (orientations : list nat)
  (survivedPlanes : list nat) : list nat :=
  match orientations with
  | [] => survivedPlanes
  | i :: rest =>
      match x i with
      | None => survivedPlanes
      | Some b => readSolution x rest (if b then survivedPlanes ++ [i] else survivedPlanes)
      end
  end.

(** [GUROBI_DEFINED] is the compile-time switch; both handlers of the [try]
    block only print a message. *)
Definition minimizeNumberPlanes (GUROBI_DEFINED : bool) (gurobi : Array2D -> GurobiRun)
  (visibility : Array2D) : list nat :=
  let survivedPlanes := [] in
  let nOrientations := sizeX visibility in
  if GUROBI_DEFINED then
    match gurobi visibility with
    | GurobiThrows => survivedPlanes
    | GurobiSolved x => readSolution x (seq 0 nOrientations) survivedPlanes
    end
  else seq 0 nOrientations.

End FourAxis.

(** ** faf_visibilitycheck.cpp: the visibility analyser *)

(** [cg3::Point2d] and [cg3::Triangle2d]. *)
Record Point2 {S : Scalar} := mkPoint2 { p2x : scalar; p2y : scalar }.
Arguments mkPoint2 {S} _ _.
Record Triangle2 {S : Scalar} := mkTriangle2 { t2v1 : Point2; t2v2 : Point2; t2v3 : Point2 }.
Arguments mkTriangle2 {S} _ _ _.

Inductive AABBValueType := AABB_MIN | AABB_MAX.

(** The running extremes of the scan of one centroid ray. *)
Record ZScan {S : Scalar} := mkZScan {
  maxZCoordinate : scalar;
  maxZFace : Z;
  minZCoordinate : scalar;
  minZFace : Z
}.
Arguments mkZScan {S} _ _ _ _.

(** The state of the loop over the rotational directions. *)
Record DirectionLoop {S : Scalar} := mkDirectionLoop {
  rotatingMesh : Mesh;
  dir : Point3;
  loopDirections : list Point3;
  loopVisibility : Array2D
}.
Arguments mkDirectionLoop {S} _ _ _ _.

Section Visibility.
Context `{Scalar}.

(** Library code the analyser calls: [std::sort], the rotations of cg3, the
    segment query of the CGAL tree, the two-dimensional tree of cg3 with its
    overlap query, and the renderer. *)
Variable stdsort : (nat -> nat -> bool) -> list nat -> list nat.
Variable Matrix3 : Type.
Variable rotationMatrix : Point3 -> scalar -> Matrix3.
Variable meshRotate : Mesh -> Matrix3 -> Mesh.
Variable vecRotate : Point3 -> Matrix3 -> Point3.
Variable getIntersectedEigenFaces : Mesh -> Point3 -> Point3 -> list Z.
Variable sortTriangle2DPointsAndReorderCounterClockwise : Triangle2 -> Triangle2.
Variable Tree2 : Type.
Variable treeCreate :
  (Triangle2 -> AABBValueType -> Z -> outcome scalar) -> (Triangle2 -> Triangle2 -> bool) -> Tree2.
Variable treeInsert : Tree2 -> Triangle2 -> Tree2.
Variable aabbOverlapCheck : Tree2 -> Triangle2 -> bool.
Variable renderVisibility : Mesh -> nat -> Point3 -> list bool.

Definition smin (a b : scalar) : scalar := if sltb b a then b else a.
Definition smax (a b : scalar) : scalar := if sltb a b then b else a.

Definition p2ltb (a b : Point2) : bool :=
  if sltb (p2x a) (p2x b) then true
  else if sltb (p2x b) (p2x a) then false
  else sltb (p2y a) (p2y b).

(** *** Comparators and the box extractor *)

Definition TriangleZComparator (m : Mesh) (f1 f2 : nat) : bool :=
  let ff1 := getFace m f1 in
  let ff2 := getFace m f2 in
  let minZ1 := smin (smin (pz (getVertex m (fx ff1))) (pz (getVertex m (fy ff1))))
                    (pz (getVertex m (fz ff1))) in
  let minZ2 := smin (smin (pz (getVertex m (fx ff2))) (pz (getVertex m (fy ff2))))
                    (pz (getVertex m (fz ff2))) in
  sltb minZ1 minZ2.

Definition triangle2DComparator (t1 t2 : Triangle2) : bool :=
  if p2ltb (t2v1 t1) (t2v1 t2) then true
  else if p2ltb (t2v1 t2) (t2v1 t1) then false
  else if p2ltb (t2v2 t1) (t2v2 t2) then true
  else if p2ltb (t2v2 t2) (t2v2 t1) then false
  else p2ltb (t2v3 t1) (t2v3 t2).

Definition triangle2DAABBExtractor (triangle : Triangle2) (valueType : AABBValueType)
  (dim : Z) : outcome scalar :=
  match valueType, dim with
  | AABB_MIN, 1%Z =>
      Ok (smin (smin (p2x (t2v1 triangle)) (p2x (t2v2 triangle))) (p2x (t2v3 triangle)))
  | AABB_MIN, 2%Z =>
      Ok (smin (smin (p2y (t2v1 triangle)) (p2y (t2v2 triangle))) (p2y (t2v3 triangle)))
  | AABB_MAX, 1%Z =>
      Ok (smax (smax (p2x (t2v1 triangle)) (p2x (t2v2 triangle))) (p2x (t2v3 triangle)))
  | AABB_MAX, 2%Z =>
      Ok (smax (smax (p2y (t2v1 triangle)) (p2y (t2v2 triangle))) (p2y (t2v3 triangle)))
  | _, _ => Thrown
  end.

(** *** Detection of non-visible faces *)

(** The visibility array is a [const] argument: the detector only builds the
    list of faces for which the search loop finds no entry equal to [1]. *)
Definition detectNonVisibleFaces (visibility : Array2D) : list nat :=
  List.filter (fun faceId => negb (foundVisible visibility faceId))
              (seq 0 (sizeY visibility)).

(** *** Projection *)

Definition zDirMax : Point3 := mkPoint3 (sofZ 0) (sofZ 0) (sofZ 1).
Definition zDirMin : Point3 := mkPoint3 (sofZ 0) (sofZ 0) (sofZ (-1)).

Definition projectedTriangle (mesh : Mesh) (faceId : nat) : Triangle2 :=
  let faceData := getFace mesh faceId in
  let v1 := getVertex mesh (fx faceData) in
  let v2 := getVertex mesh (fy faceData) in
  let v3 := getVertex mesh (fz faceData) in
  sortTriangle2DPointsAndReorderCounterClockwise
    (mkTriangle2 (mkPoint2 (px v1) (py v1)) (mkPoint2 (px v2) (py v2))
       (mkPoint2 (px v3) (py v3))).

(** One face against the tree of the triangles accepted so far. *)
Definition getVisibilityProjectionOnZFace (mesh : Mesh) (directionIndex : nat)
  (direction : Point3) (heightfieldAngle : scalar) (st : Tree2 * Array2D) (faceId : nat)
  : Tree2 * Array2D :=
  let heightFieldLimit := scos heightfieldAngle in
  if sleb heightFieldLimit (pdot direction (getFaceNormal mesh faceId)) then
    let triangle := projectedTriangle mesh faceId in
    let intersectionFound := aabbOverlapCheck (fst st) triangle in
    if negb intersectionFound
    then (treeInsert (fst st) triangle, a2_set (snd st) directionIndex faceId 1)
    else st
  else st.

Definition getVisibilityProjectionOnZ (mesh : Mesh) (faces : list nat) (directionIndex : nat)
  (oppositeDirectionIndex : Z) (visibility : Array2D) (heightfieldAngle : scalar)
  : Array2D :=
  let aabbTreeMax := treeCreate triangle2DAABBExtractor triangle2DComparator in
  let aabbTreeMin := treeCreate triangle2DAABBExtractor triangle2DComparator in
  let orderedZFaces := stdsort (TriangleZComparator mesh) faces in
  let visibility :=
    snd (fold_left
           (getVisibilityProjectionOnZFace mesh directionIndex zDirMax heightfieldAngle)
           (rev orderedZFaces) (aabbTreeMax, visibility)) in
  if (0 <=? oppositeDirectionIndex)%Z then
    snd (fold_left
           (getVisibilityProjectionOnZFace mesh (Z.to_nat oppositeDirectionIndex) zDirMin
              heightfieldAngle)
           orderedZFaces (aabbTreeMin, visibility))
  else visibility.

(** *** Ray shooting *)

(** The body of the loop over the faces intersected by one centroid ray. *)
Definition scanIntersectedFace (mesh : Mesh) (heightFieldLimit : scalar)
  (oppositeDirectionIndex : Z) (s : ZScan) (intersectedFace : Z) : ZScan :=
  let currentBarycenter := barycenter mesh (Z.to_nat intersectedFace) in
  let normal := getFaceNormal mesh (Z.to_nat intersectedFace) in
  let s :=
    if sltb (maxZCoordinate s) (pz currentBarycenter)
       && sleb heightFieldLimit (pdot zDirMax normal)
    then mkZScan (pz currentBarycenter) intersectedFace (minZCoordinate s) (minZFace s)
    else s in
  if (0 <=? oppositeDirectionIndex)%Z then
    if sltb (pz currentBarycenter) (minZCoordinate s)
       && sleb heightFieldLimit (pdot zDirMin normal)
    then mkZScan (maxZCoordinate s) (maxZFace s) (pz currentBarycenter) intersectedFace
    else s
  else s.

Definition barIntersectionOf (mesh : Mesh) (minZ maxZ : scalar) (faceIndex : nat) : list Z :=
  let bar := barycenter mesh faceIndex in
  getIntersectedEigenFaces mesh (mkPoint3 (px bar) (py bar) maxZ)
    (mkPoint3 (px bar) (py bar) minZ).

Definition scanRay (mesh : Mesh) (heightFieldLimit : scalar) (oppositeDirectionIndex : Z)
  (minZ maxZ : scalar) (faceIndex : nat) : ZScan :=
  fold_left (scanIntersectedFace mesh heightFieldLimit oppositeDirectionIndex)
            (barIntersectionOf mesh minZ maxZ faceIndex)
            (mkZScan minZ (-1) maxZ (-1)).

(** The body of the loop over the target faces; the assertions are compiled
    out, so the two writes use [maxZFace] and [minZFace] as they are. *)
Definition rayShootFace (mesh : Mesh) (directionIndex : nat) (oppositeDirectionIndex : Z)
  (heightFieldLimit minZ maxZ : scalar) (visibility : Array2D) (faceIndex : nat)
  : outcome Array2D :=
  let s := scanRay mesh heightFieldLimit oppositeDirectionIndex minZ maxZ faceIndex in
  visibility ← a2_set_int visibility directionIndex (maxZFace s) 1;
  if (0 <=? oppositeDirectionIndex)%Z
  then a2_set_int visibility (Z.to_nat oppositeDirectionIndex) (minZFace s) 1
  else Ok visibility.

Definition getVisibilityRayShootingOnZ (mesh : Mesh) (faces : list nat) (directionIndex : nat)
  (oppositeDirectionIndex : Z) (visibility : Array2D) (heightfieldAngle : scalar)
  : outcome Array2D :=
  let heightFieldLimit := scos heightfieldAngle in
  let minZ := ssub (pz (bbMin mesh)) (sofZ 1) in
  let maxZ := sadd (pz (bbMax mesh)) (sofZ 1) in
  ofold (rayShootFace mesh directionIndex oppositeDirectionIndex heightFieldLimit minZ maxZ)
        faces visibility.

(** *** The loop over the directions *)

Definition checkOnZ (checkMode : CheckMode) (mesh : Mesh) (faces : list nat)
  (directionIndex : nat) (oppositeDirectionIndex : Z) (visibility : Array2D)
  (heightfieldAngle : scalar) : outcome Array2D :=
  match checkMode with
  | RAYSHOOTING =>
      getVisibilityRayShootingOnZ mesh faces directionIndex oppositeDirectionIndex
        visibility heightfieldAngle
  | _ =>
      Ok (getVisibilityProjectionOnZ mesh faces directionIndex oppositeDirectionIndex
            visibility heightfieldAngle)
  end.

Fixpoint anglesFrom (n : nat) (sum stepAngle : scalar) : list scalar :=
  match n with
  | O => []
  | S n' => sum :: anglesFrom n' (sadd sum stepAngle) stepAngle
  end.

(** Pre-seeding of one extreme direction from a list of faces. *)
Definition seedExtremes (visibility : Array2D) (index : nat) (extremes : list nat) : Array2D :=
  fold_left (fun visibility faceId => a2_set visibility index faceId 1) extremes visibility.

Definition xAxis : Point3 := mkPoint3 (sofZ 1) (sofZ 0) (sofZ 0).
Definition yAxis : Point3 := mkPoint3 (sofZ 0) (sofZ 1) (sofZ 0).

Definition directionStep (checkMode : CheckMode) (targetFaces : list nat)
  (halfNDirections : nat) (heightfieldAngle : scalar)
  (rotationMatrix' inverseRotationMatrix : Matrix3) (st : DirectionLoop) (dirIndex : nat)
  : outcome DirectionLoop :=
  visibility ← checkOnZ checkMode (rotatingMesh st) targetFaces dirIndex
                 (to_int (Z.of_nat (halfNDirections + dirIndex))) (loopVisibility st)
                 heightfieldAngle;
  mret (mkDirectionLoop
          (meshRotate (rotatingMesh st) inverseRotationMatrix)
          (vecRotate (dir st) rotationMatrix')
          (<[halfNDirections + dirIndex := popp (dir st)]>
             (<[dirIndex := dir st]> (loopDirections st)))
          visibility).

Definition computeVisibilityProjectionRay (mesh : Mesh) (nDirections : nat)
  (heightfieldAngle : scalar) (includeXDirections : bool) (minExtremes maxExtremes : list nat)
  (checkMode : CheckMode) : outcome (list Point3 * list scalar * Array2D) :=
  let halfNDirections := nDirections / 2 in
  let visibility := a2_resize_fill (halfNDirections * 2 + 2) (numberFaces mesh) 0 in
  let directions := replicate (halfNDirections * 2 + 2) pzero in
  let targetFaces := seq 0 (numberFaces mesh) in
  let stepAngle := sdiv spi (sofnat halfNDirections) in
  let rotationMatrix' := rotationMatrix xAxis stepAngle in
  let inverseRotationMatrix := rotationMatrix xAxis (sopp stepAngle) in
  let angles := anglesFrom (halfNDirections * 2) (sofZ 0) stepAngle in
  st ← ofold (directionStep checkMode targetFaces halfNDirections heightfieldAngle
                rotationMatrix' inverseRotationMatrix)
             (seq 0 halfNDirections)
             (mkDirectionLoop mesh zDirMax directions visibility);
  let minIndex := halfNDirections * 2 in
  let maxIndex := halfNDirections * 2 + 1 in
  let directions := <[maxIndex := xAxis]> (<[minIndex := minusX]> (loopDirections st)) in
  if includeXDirections then
    let rotatingMesh := meshRotate mesh (rotationMatrix yAxis (sdiv spi (sofZ 2))) in
    visibility ← checkOnZ checkMode rotatingMesh targetFaces minIndex
                   (to_int (Z.of_nat maxIndex)) (loopVisibility st) heightfieldAngle;
    mret (directions, angles, visibility)
  else
    let visibility := seedExtremes (loopVisibility st) minIndex minExtremes in
    let visibility := seedExtremes visibility maxIndex maxExtremes in
    mret (directions, angles, visibility).

(** *** Rendering *)

Definition computeVisibilityGLDirection (mesh : Mesh) (resolution : nat) (dirIndex : nat)
  (directions : list Point3) (heightFieldLimit : scalar) (visibility : Array2D) : Array2D :=
  let dir := default pzero (directions !! dirIndex) in
  let faceVisibility := renderVisibility mesh resolution dir in
  fold_left
    (fun visibility fId =>
       if default false (faceVisibility !! fId)
          && sleb heightFieldLimit (pdot (getFaceNormal mesh fId) dir)
       then a2_set visibility dirIndex fId 1
       else a2_set visibility dirIndex fId 0)
    (seq 0 (length faceVisibility)) visibility.

Fixpoint directionsFrom (n : nat) (dir : Point3) (rot : Matrix3) : list Point3 :=
  match n with
  | O => []
  | S n' => dir :: directionsFrom n' (vecRotate dir rot) rot
  end.

Definition computeVisibilityGL (mesh : Mesh) (nDirections resolution : nat)
  (heightfieldAngle : scalar) (includeXDirections : bool) (minExtremes maxExtremes : list nat)
  : list Point3 * list scalar * Array2D :=
  let visibility := a2_resize_fill (nDirections + 2) (numberFaces mesh) 0 in
  let heightFieldLimit := scos heightfieldAngle in
  let stepAngle := sdiv (smul (sofZ 2) spi) (sofnat nDirections) in
  let minIndex := nDirections in
  let maxIndex := nDirections + 1 in
  let rot := rotationMatrix xAxis stepAngle in
  let angles := anglesFrom nDirections (sofZ 0) stepAngle in
  let directions := directionsFrom nDirections zDirMax rot ++ [pzero; pzero] in
  let visibility :=
    fold_left
      (fun visibility dirIndex =>
         computeVisibilityGLDirection mesh resolution dirIndex directions heightFieldLimit
           visibility)
      (seq 0 nDirections) visibility in
  let directions := <[maxIndex := xAxis]> (<[minIndex := minusX]> directions) in
  if includeXDirections then
    let visibility :=
      computeVisibilityGLDirection mesh resolution minIndex directions heightFieldLimit
        visibility in
    let visibility :=
      computeVisibilityGLDirection mesh resolution maxIndex directions heightFieldLimit
        visibility in
    (directions, angles, visibility)
  else
    let visibility := seedExtremes visibility minIndex minExtremes in
    let visibility := seedExtremes visibility maxIndex maxExtremes in
    (directions, angles, visibility).

(** *** getVisibility *)

(** [FAF_NO_GL_VISIBILITY] is the compile-time switch that removes the
    renderer; the rendering mode then throws.  This is the branch on
    [checkMode] of [getVisibility]. *)
Definition computeVisibilityByMode (FAF_NO_GL_VISIBILITY : bool) (mesh : Mesh)
  (nDirections resolution : nat) (heightfieldAngle : scalar) (includeXDirections : bool)
  (data : Data) (checkMode : CheckMode) : outcome (list Point3 * list scalar * Array2D) :=
  match checkMode with
  | OPENGL =>
      if FAF_NO_GL_VISIBILITY then Thrown
      else Ok (computeVisibilityGL mesh nDirections resolution heightfieldAngle
                 includeXDirections (minExtremes data) (maxExtremes data))
  | _ =>
      computeVisibilityProjectionRay mesh nDirections heightfieldAngle
        includeXDirections (minExtremes data) (maxExtremes data) checkMode
  end.

Definition getVisibility (FAF_NO_GL_VISIBILITY : bool) (mesh : Mesh)
  (nDirections resolution : nat) (heightfieldAngle : scalar) (includeXDirections : bool)
  (data : Data) (checkMode : CheckMode) : outcome Data :=
  r ← computeVisibilityByMode FAF_NO_GL_VISIBILITY mesh nDirections resolution
        heightfieldAngle includeXDirections data checkMode;
  let '(directions, angles, visibility) := r in
  mret (mkData (minExtremes data) (maxExtremes data) directions angles visibility
          (detectNonVisibleFaces visibility) (association data) (restoredMesh data)
          (restoredMeshAssociation data) (restoredMeshNonVisibleFaces data)
          (restoredMeshVisibility data)).

End Visibility.

(** ** Exact rational arithmetic

    An instance of [Scalar] on which the definitions run.  The operations
    are exact, except [ssqrt] (exact on squares of rationals) and [scos]
    (exact at [0], a polynomial approximation elsewhere); division by zero
    yields [0].  Results are kept in lowest terms. *)
Definition Qsqrt (q : Q) : Q :=
  let r := Qred q in Z.sqrt (Qnum r) # Pos.sqrt (Qden r).

Definition Qcos (a : Q) : Q :=
  Qred (1 - a * a / 2 + a * a * a * a / 24).

#[global] Instance QScalar : Scalar := {|
  scalar := Q;
  sadd := fun a b => Qred (a + b);
  ssub := fun a b => Qred (a - b);
  smul := fun a b => Qred (a * b);
  sdiv := fun a b => Qred (a / b);
  sopp := fun a => Qred (- a);
  sofZ := inject_Z;
  shalf := 1 # 2;
  sepsilon := 1 # 4503599627370496;
  spi := 3141592653589793 # 1000000000000000;
  sltb := fun a b => negb (Qle_bool b a);
  sleb := Qle_bool;
  scos := Qcos;
  ssqrt := Qsqrt
|}.

Definition QP (x y z : Z) : Point3 := mkPoint3 (inject_Z x) (inject_Z y) (inject_Z z).

(** ** Library code for the rational instance

    Straightforward implementations of the library routines, on which the
    definitions above can be run. *)
Section RationalLibrary.

(** Insertion sort, for [std::sort]. *)
Fixpoint insertSorted (lt : nat -> nat -> bool) (x : nat) (l : list nat) : list nat :=
  match l with
  | [] => [x]
  | y :: l' => if lt y x then y :: insertSorted lt x l' else x :: l
  end.

Definition insertionSort (lt : nat -> nat -> bool) (l : list nat) : list nat :=
  fold_right (insertSorted lt) [] l.

(** Adjacency as libigl returns it: ascending, without repetitions. *)
Definition faceHasVertex (f : Face) (v : nat) : bool :=
  (fx f =? v) || (fy f =? v) || (fz f =? v).

Definition vertexFaceAdjacencies (m : Mesh) : list (list nat) :=
  map (fun v => List.filter (fun fId => faceHasVertex (getFace m fId) v)
                            (seq 0 (numberFaces m)))
      (seq 0 (numberVertices m)).

Definition vertexVertexAdjacencies (m : Mesh) : list (list nat) :=
  map (fun v =>
         List.filter
           (fun u => negb (u =? v)
                     && existsb (fun f => faceHasVertex f v && faceHasVertex f u) (faces m))
           (seq 0 (numberVertices m)))
      (seq 0 (numberVertices m)).

(** Recomputation of the stored face normals and of the bounding box. *)
Definition recomputeFaceNormals (m : Mesh) : Mesh :=
  mkMesh (vertices m) (faces m)
    (map (fun f => triangleNormal (getVertex m (fx f)) (getVertex m (fy f))
                     (getVertex m (fz f))) (faces m))
    (bbMin m) (bbMax m).

Definition Qmin' (a b : Q) : Q := if Qle_bool a b then a else b.
Definition Qmax' (a b : Q) : Q := if Qle_bool a b then b else a.

Definition recomputeBoundingBox (m : Mesh) : Mesh :=
  match vertices m with
  | [] => m
  | v :: vs =>
      mkMesh (vertices m) (faces m) (faceNormals m)
        (fold_left (fun b p => mkPoint3 (Qmin' (px b) (px p)) (Qmin' (py b) (py p))
                                 (Qmin' (pz b) (pz p))) vs v)
        (fold_left (fun b p => mkPoint3 (Qmax' (px b) (px p)) (Qmax' (py b) (py p))
                                 (Qmax' (pz b) (pz p))) vs v)
  end.

(** The faces met by a segment parallel to the z axis that spans the mesh:
    those whose projection on the plane [z = 0] contains the foot of the
    segment. *)
Definition orient2 (ax ay bx by' cx cy : Q) : Q :=
  (bx - ax) * (cy - ay) - (by' - ay) * (cx - ax).

Definition projectionContains (m : Mesh) (x y : Q) (fId : nat) : bool :=
  let f := getFace m fId in
  let a := getVertex m (fx f) in
  let b := getVertex m (fy f) in
  let c := getVertex m (fz f) in
  let d1 := orient2 (px a) (py a) (px b) (py b) x y in
  let d2 := orient2 (px b) (py b) (px c) (py c) x y in
  let d3 := orient2 (px c) (py c) (px a) (py a) x y in
  let area := orient2 (px a) (py a) (px b) (py b) (px c) (py c) in
  negb (Qeq_bool area 0)
  && ((Qle_bool 0 d1 && Qle_bool 0 d2 && Qle_bool 0 d3)
      || (Qle_bool d1 0 && Qle_bool d2 0 && Qle_bool d3 0)).

Definition verticalHits (m : Mesh) (p1 p2 : Point3) : list Z :=
  map Z.of_nat (List.filter (projectionContains m (px p1) (py p1)) (seq 0 (numberFaces m))).

(** The two-dimensional tree as the list of its triangles.  Two triangles
    overlap when no edge of either separates them, that is when no edge has
    the other triangle entirely on its outer side or on its line: triangles
    that only share an edge or a vertex do not overlap. *)
Definition edgeSeparates (a b c : Point2) (t : Triangle2) : bool :=
  let side p := orient2 (p2x a) (p2y a) (p2x b) (p2y b) (p2x p) (p2y p) in
  let inner := side c in
  Qle_bool (side (t2v1 t) * inner) 0
  && Qle_bool (side (t2v2 t) * inner) 0
  && Qle_bool (side (t2v3 t) * inner) 0.

Definition separatedByEdgeOf (t1 t2 : Triangle2) : bool :=
  edgeSeparates (t2v1 t1) (t2v2 t1) (t2v3 t1) t2
  || edgeSeparates (t2v2 t1) (t2v3 t1) (t2v1 t1) t2
  || edgeSeparates (t2v3 t1) (t2v1 t1) (t2v2 t1) t2.

Definition trianglesOverlap (t1 t2 : Triangle2) : bool :=
  negb (separatedByEdgeOf t1 t2 || separatedByEdgeOf t2 t1).

Definition listTreeCreate
  (extractor : Triangle2 -> AABBValueType -> Z -> outcome Q)
  (comparator : Triangle2 -> Triangle2 -> bool) : list Triangle2 := [].
Definition listTreeInsert (t : list Triangle2) (x : Triangle2) : list Triangle2 := x :: t.
Definition listTreeOverlap (t : list Triangle2) (x : Triangle2) : bool :=
  existsb (trianglesOverlap x) t.

(** The overlap test above does not depend on the order of the vertices:
    the reordering of a triangle is left out. *)
Definition keepTriangle (t : Triangle2) : Triangle2 := t.

(** Rotations as maps on points.  The analyser is run below with two
    rotational directions only, so that the rotations it asks for are the
    half turn about the x axis and the quarter turn about the y axis, which
    are exact. *)
Definition halfTurnAboutX (p : Point3) : Point3 := mkPoint3 (px p) (- py p) (- pz p).
Definition quarterTurnAboutY (p : Point3) : Point3 := mkPoint3 (pz p) (py p) (- px p).
Definition exactRotation (axis : Point3) (angle : Q) : Point3 -> Point3 :=
  if Qeq_bool (py axis) 1 then quarterTurnAboutY else halfTurnAboutX.
Definition rotateVector (p : Point3) (r : Point3 -> Point3) : Point3 := r p.
Definition rotateMesh (m : Mesh) (r : Point3 -> Point3) : Mesh :=
  recomputeBoundingBox
    (mkMesh (map r (vertices m)) (faces m) (map r (faceNormals m)) (bbMin m) (bbMax m)).

End RationalLibrary.

(** ** Concrete meshes *)

Definition QPt (x y z : Q) : Point3 := mkPoint3 x y z.

(** A triangle in the plane [z = 0]; the detailed mesh is twice the size of
    the smoothed one.  The face is associated to direction [0] of the data. *)
Definition triangleMesh (a b c : Point3) : Mesh :=
  mkMesh [a; b; c] [mkFace 0 1 2] [QP 0 0 1] (QP 0 0 0) (QP 0 0 0).
Definition detailedTriangle : Mesh := triangleMesh (QP 0 0 0) (QP 8 0 0) (QP 0 8 0).
Definition smoothedTriangle : Mesh := triangleMesh (QP 0 0 0) (QP 4 0 0) (QP 0 4 0).
Definition triangleData (direction : Point3) : Data :=
  mkData [] [] [direction] [] (mkArray2D 1 1 [[1%Z]]) [] [0] smoothedTriangle [] []
    (mkArray2D 0 0 []).

(** A prism along the x axis over the triangle [(0,0) (4,0) (0,3)] of the
    (y, z) plane: face 0 is the cap at [x = 0], face 1 the cap at [x = 8],
    faces 2 to 7 are the sides, whose normals are perpendicular to x. *)
Definition prism : Mesh :=
  mkMesh
    [QP 0 0 0; QP 0 4 0; QP 0 0 3; QP 8 0 0; QP 8 4 0; QP 8 0 3]
    [mkFace 0 2 1; mkFace 3 4 5;
     mkFace 0 1 4; mkFace 0 4 3;
     mkFace 0 3 5; mkFace 0 5 2;
     mkFace 1 2 5; mkFace 1 5 4]
    [QP (-1) 0 0; QP 1 0 0;
     QP 0 0 (-1); QP 0 0 (-1);
     QP 0 (-1) 0; QP 0 (-1) 0;
     QPt 0 (3 # 5) (4 # 5); QPt 0 (3 # 5) (4 # 5)]
    (QP 0 0 0) (QP 8 4 3).

(** Three stacked faces: face 0 lies in the plane [z = 0] with normal
    [(0,0,1)]; face 1 lies above it in the plane [4x + 3z = 24], its normal
    [(4/5, 0, 3/5)] makes an angle of about 53 degrees with the z axis; face 2
    lies below both in the plane [z = -1] and looks down.  The vertical line
    through any of the three centroids meets the three faces. *)
Definition stacked : Mesh :=
  mkMesh
    [QP 0 0 0; QP 4 0 0; QP 0 4 0; QP 0 0 8; QP 3 0 4; QP 0 4 8;
     QP 0 0 (-1); QP 0 4 (-1); QP 4 0 (-1)]
    [mkFace 0 1 2; mkFace 3 4 5; mkFace 6 7 8]
    [QP 0 0 1; QPt (4 # 5) 0 (3 # 5); QP 0 0 (-1)]
    (QP 0 0 (-1)) (QP 4 4 8).


(** ** The pipeline on the stacked faces *)

(** The analyser on the rational instance, without the renderer. *)
Definition analyse (mesh : Mesh) (nDirections : nat) (includeXDirections : bool) (data : Data)
  (heightfieldAngle : Q) (checkMode : CheckMode) : outcome Data :=
  getVisibility insertionSort (Point3 -> Point3) exactRotation rotateMesh rotateVector
    verticalHits keepTriangle (list Triangle2) listTreeCreate listTreeInsert listTreeOverlap
    (fun _ _ _ => []) true mesh nDirections 0 heightfieldAngle
    includeXDirections data checkMode.

(** The overload of [getVisibility] that the recheck calls is not in the
    sources.  To run the recheck on examples, [answering newVisibility] is a
    call that returns with [newVisibility] as the array of the new data,
    whatever its arguments; the theorems on the recheck hold for any call. *)
Definition answering (newVisibility : Array2D) (mesh : Mesh) (nDirections : Z) (flag : bool)
  (newData : Data) (heightfieldAngle : Q) (checkMode : CheckMode) : outcome Data :=
  Ok (mkData (minExtremes newData) (maxExtremes newData) (directions newData)
        (angles newData) newVisibility (nonVisibleFaces newData) (association newData)
        (restoredMesh newData) (restoredMeshAssociation newData)
        (restoredMeshNonVisibleFaces newData) (restoredMeshVisibility newData)).

Definition emptyData : Data :=
  mkData [] [] [] [] (mkArray2D 0 0 []) [] [] (mkMesh [] [] [] (QP 0 0 0) (QP 0 0 0)) [] []
    (mkArray2D 0 0 []).

Definition withAssociation (data : Data) (assoc : list nat) : Data :=
  mkData (minExtremes data) (maxExtremes data) (directions data) (angles data)
    (visibility data) (nonVisibleFaces data) assoc (restoredMesh data)
    (restoredMeshAssociation data) (restoredMeshNonVisibleFaces data)
    (restoredMeshVisibility data).

(** Visibility by projection from two rotational directions (+z and -z)
    with a heightfield angle of 3/4 rad and the x directions pre-seeded from
    empty extreme sets. *)
Definition stackedAnalysed : Data :=
  match analyse stacked 2 false emptyData (3 # 4) PROJECTION with
  | Ok data => data
  | _ => emptyData
  end.

(** Then the association face 0 to +z, face 1 to +x, face 2 to -z, and one
    iteration of restoration towards the same mesh. *)
Definition stackedData : Data :=
  match restoreFrequencies vertexVertexAdjacencies vertexFaceAdjacencies
          recomputeFaceNormals recomputeBoundingBox 11 1 (3 # 4) stacked stacked
          (withAssociation stackedAnalysed [0; 3; 1]) with
  | Ok data => data
  | _ => emptyData
  end.

(** ** fouraxis.cpp: the association of the faces to the surviving planes *)

(** [smoothTerm]: the cost of giving the labels [label_1] and [label_2] to
    two neighbouring faces.  The two [float] results, [0.f] and [2.f], are
    written as integers. *)
Definition smoothTerm (site_1 site_2 label_1 label_2 : Z) : Z :=
  if (label_1 =? label_2)%Z then 0%Z else 2%Z.

(** [GCoptimizationGeneralGraph::SparseDataCost]. *)
Record SparseDataCost := mkSparseDataCost { site : nat; cost : Z }.

Section Association.
Context `{Scalar}.

(** The multi-label optimizer is library code: an object with the calls
    that [getAssociation] makes, each of which may throw a [GCException]
    ([Thrown]).  [getFaceAdjacences] is the matrix of libigl that gives the
    three neighbours of every face. *)
Variable GC : Type.
Variable gcNew : nat -> nat -> outcome GC.
Variable gcSetDataCost : GC -> nat -> list SparseDataCost -> outcome GC.
Variable gcSetSmoothCost : GC -> (Z -> Z -> Z -> Z -> Z) -> outcome GC.
Variable gcSetNeighbors : GC -> nat -> Z -> outcome GC.
Variable gcSwap : GC -> Z -> outcome GC.
Variable gcWhatLabel : GC -> nat -> outcome Z.
Variable getFaceAdjacences : Mesh -> nat -> nat -> Z.

(** The records built for one plane: one per face, in the order of the
    faces, with cost [100000] where the entry of the plane is [0]. *)
Definition dataCosts (visibility : Array2D) (mesh : Mesh) (plane : nat)
  : list SparseDataCost :=
  map (fun f =>
         if Z.eqb (a2_get visibility plane f) 0
         then mkSparseDataCost f 100000
         else mkSparseDataCost f 0)
      (seq 0 (numberFaces mesh)).

(** [for (label = 0; label < survivedPlanes.size(); ++label)]. *)
Definition setDataCosts (survivedPlanes : list nat) (visibility : Array2D) (mesh : Mesh)
  (gc : GC) : outcome GC :=
  ofold (fun gc label =>
           let plane := default 0 (survivedPlanes !! label) in
           gcSetDataCost gc label (dataCosts visibility mesh plane))
        (seq 0 (length survivedPlanes)) gc.

(** The body of the inner loop over the three neighbours of face [f]:
    [visited[nid]] is read without a bound check, with the [int] read from
    the matrix as index. *)
Definition registerNeighbor (adj : nat -> nat -> Z) (f : nat) (st : list bool * GC) (i : nat)
  : outcome (list bool * GC) :=
  let nid := adj f i in
  match lookupZ (fst st) nid with
  | None => OutOfRange nid
  | Some true => Ok st
  | Some false => gc ← gcSetNeighbors (snd st) f nid; mret (fst st, gc)
  end.

(** The body of the outer loop: [visited[f] = true], then the neighbours. *)
Definition registerNeighbors (adj : nat -> nat -> Z) (st : list bool * GC) (f : nat)
  : outcome (list bool * GC) :=
  ofold (registerNeighbor adj f) (seq 0 3) (<[f := true]> (fst st), snd st).

(** The statements of the [try] block up to the call of [swap]. *)
Definition buildAndSolve (survivedPlanes : list nat) (visibility : Array2D) (mesh : Mesh)
  : outcome GC :=
  let n_triangles := numberFaces mesh in
  let adj := getFaceAdjacences mesh in
  gc ← gcNew n_triangles (length survivedPlanes);
  gc ← setDataCosts survivedPlanes visibility mesh gc;
  gc ← gcSetSmoothCost gc smoothTerm;
  st ← ofold (registerNeighbors adj) (seq 0 n_triangles) (replicate n_triangles false, gc);
  gcSwap (snd st) (-1).

(** The read-back loop, the last statements of the [try] block: an
    exception leaves it with the labels written so far. *)
Fixpoint readLabels (gc : GC) (fs : list nat) (segmentation : list Z) : outcome (list Z) :=
  match fs with
  | [] => Ok segmentation
  | f :: rest =>
      match gcWhatLabel gc f with
      | Ok label => readLabels gc rest (<[f := label]> segmentation)
      | Thrown => Ok segmentation
      | OutOfRange i => OutOfRange i
      | OutOfFuel => OutOfFuel
      end
  end.

(** The handler of [GCException] only reports the exception: the function
    then returns [segmentation] as it is. *)
Definition getAssociation (survivedPlanes : list nat) (visibility : Array2D) (mesh : Mesh)
  : outcome (list Z) :=
  let n_triangles := numberFaces mesh in
  let segmentation := replicate n_triangles 0%Z in
  match buildAndSolve survivedPlanes visibility mesh with
  | Ok gc => readLabels gc (seq 0 n_triangles) segmentation
  | Thrown => Ok segmentation
  | OutOfRange i => OutOfRange i
  | OutOfFuel => OutOfFuel
  end.

End Association.

(** An optimizer object that records the calls of [setNeighbors] and does
    nothing else: no call throws, and [whatLabel] gives every face the
    label [1]. *)
Definition recordingNew (sites labels : nat) : outcome (list (nat * Z)) := Ok [].
Definition recordingSetDataCost (calls : list (nat * Z)) (label : nat)
  (data : list SparseDataCost) : outcome (list (nat * Z)) := Ok calls.
Definition recordingSetSmoothCost (calls : list (nat * Z))
  (smooth : Z -> Z -> Z -> Z -> Z) : outcome (list (nat * Z)) := Ok calls.
Definition recordNeighbors (calls : list (nat * Z)) (f : nat) (nid : Z)
  : outcome (list (nat * Z)) :=
  Ok (calls ++ [(f, nid)]).
Definition recordingSwap (calls : list (nat * Z)) (iterations : Z)
  : outcome (list (nat * Z)) := Ok calls.
Definition labelOne (calls : list (nat * Z)) (f : nat) : outcome Z := Ok 1%Z.

(** The same object with a constructor that throws. *)
Definition throwingNew (sites labels : nat) : outcome (list (nat * Z)) := Thrown.

(** The face adjacency of the prism: the neighbour across the edges
    (v0,v1), (v1,v2) and (v2,v0) of every face. *)
Definition prismAdjacency (f i : nat) : Z :=
  default 0%Z
    (default [] ([[5; 6; 2]; [3; 7; 4]; [0; 7; 3]; [2; 1; 4];
                  [3; 1; 5]; [4; 6; 0]; [0; 5; 7]; [6; 1; 2]]%Z !! f) !! i).

(** The adjacency of a single triangle: no neighbour on any edge. *)
Definition openAdjacency (f i : nat) : Z := (-1)%Z.

(** The calls of [setNeighbors] for the prism. *)
Definition prismNeighbourCalls : list (nat * Z) :=
  [(0, 5%Z); (0, 6%Z); (0, 2%Z); (1, 3%Z); (1, 7%Z); (1, 4%Z); (2, 7%Z); (2, 3%Z);
   (3, 4%Z); (4, 5%Z); (5, 6%Z); (6, 7%Z)].

(** Three side faces of the prism, for [maxYFace] and [minYFace]. *)
Definition prismSides : list nat := [2; 6; 4].

(** ** Further runs on the stacked faces *)

(** A renderer that reports every face as rendered, so that only the test
    on the normals decides. *)
Definition seeAll (mesh : Mesh) (resolution : nat) (direction : Point3) : list bool :=
  replicate (numberFaces mesh) true.

(** The array of the renderer for two rotational directions and the x
    directions, and the array of the ray shooting for two rotational
    directions with the x directions seeded from [[1; 2]] and [[0]]. *)
Definition stackedRendered : Array2D :=
  mkArray2D 4 3 [[1; 0; 0]; [0; 0; 1]; [0; 0; 0]; [0; 1; 0]]%Z.
Definition stackedSeeded : Array2D :=
  mkArray2D 4 3 [[1; 0; 0]; [0; 0; 1]; [0; 1; 1]; [1; 0; 0]]%Z.

(** The data of the stacked faces before the restoration: analysed and
    associated, with the fields of the restored mesh still empty. *)
Definition stackedUnrestored : Data := withAssociation stackedAnalysed [0; 3; 1].

(** The data after a recheck of the restored stacked faces in which the
    call of [getVisibility] answers with the array of the first analysis. *)
Definition stackedRechecked : Data :=
  match checkVisibilityAfterFrequenciesAreRestored
          (answering (visibility stackedAnalysed)) stackedData (3 # 4) PROJECTION with
  | Ok (data, _) => data
  | _ => emptyData
  end.

(** The data after a recheck of the stacked faces before the restoration. *)
Definition stackedUnrestoredRechecked : Data :=
  match checkVisibilityAfterFrequenciesAreRestored
          (answering (visibility stackedAnalysed)) stackedUnrestored (3 # 4)
          PROJECTION with
  | Ok (data, _) => data
  | _ => emptyData
  end.

(** A triangle with a fourth vertex that no face uses. *)
Definition triangleWithLooseVertex : Mesh :=
  mkMesh [QP 0 0 0; QP 4 0 0; QP 0 4 0; QP 9 9 9] [mkFace 0 1 2] [QP 0 0 1]
    (QP 0 0 0) (QP 9 9 9).

(** A validity test for the binary search: the first coordinate is at
    most [1]. *)
Definition firstCoordinateAtMostOne (p : Point3) : outcome bool :=
  Ok (Qle_bool (px p) 1).

(** The array of one ray shooting on the stacked faces, from +z into row
    [0] and from -z into row [1]. *)
Definition stackedShot : Array2D := mkArray2D 2 3 [[1; 0; 0]; [0; 0; 1]]%Z.

(** An intersection query that reports every face of the mesh. *)
Definition everyFace (m : Mesh) (p q : Point3) : list nat := seq 0 (numberFaces m).

(** The differential coordinates of the triangle with a loose vertex. *)
Definition looseCoordinates : list Point3 :=
  match computeDifferentialCoordinates triangleWithLooseVertex
          (vertexVertexAdjacencies triangleWithLooseVertex) with
  | Ok differentialCoordinates => differentialCoordinates
  | _ => []
  end.

(** ** Double precision

    The arithmetic of the sources: IEEE 754 binary64 with rounding to
    nearest, as the primitive floats of the kernel compute it.  It is not
    declared as an instance, so that it is used only where it is named.
    [cos] belongs to the C library; [doubleCos] is the polynomial of
    [Qcos].  It is used at the angle of one radian only, where it gives
    [0.5416...] for [cos 1 = 0.5403...]: both are below the dot product
    [0.7071...] that is compared with it. *)
Definition doubleOfZ (z : Z) : PrimFloat.float :=
  if (z <? 0)%Z then PrimFloat.opp (PrimFloat.of_uint63 (Uint63.of_Z (- z)))
  else PrimFloat.of_uint63 (Uint63.of_Z z).

Definition doubleCos (a : PrimFloat.float) : PrimFloat.float :=
  let a2 := PrimFloat.mul a a in
  PrimFloat.add (PrimFloat.sub (doubleOfZ 1) (PrimFloat.div a2 (doubleOfZ 2)))
                (PrimFloat.div (PrimFloat.mul a2 a2) (doubleOfZ 24)).

Definition DoubleScalar : Scalar := {|
  scalar := PrimFloat.float;
  sadd := PrimFloat.add;
  ssub := PrimFloat.sub;
  smul := PrimFloat.mul;
  sdiv := PrimFloat.div;
  sopp := PrimFloat.opp;
  sofZ := doubleOfZ;
  shalf := PrimFloat.div (doubleOfZ 1) (doubleOfZ 2);
  sepsilon := PrimFloat.div (doubleOfZ 1) (doubleOfZ 4503599627370496);
  spi := PrimFloat.div (doubleOfZ 7074237752028440) (doubleOfZ 2251799813685248);
  sltb := PrimFloat.ltb;
  sleb := PrimFloat.leb;
  scos := doubleCos;
  ssqrt := PrimFloat.sqrt
|}.

(** A sloping triangle above the height [2^54], where consecutive doubles
    are four apart: the vertices [(0,0,2^54)], [(4,0,2^54)] and
    [(0,4,2^54+4)], the unit normal [(0,-1,1)/sqrt 2] and the bounding box.
    The vertical line through the centroid meets the face at the height
    [2^54 + 4/3], strictly between the two ends of the box. *)
Definition highSlope : @Mesh DoubleScalar :=
  let z := doubleOfZ (2 ^ 54) in
  let s := PrimFloat.sqrt (PrimFloat.div (doubleOfZ 1) (doubleOfZ 2)) in
  @mkMesh DoubleScalar
    [@mkPoint3 DoubleScalar (doubleOfZ 0) (doubleOfZ 0) z;
     @mkPoint3 DoubleScalar (doubleOfZ 4) (doubleOfZ 0) z;
     @mkPoint3 DoubleScalar (doubleOfZ 0) (doubleOfZ 4) (doubleOfZ (2 ^ 54 + 4))]
    [mkFace 0 1 2]
    [@mkPoint3 DoubleScalar (doubleOfZ 0) (PrimFloat.opp s) s]
    (@mkPoint3 DoubleScalar (doubleOfZ 0) (doubleOfZ 0) z)
    (@mkPoint3 DoubleScalar (doubleOfZ 4) (doubleOfZ 4) (doubleOfZ (2 ^ 54 + 4))).

(** An intersection query that reports every face of the mesh: the vertical
    line through the centroid of the only face of [highSlope] meets that
    face. *)
Definition meetsEveryFace (m : @Mesh DoubleScalar) (p q : @Point3 DoubleScalar) : list Z :=
  map Z.of_nat (seq 0 (@numberFaces DoubleScalar m)).
(** * Notions used in the statements *)

Section Notions.
Context `{Scalar}.

(** The candidate after [k] halvings towards the current point. *)
Fixpoint halved (k : nat) (currentPoint targetPoint : Point3) : Point3 :=
  match k with
  | O => targetPoint
  | S k' => halved k' currentPoint (pscale shalf (padd targetPoint currentPoint))
  end.

(** What a step may change: the vertex it handles, and nothing else. *)
Definition sameBut (vIds : list nat) (m m' : Mesh) : Prop :=
  faces m' = faces m /\ faceNormals m' = faceNormals m
  /\ bbMin m' = bbMin m /\ bbMax m' = bbMax m
  /\ length (vertices m') = length (vertices m)
  /\ forall i, ~ In i vIds -> vertices m' !! i = vertices m !! i.

(** The mesh on which the sweep handles vertex [vId]: the vertices before
    [vId] already have their new positions, the others still have the
    positions they had when the sweep started. *)
Definition meshDuringSweep (before after : Mesh) (vId : nat) : Mesh :=
  mkMesh (take vId (vertices after) ++ drop vId (vertices before))
         (faces before) (faceNormals before) (bbMin before) (bbMax before).

End Notions.

(** The triangle after one sweep of the restorer, and after the sweep in
    the reverse order of the vertices. *)
Definition sweptTriangle : Mesh :=
  triangleMesh (QP (-2) (-2) 0) (QP 7 (-3) 0) (QPt (-3 # 2) (11 # 2) 0).

Definition triangleCoordinates : list Point3 :=
  match computeDifferentialCoordinates detailedTriangle
          (vertexVertexAdjacencies detailedTriangle) with
  | Ok differentialCoordinates => differentialCoordinates
  | _ => []
  end.

(** The longest prefix of a list of faces whose members all pass a test. *)
Fixpoint passingPrefix (test : nat -> bool) (l : list nat) : list nat :=
  match l with
  | [] => []
  | f :: l' => if test f then f :: passingPrefix test l' else []
  end.

(** A well-formed array of the given sizes. *)
Definition shapedAs (nx ny : nat) (a : Array2D) : Prop :=
  a2_wf a /\ sizeX a = nx /\ sizeY a = ny.


Section VisibilityNotions.
Context `{Scalar}.


(** The same test for a face index of the intersection list, against the
    cosine of the angle. *)
Definition passesHeightfieldLimit (mesh : Mesh) (heightFieldLimit : scalar)
  (direction : Point3) (g : Z) : bool :=
  sleb heightFieldLimit (pdot direction (getFaceNormal mesh (Z.to_nat g))).



End VisibilityNotions.


(** Closed equations between concrete values are checked by evaluation. *)
Ltac evaluate :=
  match goal with |- _ = ?b => vm_cast_no_check (@eq_refl _ b) end.

(** The stored bounding box bounds the z coordinates of the vertices, and
    the faces refer to vertices of the mesh (rational instance). *)
Definition boxBoundsVerticesZ (m : Mesh) : Prop :=
  forall v, In v (vertices m) -> (pz (bbMin m) <= pz v /\ pz v <= pz (bbMax m))%Q.

Definition facesWithinMesh (m : Mesh) : Prop :=
  forall f, In f (faces m) ->
            fx f < numberVertices m /\ fy f < numberVertices m /\ fz f < numberVertices m.


(** A validity test that answers for every point. *)
Definition answersEverywhere (A : Type) (valid : A -> outcome bool) : Prop :=
  forall p, exists b, valid p = Ok b.

(** The vector [visited] of [getAssociation] when the faces below [k] have
    been handled: [n] entries, [true] exactly below [k]. *)
Definition visitedBelow (n k : nat) (visited : list bool) : Prop :=
  length visited = n /\ forall j, j < n -> visited !! j = Some (j <? k).

(** An index that [visited], of [n] entries, has. *)
Definition withinFaces (n : nat) (z : Z) : Prop := (0 <= z < Z.of_nat n)%Z.

(** The calls of [setNeighbors] made for face [f]: its neighbours with a
    greater index, in the order of the columns of the matrix. *)
Definition registeredFrom (adj : nat -> nat -> Z) (f : nat) : list (nat * Z) :=
  map (fun i => (f, adj f i))
      (List.filter (fun i => (Z.of_nat f <? adj f i)%Z) (seq 0 3)).

(** A list of indices in strictly increasing order. *)
Definition increasing (l : list nat) : Prop :=
  forall p q a b, p < q -> l !! p = Some a -> l !! q = Some b -> a < b.

(** An array whose entries are all [0] or [1]. *)
Definition zeroOrOne (a : Array2D) : Prop :=
  forall i j, a2_get a i j = 0%Z \/ a2_get a i j = 1%Z.

Section PlaneNotions.
Context `{Scalar}.

(** The faces that [checkPlane] finds on the line through the barycenter of
    face [t], parallel to the y axis. *)
Definition planeBlackList (getIntersectEigenFaces : Mesh -> Point3 -> Point3 -> list nat)
  (mesh : Mesh) (t : nat) : list nat :=
  let bar := barycenter mesh t in
  getIntersectEigenFaces mesh
    (mkPoint3 (px bar) (sadd (py (bbMax mesh)) (sofZ 50)) (pz bar))
    (mkPoint3 (px bar) (ssub (py (bbMin mesh)) (sofZ 50)) (pz bar)).

End PlaneNotions.


(** The number of rows of the array of the analyser: the projection and the
    ray shooting work on pairs of opposite directions, the renderer on the
    directions one by one. *)
Definition analysedRows (checkMode : CheckMode) (nDirections : nat) : nat :=
  match checkMode with
  | OPENGL => nDirections + 2
  | _ => nDirections / 2 * 2 + 2
  end.

(** The sum of [h] over a list of vertex indices (rational instance). *)
Definition sumOver (h : nat -> Q) (l : list nat) : Q :=
  fold_right (fun n s => h n + s)%Q 0%Q l.

(** Equality of two points of the rational instance, coordinate by
    coordinate. *)
Definition samePoint (p q : Point3) : Prop :=
  (px p == px q)%Q /\ (py p == py q)%Q /\ (pz p == pz q)%Q.

(** The point at the fraction [1 / 2^k] of the way from [currentPoint] to
    [targetPoint]. *)
Definition towards (k : nat) (currentPoint targetPoint : Point3) : Point3 :=
  mkPoint3
    (px currentPoint + (px targetPoint - px currentPoint) / inject_Z (2 ^ Z.of_nat k))%Q
    (py currentPoint + (py targetPoint - py currentPoint) / inject_Z (2 ^ Z.of_nat k))%Q
    (pz currentPoint + (pz targetPoint - pz currentPoint) / inject_Z (2 ^ Z.of_nat k))%Q.

Section RayNotions.
Context `{Scalar}.

(** The height of the barycenter of a face of the intersection list. *)
Definition barycenterZ (mesh : Mesh) (g : Z) : scalar := pz (barycenter mesh (Z.to_nat g)).

End RayNotions.

Section LibraryNotions.
Context `{Scalar}.

(** What the analyser takes for granted of its input and of the library:
    the pre-seeded extremes are faces of the mesh, an intersection query
    returns no index beyond the faces of the mesh it is asked about, a
    rotation keeps the number of faces, and the renderer answers for no
    more than the faces of the mesh. *)
Definition withinTheMesh {Matrix3 : Type} (meshRotate : Mesh -> Matrix3 -> Mesh)
  (getIntersectedEigenFaces : Mesh -> Point3 -> Point3 -> list Z)
  (renderVisibility : Mesh -> nat -> Point3 -> list bool)
  (mesh : Mesh) (minExtremes maxExtremes : list nat) : Prop :=
  (forall e, In e minExtremes \/ In e maxExtremes -> e < numberFaces mesh)
  /\ (forall m p q g,
         In g (getIntersectedEigenFaces m p q) -> (g < Z.of_nat (numberFaces m))%Z)
  /\ (forall m rotation, numberFaces (meshRotate m rotation) = numberFaces m)
  /\ (forall m resolution direction,
         length (renderVisibility m resolution direction) <= numberFaces m).

End LibraryNotions.
(** * Properties of the frequency restorer *)


Section FrequenciesFacts.
Context `{Scalar}.

(** ** Vector access and loops *)

Lemma vectorAt_returns {A : Type} (v : list A) i :
  i < length v -> exists a, v !! i = Some a /\ vectorAt v i = Ok a.
Proof.
  intros Hi. destruct (lookup_lt_is_Some_2 v i Hi) as [a Ha].
  exists a. split; [exact Ha|]. unfold vectorAt. now rewrite Ha.
Qed.

Lemma vectorAt_Ok {A : Type} (v : list A) i a : vectorAt v i = Ok a -> v !! i = Some a.
Proof. unfold vectorAt. destruct (v !! i); [now intros [= ->] | discriminate]. Qed.

Lemma ofold_app {A B : Type} (f : A -> B -> outcome A) l1 l2 a :
  ofold f (l1 ++ l2) a = (a' ← ofold f l1 a; ofold f l2 a').
Proof.
  revert a. induction l1 as [|b l1 IH]; intros a; cbn [app ofold]; [reflexivity|].
  destruct (f a b); cbn [mbind outcome_bind obind]; [apply IH | reflexivity..].
Qed.


Lemma omap_lookup {A B : Type} (f : A -> outcome B) : forall l bs i a,
  omap f l = Ok bs -> l !! i = Some a -> exists b, f a = Ok b /\ bs !! i = Some b.
Proof.
  induction l as [|a0 l IH]; intros bs i a; cbn [omap]; [intros _ Hl; discriminate|].
  destruct (f a0) as [b0| | |] eqn:H0; cbn [mbind mret outcome_bind outcome_ret obind];
    try discriminate.
  destruct (omap f l) as [bs'| | |]; cbn [obind]; try discriminate.
  intros [= <-]. destruct i as [|i]; cbn.
  - intros [= <-]. eauto.
  - intros Hl. exact (IH bs' i a eq_refl Hl).
Qed.

Lemma omap_returns {A B : Type} (f : A -> outcome B) : forall l,
  (forall a, In a l -> exists b, f a = Ok b) -> exists bs, omap f l = Ok bs.
Proof.
  induction l as [|a l IH]; intros Hall; cbn [omap]; [eauto|].
  destruct (Hall a (or_introl eq_refl)) as [b ->].
  destruct IH as [bs ->]; [intros a' Ha'; apply Hall; now right|].
  cbn. eauto.
Qed.

(** ** The binary search *)


(** ** One vertex *)



(** What [restoreVertex] does once its parts have returned. *)
Lemma restoreVertex_found fuel dc vv vf (data : Data) angle (st : Mesh * bool) vId t p c :
  getTargetPoint (fst st) dc vId vv = Ok t ->
  binarySearch fuel (fun q => isHeightFieldValid (fst st) data vId q vf angle)
    (getVertex (fst st) vId) t 0 = Ok (p, c) ->
  restoreVertex fuel dc vv vf data angle st vId
  = Ok (if c <? BINARY_SEARCH_ITERATIONS then (setVertex (fst st) vId p, true) else st).
Proof.
  intros Ht Hb. unfold restoreVertex. rewrite Ht. cbn [mbind outcome_bind obind].
  rewrite Hb. cbn [mbind mret outcome_bind outcome_ret obind fst snd].
  destruct (c <? BINARY_SEARCH_ITERATIONS); reflexivity.
Qed.

(** Conversely, a vertex is handled only through its target point and its
    search. *)
Lemma restoreVertex_Ok fuel dc vv vf (data : Data) angle (st : Mesh * bool) vId st' :
  restoreVertex fuel dc vv vf data angle st vId = Ok st' ->
  exists t p c,
    getTargetPoint (fst st) dc vId vv = Ok t
    /\ binarySearch fuel (fun q => isHeightFieldValid (fst st) data vId q vf angle)
         (getVertex (fst st) vId) t 0 = Ok (p, c)
    /\ st' = (if c <? BINARY_SEARCH_ITERATIONS then (setVertex (fst st) vId p, true) else st).
Proof.
  unfold restoreVertex.
  destruct (getTargetPoint _ _ _ _) as [t| | |] eqn:Ht; cbn [mbind outcome_bind obind];
    try discriminate.
  destruct (binarySearch _ _ _ _ _) as [[p c]| | |] eqn:Hb;
    cbn [mbind mret outcome_bind outcome_ret obind fst snd]; try discriminate.
  intros Hr. exists t, p, c. split; [reflexivity|]. split; [exact Hb|].
  destruct (c <? BINARY_SEARCH_ITERATIONS); now injection Hr.
Qed.


Lemma sameBut_refl vIds m : sameBut vIds m m.
Proof. unfold sameBut. tauto. Qed.

Lemma sameBut_trans l1 l2 m1 m2 m3 :
  sameBut l1 m1 m2 -> sameBut l2 m2 m3 -> sameBut (l1 ++ l2) m1 m3.
Proof.
  intros (a1 & a2 & a3 & a4 & a5 & a6) (b1 & b2 & b3 & b4 & b5 & b6).
  unfold sameBut. repeat split; try congruence.
  intros i Hi. rewrite b6, a6; auto; intros Hin; apply Hi, in_or_app; auto.
Qed.

Lemma setVertex_sameBut m vId p : sameBut [vId] m (setVertex m vId p).
Proof.
  unfold sameBut, setVertex; cbn. repeat split; auto.
  - apply length_insert.
  - intros i Hi. apply list_lookup_insert_ne. intros ->. apply Hi. now left.
Qed.

Lemma restoreVertex_sameBut fuel dc vv vf (data : Data) angle st vId st' :
  restoreVertex fuel dc vv vf data angle st vId = Ok st' ->
  sameBut [vId] (fst st) (fst st').
Proof.
  intros Hr. destruct (restoreVertex_Ok _ _ _ _ _ _ _ _ _ Hr) as (t & p & c & _ & _ & ->).
  destruct (c <? BINARY_SEARCH_ITERATIONS); cbn [fst].
  - apply setVertex_sameBut.
  - apply sameBut_refl.
Qed.

(** The flag [aVertexHasMoved] does not influence the mesh. *)
Lemma restoreVertex_flag fuel dc vv vf (data : Data) angle m b b' vId st' :
  restoreVertex fuel dc vv vf data angle (m, b) vId = Ok st' ->
  exists st'', restoreVertex fuel dc vv vf data angle (m, b') vId = Ok st''
               /\ fst st'' = fst st'.
Proof.
  intros Hr. destruct (restoreVertex_Ok _ _ _ _ _ _ _ _ _ Hr) as (t & p & c & Ht & Hb & ->).
  cbn [fst] in Ht, Hb.
  rewrite (restoreVertex_found fuel dc vv vf data angle (m, b') vId t p c Ht Hb).
  eexists. split; [reflexivity|].
  destruct (c <? BINARY_SEARCH_ITERATIONS); reflexivity.
Qed.

(** ** The sweep *)

Lemma sweepVertices_app fuel dc vv vf (data : Data) angle l1 l2 st :
  sweepVertices fuel dc vv vf data angle (l1 ++ l2) st
  = (st' ← sweepVertices fuel dc vv vf data angle l1 st;
     sweepVertices fuel dc vv vf data angle l2 st').
Proof. unfold sweepVertices. apply ofold_app. Qed.

Lemma sweepVertices_sameBut fuel dc vv vf (data : Data) angle :
  forall vIds st st',
    sweepVertices fuel dc vv vf data angle vIds st = Ok st' ->
    sameBut vIds (fst st) (fst st').
Proof.
  unfold sweepVertices.
  induction vIds as [|v l IH]; intros st st'; cbn [ofold].
  - intros [= <-]. apply sameBut_refl.
  - destruct (restoreVertex _ _ _ _ _ _ _ _) as [st1| | |] eqn:Hv;
      cbn [mbind outcome_bind obind]; try discriminate.
    intros Hs. apply (sameBut_trans [v] l _ (fst st1)).
    + eapply restoreVertex_sameBut; eauto.
    + apply IH; auto.
Qed.


Lemma getVertex_sameBut vIds m m' i :
  sameBut vIds m m' -> ~ In i vIds -> getVertex m' i = getVertex m i.
Proof. intros (_ & _ & _ & _ & _ & Hv) Hi. unfold getVertex. now rewrite Hv. Qed.

Lemma mesh_eq (m m' : Mesh) :
  vertices m = vertices m' -> faces m = faces m' -> faceNormals m = faceNormals m' ->
  bbMin m = bbMin m' -> bbMax m = bbMax m' -> m = m'.
Proof. destruct m, m'; cbn; intros; subst; reflexivity. Qed.

Lemma seq_split_at n v :
  v < n -> seq 0 n = seq 0 v ++ v :: seq (S v) (n - S v).
Proof.
  intros Hv. replace n with (v + S (n - S v)) at 1 by lia.
  rewrite seq_app. cbn. reflexivity.
Qed.

Lemma sweep_at_vertex fuel m dc vv vf (data : Data) angle m' moved vId :
  restoreFrequenciesValidHeightfields fuel m dc vv vf data angle = Ok (m', moved) ->
  vId < numberVertices m ->
  exists st1 st2,
    sweepVertices fuel dc vv vf data angle (seq 0 vId) (m, false) = Ok st1
    /\ fst st1 = meshDuringSweep m m' vId
    /\ getVertex (fst st1) vId = getVertex m vId
    /\ restoreVertex fuel dc vv vf data angle st1 vId = Ok st2
    /\ getVertex m' vId = getVertex (fst st2) vId.
Proof.
  unfold restoreFrequenciesValidHeightfields. intros Hs Hv.
  rewrite (seq_split_at _ _ Hv), sweepVertices_app in Hs.
  destruct (sweepVertices fuel dc vv vf data angle (seq 0 vId) (m, false))
    as [st1| | |] eqn:H1; cbn [mbind outcome_bind obind] in Hs; try discriminate.
  unfold sweepVertices in Hs. cbn [ofold] in Hs.
  destruct (restoreVertex fuel dc vv vf data angle st1 vId) as [st2| | |] eqn:H2;
    cbn [mbind outcome_bind obind] in Hs; try discriminate.
  fold (sweepVertices fuel dc vv vf data angle (seq (S vId) (numberVertices m - S vId)) st2)
    in Hs.
  pose proof (sweepVertices_sameBut _ _ _ _ _ _ _ _ _ H1) as S1.
  pose proof (restoreVertex_sameBut _ _ _ _ _ _ _ _ _ H2) as S2.
  pose proof (sweepVertices_sameBut _ _ _ _ _ _ _ _ _ Hs) as S3.
  cbn [fst] in S1, S3.
  exists st1, st2. repeat split; auto.
  - (* the mesh reached after the vertices before [vId] *)
    pose proof (sameBut_trans _ _ _ _ _ S2 S3) as S23.
    destruct S1 as (a1 & a2 & a3 & a4 & a5 & a6).
    destruct S23 as (b1 & b2 & b3 & b4 & b5 & b6).
    apply mesh_eq; cbn; auto.
    apply list_eq. intros i.
    destruct (Nat.lt_ge_cases i vId) as [Hi|Hi].
    + rewrite lookup_app_l by (rewrite length_take; unfold numberVertices in Hv; lia).
      rewrite lookup_take_lt by lia. symmetry. apply b6.
      intros Hin. apply in_app_or in Hin.
      destruct Hin as [[->|[]]|Hin%in_seq]; lia.
    + rewrite lookup_app_r by (rewrite length_take; lia).
      rewrite length_take, lookup_drop.
      replace (vId `min` length (vertices m')) with vId
        by (unfold numberVertices in Hv; lia).
      replace (vId + (i - vId)) with i by lia.
      apply a6. intros Hin%in_seq. lia.
  - eapply getVertex_sameBut; [exact S1|]. intros Hin%in_seq. lia.
  - eapply getVertex_sameBut; [exact S3|]. intros Hin%in_seq. lia.
Qed.

End FrequenciesFacts.

Section FrequenciesTheorems.
Context `{Scalar}.

(** C3 (as amended).  The sweep works in place: the new position of vertex
    [vId] is the one the per-vertex procedure (target point, validation,
    halving) computes on the mesh in which the vertices before [vId] already
    have their new positions of this sweep. *)
Theorem sweep_reads_positions_already_moved
  fuel (m : Mesh) dc vv vf (data : Data) angle m' moved vId :
  restoreFrequenciesValidHeightfields fuel m dc vv vf data angle = Ok (m', moved) ->
  vId < numberVertices m ->
  exists st,
    restoreVertex fuel dc vv vf data angle (meshDuringSweep m m' vId, false) vId = Ok st
    /\ getVertex m' vId = getVertex (fst st) vId.
Proof.
  intros Hs Hv.
  destruct (sweep_at_vertex _ _ _ _ _ _ _ _ _ _ Hs Hv) as (st1 & st2 & _ & Hm & _ & Hr & Hg).
  destruct st1 as [m1 b1]. cbn [fst] in Hm. subst m1.
  destruct (restoreVertex_flag _ _ _ _ _ _ _ _ false _ _ Hr) as (st & Hst & Hfst).
  exists st. split; [exact Hst|]. now rewrite Hfst.
Qed.


(** ** The iterations *)


Variable getVertexVertexAdjacencies : Mesh -> list (list nat).
Variable getVertexFaceAdjacencies : Mesh -> list (list nat).
Variable updateFacesAndVerticesNormals : Mesh -> Mesh.
Variable updateBoundingBox : Mesh -> Mesh.


End FrequenciesTheorems.

(** On the triangle the sweep does not compute what a simultaneous update
    computes, and its result depends on the order of the vertices. *)
Lemma sweep_differs_from_simultaneous_update :
  restoreFrequenciesValidHeightfields 11 smoothedTriangle triangleCoordinates
    (vertexVertexAdjacencies detailedTriangle)
    (vertexFaceAdjacencies detailedTriangle) (triangleData (QP 0 0 1)) (3 # 4)%Q
  = Ok (sweptTriangle, true)
  /\ restoreSweepSimultaneous 11 smoothedTriangle triangleCoordinates
       (vertexVertexAdjacencies detailedTriangle)
       (vertexFaceAdjacencies detailedTriangle) (triangleData (QP 0 0 1)) (3 # 4)%Q
     = Ok (triangleMesh (QP (-2) (-2) 0) (QP 8 (-2) 0) (QP (-2) 8 0))
  /\ sweepVertices 11 triangleCoordinates
       (vertexVertexAdjacencies detailedTriangle)
       (vertexFaceAdjacencies detailedTriangle) (triangleData (QP 0 0 1)) (3 # 4)%Q
       [2; 1; 0] (smoothedTriangle, false)
     = Ok (triangleMesh (QPt (-3 # 2) 0 0) (QP 7 0 0) (QP (-2) 8 0), true)
  /\ ~ (px (getVertex sweptTriangle 1) == 8)%Q
  /\ ~ (py (getVertex sweptTriangle 1) == 0)%Q.
Proof.
  repeat split; try evaluate; vm_compute; discriminate.
Qed.

Lemma sweep_reads_positions_already_moved_witness :
  restoreFrequenciesValidHeightfields 11 smoothedTriangle triangleCoordinates
    (vertexVertexAdjacencies detailedTriangle) (vertexFaceAdjacencies detailedTriangle)
    (triangleData (QP 0 0 1)) (3 # 4)%Q = Ok (sweptTriangle, true)
  /\ 1 < numberVertices smoothedTriangle
  /\ exists st,
      restoreVertex 11 triangleCoordinates (vertexVertexAdjacencies detailedTriangle)
        (vertexFaceAdjacencies detailedTriangle) (triangleData (QP 0 0 1)) (3 # 4)%Q
        (meshDuringSweep smoothedTriangle sweptTriangle 1, false) 1 = Ok st
      /\ getVertex sweptTriangle 1 = getVertex (fst st) 1.
Proof.
  assert (H1 : restoreFrequenciesValidHeightfields 11 smoothedTriangle triangleCoordinates
    (vertexVertexAdjacencies detailedTriangle) (vertexFaceAdjacencies detailedTriangle)
    (triangleData (QP 0 0 1)) (3 # 4)%Q = Ok (sweptTriangle, true)) by evaluate.
  assert (H2 : 1 < numberVertices smoothedTriangle) by (vm_compute; lia).
  split; [exact H1|]. split; [exact H2|].
  exact (sweep_reads_positions_already_moved 11 smoothedTriangle triangleCoordinates
           (vertexVertexAdjacencies detailedTriangle) (vertexFaceAdjacencies detailedTriangle)
           (triangleData (QP 0 0 1)) (3 # 4)%Q sweptTriangle true 1 H1 H2).
Defined.



(** * Two-dimensional arrays *)

Lemma a2_get_set_cases (a : Array2D) i j x i' j' :
  a2_get (a2_set a i j x) i' j' = a2_get a i' j'
  \/ (i' = i /\ j' = j /\ a2_get (a2_set a i j x) i' j' = x).
Proof.
  unfold a2_get, a2_set; cbn [rows].
  destruct (decide (i = i')) as [<-|Hi].
  - rewrite list_lookup_alter_eq.
    destruct (rows a !! i) as [r|] eqn:Hr; cbn; [|now left].
    destruct (decide (j = j')) as [<-|Hj].
    + destruct (decide (j < length r)) as [Hl|Hl].
      * right. rewrite list_lookup_insert_eq by exact Hl. auto.
      * left. rewrite list_insert_ge by lia. reflexivity.
    + left. now rewrite list_lookup_insert_ne.
  - left. now rewrite list_lookup_alter_ne.
Qed.

Lemma a2_get_set_other (a : Array2D) i j x i' j' :
  i' <> i \/ j' <> j -> a2_get (a2_set a i j x) i' j' = a2_get a i' j'.
Proof.
  intros Hne. destruct (a2_get_set_cases a i j x i' j') as [E|(-> & -> & _)]; [exact E|].
  destruct Hne; congruence.
Qed.

Lemma a2_get_set_same (a : Array2D) i j x :
  a2_wf a -> i < sizeX a -> j < sizeY a -> a2_get (a2_set a i j x) i j = x.
Proof.
  intros [Hx Hy] Hi Hj. unfold a2_get, a2_set; cbn [rows].
  rewrite list_lookup_alter_eq.
  destruct (lookup_lt_is_Some_2 (rows a) i) as [r Hr]; [lia|].
  rewrite Hr; cbn.
  rewrite list_lookup_insert_eq; [reflexivity|].
  rewrite Forall_forall in Hy. rewrite (Hy r); [exact Hj|].
  apply list_elem_of_lookup. eauto.
Qed.

Lemma a2_set_sizes (a : Array2D) i j x :
  sizeX (a2_set a i j x) = sizeX a /\ sizeY (a2_set a i j x) = sizeY a.
Proof. split; reflexivity. Qed.

Lemma a2_set_wf (a : Array2D) i j x : a2_wf a -> a2_wf (a2_set a i j x).
Proof.
  intros [Hx Hy]. split; cbn.
  - now rewrite length_alter.
  - apply Forall_forall. intros r Hr.
    apply list_elem_of_lookup in Hr. destruct Hr as [k Hk].
    rewrite Forall_forall in Hy.
    destruct (decide (i = k)) as [<-|Hne].
    + rewrite list_lookup_alter_eq in Hk.
      destruct (rows a !! i) as [r0|] eqn:H0; cbn in Hk; [|discriminate].
      injection Hk as <-. rewrite length_insert. apply Hy.
      apply list_elem_of_lookup. eauto.
    + rewrite list_lookup_alter_ne in Hk by exact Hne. apply Hy.
      apply list_elem_of_lookup. eauto.
Qed.

Lemma a2_resize_fill_wf nx ny x : a2_wf (a2_resize_fill nx ny x).
Proof.
  split; cbn.
  - apply length_replicate.
  - apply Forall_forall. intros r Hr.
    apply elem_of_replicate in Hr. destruct Hr as [-> _].
    apply length_replicate.
Qed.

Lemma a2_get_fill_zero nx ny i j : a2_get (a2_resize_fill nx ny 0) i j = 0%Z.
Proof.
  unfold a2_get, a2_resize_fill; cbn [rows].
  destruct (replicate nx (replicate ny 0%Z) !! i) as [r|] eqn:Hr; cbn; [|reflexivity].
  apply lookup_replicate in Hr. destruct Hr as [-> _].
  destruct (replicate ny 0%Z !! j) as [z|] eqn:Hz; cbn; [|reflexivity].
  apply lookup_replicate in Hz. now destruct Hz.
Qed.

(** The search loop finds an entry exactly when the column has one. *)
Lemma foundVisible_true (a : Array2D) j :
  foundVisible a j = true <-> exists i, i < sizeX a /\ a2_get a i j = 1%Z.
Proof.
  unfold foundVisible. rewrite existsb_exists. split.
  - intros (i & Hi%in_seq & He%Z.eqb_eq). exists i. split; [lia | exact He].
  - intros (i & Hi & He). exists i. split; [apply in_seq; lia | now apply Z.eqb_eq].
Qed.

Lemma foundVisible_false (a : Array2D) j :
  foundVisible a j = false <-> forall i, i < sizeX a -> a2_get a i j <> 1%Z.
Proof.
  rewrite <- not_true_iff_false, foundVisible_true. split.
  - intros Hn i Hi He. apply Hn. eauto.
  - intros Hall (i & Hi & He). exact (Hall i Hi He).
Qed.

(** * The non-visible detector *)

Section DetectorFacts.
Context `{Scalar}.

Lemma detectNonVisibleFaces_spec (visibility : Array2D) faceId :
  In faceId (detectNonVisibleFaces visibility)
  <-> faceId < sizeY visibility
      /\ forall i, i < sizeX visibility -> a2_get visibility i faceId <> 1%Z.
Proof.
  unfold detectNonVisibleFaces. rewrite filter_In, in_seq, negb_true_iff, foundVisible_false.
  split; intros [H1 H2]; split; auto; lia.
Qed.

Variable stdsort : (nat -> nat -> bool) -> list nat -> list nat.
Variable Matrix3 : Type.
Variable rotationMatrix : Point3 -> scalar -> Matrix3.
Variable meshRotate : Mesh -> Matrix3 -> Mesh.
Variable vecRotate : Point3 -> Matrix3 -> Point3.
Variable getIntersectedEigenFaces : Mesh -> Point3 -> Point3 -> list Z.
Variable sortTriangle2DPointsAndReorderCounterClockwise : Triangle2 -> Triangle2.
Variable Tree2 : Type.
Variable treeCreate :
  (Triangle2 -> AABBValueType -> Z -> outcome scalar) -> (Triangle2 -> Triangle2 -> bool) -> Tree2.
Variable treeInsert : Tree2 -> Triangle2 -> Tree2.
Variable aabbOverlapCheck : Tree2 -> Triangle2 -> bool.
Variable renderVisibility : Mesh -> nat -> Point3 -> list bool.

(** C2.  When [getVisibility] returns, the visibility array of the data is
    the array the analyser produced, untouched by the detector; every face
    whose entries are all zero in it is in the list of non-visible faces,
    and its entries are still all zero. *)
Theorem zero_rows_are_recorded_and_left_zero
  noGL (mesh : Mesh) nDirections resolution angle includeXDirections (data : Data)
  checkMode data' :
  getVisibility stdsort Matrix3 rotationMatrix meshRotate vecRotate
    getIntersectedEigenFaces sortTriangle2DPointsAndReorderCounterClockwise Tree2
    treeCreate treeInsert aabbOverlapCheck renderVisibility
    noGL mesh nDirections resolution angle includeXDirections data checkMode = Ok data' ->
  exists directions angles analysed,
    computeVisibilityByMode stdsort Matrix3 rotationMatrix meshRotate vecRotate
      getIntersectedEigenFaces sortTriangle2DPointsAndReorderCounterClockwise Tree2
      treeCreate treeInsert aabbOverlapCheck renderVisibility
      noGL mesh nDirections resolution angle includeXDirections data checkMode
    = Ok (directions, angles, analysed)
    /\ visibility data' = analysed
    /\ forall faceId,
        faceId < sizeY analysed ->
        (forall d, d < sizeX analysed -> a2_get analysed d faceId = 0%Z) ->
        In faceId (nonVisibleFaces data')
        /\ forall d, d < sizeX (visibility data') -> a2_get (visibility data') d faceId = 0%Z.
Proof.
  unfold getVisibility. intros Hg.
  destruct (computeVisibilityByMode _ _ _ _ _ _ _ _ _ _ _ _ _ _ _ _ _ _ _ _)
    as [[[directions angles] analysed]| | |]; cbn in Hg; try discriminate.
  injection Hg as <-. exists directions, angles, analysed. cbn.
  split; [reflexivity|]. split; [reflexivity|].
  intros faceId Hf Hzero. split; [|exact Hzero].
  apply detectNonVisibleFaces_spec. split; [exact Hf|].
  intros i Hi. rewrite (Hzero i Hi). discriminate.
Qed.

End DetectorFacts.

(** On the stacked faces, analysed without the x directions, face 1 is seen
    from no direction. *)
Lemma zero_rows_are_recorded_and_left_zero_witness :
  analyse stacked 2 false emptyData (3 # 4) PROJECTION = Ok stackedAnalysed
  /\ rows (visibility stackedAnalysed)
     = [[1; 0; 0]; [0; 0; 1]; [0; 0; 0]; [0; 0; 0]]%Z
  /\ nonVisibleFaces stackedAnalysed = [1]
  /\ exists directions angles analysed,
      computeVisibilityByMode insertionSort (Point3 -> Point3) exactRotation rotateMesh
        rotateVector verticalHits keepTriangle (list Triangle2) listTreeCreate listTreeInsert
        listTreeOverlap (fun _ _ _ => []) true stacked 2 0 (3 # 4) false emptyData PROJECTION
      = Ok (directions, angles, analysed)
      /\ visibility stackedAnalysed = analysed
      /\ forall faceId,
          faceId < sizeY analysed ->
          (forall d, d < sizeX analysed -> a2_get analysed d faceId = 0%Z) ->
          In faceId (nonVisibleFaces stackedAnalysed)
          /\ forall d, d < sizeX (visibility stackedAnalysed) ->
                       a2_get (visibility stackedAnalysed) d faceId = 0%Z.
Proof.
  assert (H1 : analyse stacked 2 false emptyData (3 # 4) PROJECTION = Ok stackedAnalysed)
    by evaluate.
  split; [exact H1|]. split; [evaluate|]. split; [evaluate|].
  exact (zero_rows_are_recorded_and_left_zero insertionSort (Point3 -> Point3) exactRotation
           rotateMesh rotateVector verticalHits keepTriangle (list Triangle2) listTreeCreate
           listTreeInsert listTreeOverlap (fun _ _ _ => []) true stacked 2 0 (3 # 4) false
           emptyData PROJECTION stackedAnalysed H1).
Defined.

(** * The first visibility check of fouraxis.cpp *)

Section ForcedDirection.
Context `{Scalar}.

Lemma forceStep_shape a j :
  a2_wf a -> a2_wf (forceStep a j) /\ sizeX (forceStep a j) = sizeX a
             /\ sizeY (forceStep a j) = sizeY a.
Proof.
  intros Hw. unfold forceStep. destruct (foundVisible a j); [auto|].
  split; [now apply a2_set_wf | split; reflexivity].
Qed.

Lemma forceStep_other a j i j' : j' <> j -> a2_get (forceStep a j) i j' = a2_get a i j'.
Proof.
  intros Hne. unfold forceStep. destruct (foundVisible a j); [reflexivity|].
  apply a2_get_set_other. now right.
Qed.

Lemma forceStep_covers a j :
  a2_wf a -> 0 < sizeX a -> j < sizeY a ->
  exists i, i < sizeX a /\ a2_get (forceStep a j) i j = 1%Z.
Proof.
  intros Hw Hx Hj. unfold forceStep. destruct (foundVisible a j) eqn:Hf.
  - now apply foundVisible_true.
  - exists (sizeX a - 1). split; [lia|]. apply a2_get_set_same; auto; lia.
Qed.

Lemma forceLoop_shape l : forall a,
  a2_wf a ->
  a2_wf (fold_left forceStep l a)
  /\ sizeX (fold_left forceStep l a) = sizeX a
  /\ sizeY (fold_left forceStep l a) = sizeY a.
Proof.
  induction l as [|j l IH]; intros a Hw; cbn; [auto|].
  destruct (forceStep_shape a j Hw) as (Hw' & Hx & Hy).
  destruct (IH _ Hw') as (? & ? & ?). split; [assumption | split; congruence].
Qed.

Lemma forceLoop_other l : forall a i j,
  ~ In j l -> a2_get (fold_left forceStep l a) i j = a2_get a i j.
Proof.
  induction l as [|j0 l IH]; intros a i j Hn; cbn; [reflexivity|].
  rewrite IH by (intros Hin; apply Hn; now right).
  apply forceStep_other. intros ->. apply Hn. now left.
Qed.

Lemma forceLoop_covers l : forall a j,
  NoDup l -> a2_wf a -> 0 < sizeX a -> In j l -> j < sizeY a ->
  exists i, i < sizeX a /\ a2_get (fold_left forceStep l a) i j = 1%Z.
Proof.
  induction l as [|j0 l IH]; intros a j Hnd Hw Hx Hin Hj; [destruct Hin|].
  apply NoDup_cons in Hnd. destruct Hnd as [Hnotin Hnd].
  destruct (forceStep_shape a j0 Hw) as (Hw' & Hsx & Hsy).
  cbn [fold_left].
  destruct (decide (j = j0)) as [->|Hne].
  - destruct (forceStep_covers a j0 Hw Hx Hj) as (i & Hi & He).
    exists i. split; [exact Hi|].
    rewrite forceLoop_other; [exact He|].
    intros Hin'. apply Hnotin. now apply list_elem_of_In.
  - destruct Hin as [Heq|Hin]; [now elim Hne|].
    destruct (IH (forceStep a j0) j Hnd Hw') as (i & Hi & He); try congruence; try lia.
    exists i. split; [lia | exact He].
Qed.

(** The first visibility check ends by giving every face an entry: a face
    seen from no plane is marked as seen from the last row. *)
Lemma forceLastDirection_covers (visibility : Array2D) j :
  a2_wf visibility -> 0 < sizeX visibility -> j < sizeY visibility ->
  exists i, i < sizeX visibility /\ a2_get (forceLastDirection visibility) i j = 1%Z.
Proof.
  intros Hw Hx Hj. unfold forceLastDirection.
  apply forceLoop_covers; auto.
  - apply NoDup_ListNoDup, seq_NoDup.
  - apply in_seq. lia.
Qed.

Lemma fold_left_invariant {A B : Type} (f : A -> B -> A) (Inv : A -> Prop) :
  (forall a b, Inv a -> Inv (f a b)) -> forall l a, Inv a -> Inv (fold_left f l a).
Proof. intros Hstep. induction l as [|b l IH]; intros a Ha; cbn; auto. Qed.

Lemma a2_set_shapedAs nx ny a i j x : shapedAs nx ny a -> shapedAs nx ny (a2_set a i j x).
Proof. intros (Hw & Hx & Hy). split; [now apply a2_set_wf | split; assumption]. Qed.

Variable getIntersectEigenFaces : Mesh -> Point3 -> Point3 -> list nat.
Variable Matrix3 : Type.
Variable getRotationMatrix : Point3 -> scalar -> Matrix3.
Variable meshRotate : Mesh -> Matrix3 -> Mesh.

Lemma checkPlane_shapedAs nx ny visibility (mesh : Mesh) indexPlane numberPlanes :
  shapedAs nx ny visibility ->
  shapedAs nx ny (checkPlane getIntersectEigenFaces visibility mesh indexPlane numberPlanes).
Proof.
  intros Hs. unfold checkPlane. apply fold_left_invariant; [|exact Hs].
  intros a i Ha. destruct (0 <? length _); [|exact Ha].
  now repeat apply a2_set_shapedAs.
Qed.

(** Whatever the planes see, [checkVisibilityAllPlanes] leaves no face
    without an entry: this is the forcing that the analyser of
    faf_visibilitycheck.cpp does not do. *)
Lemma checkVisibilityAllPlanes_covers (mesh : Mesh) numberPlanes j :
  j < numberFaces mesh ->
  exists i,
    i < numberPlanes * 2 + 1
    /\ a2_get (checkVisibilityAllPlanes getIntersectEigenFaces Matrix3 getRotationMatrix
                 meshRotate mesh numberPlanes) i j = 1%Z.
Proof.
  intros Hj. unfold checkVisibilityAllPlanes.
  set (rotation := getRotationMatrix _ _).
  destruct (fold_left _ (seq 0 numberPlanes) _) as [visibility meshEigen] eqn:Hloop.
  assert (Hs : shapedAs (numberPlanes * 2 + 1) (numberFaces mesh) visibility).
  { change visibility with (fst (visibility, meshEigen)). rewrite <- Hloop.
    apply (fold_left_invariant _
             (fun st => shapedAs (numberPlanes * 2 + 1) (numberFaces mesh) (fst st))).
    - intros [v m] i Hv. cbn [fst] in *. now apply checkPlane_shapedAs.
    - split; [apply a2_resize_fill_wf | split; reflexivity]. }
  destruct Hs as (Hw & Hx & Hy).
  destruct (forceLastDirection_covers visibility j Hw) as (i & Hi & He); [lia | lia |].
  exists i. split; [lia | exact He].
Qed.

End ForcedDirection.

(** * The set-cover minimisation *)

Section Minimization.

(** Without the solver every direction survives. *)
Lemma minimizeNumberPlanes_without_solver gurobi (visibility : Array2D) :
  minimizeNumberPlanes false gurobi visibility = seq 0 (sizeX visibility).
Proof. reflexivity. Qed.

(** With the solver, an exception thrown before the read-back leaves the
    list of surviving planes empty. *)
Lemma minimizeNumberPlanes_exception (visibility : Array2D) :
  minimizeNumberPlanes true (fun _ => GurobiThrows) visibility = [].
Proof. reflexivity. Qed.

(** An exception while the solution is read back keeps the planes pushed
    until then. *)
Lemma readSolution_prefix x : forall orientations survived,
  exists pushed, readSolution x orientations survived = survived ++ pushed
                 /\ forall i, In i pushed -> In i orientations /\ x i = Some true.
Proof.
  induction orientations as [|i rest IH]; intros survived; cbn.
  - exists []. split; [now rewrite app_nil_r | intros i []].
  - destruct (x i) as [b|] eqn:Hx.
    + destruct b.
      * destruct (IH (survived ++ [i])) as (pushed & -> & Hp).
        exists (i :: pushed). split; [now rewrite <- app_assoc|].
        intros k [<-|Hk]; [auto|]. destruct (Hp k Hk). auto.
      * destruct (IH survived) as (pushed & -> & Hp).
        exists pushed. split; [reflexivity|].
        intros k Hk. destruct (Hp k Hk). auto.
    + exists []. split; [now rewrite app_nil_r | intros k []].
Qed.

End Minimization.

(** C4 (the code departs from the claim).  For a visibility array with
    three directions in which every direction sees both faces, a solver that
    throws leaves no surviving direction, whereas the trivial solution has
    the three of them. *)
Theorem solver_exception_leaves_no_direction :
  minimizeNumberPlanes true (fun _ => GurobiThrows) (a2_resize_fill 3 2 1) = []
  /\ minimizeNumberPlanes false (fun _ => GurobiThrows) (a2_resize_fill 3 2 1) = [0; 1; 2].
Proof. split; reflexivity. Qed.

(** * The count returned by the recheck *)

Section RecheckCount.

Lemma to_uint_small z : (0 <= z < UINT_MODULUS)%Z -> to_uint z = z.
Proof. intros Hz. unfold to_uint. now apply Z.mod_small. Qed.

Lemma newlyNonVisibleCount_range restored nonVisible :
  (0 <= newlyNonVisibleCount restored nonVisible < UINT_MODULUS)%Z.
Proof. unfold newlyNonVisibleCount, to_uint. apply Z.mod_pos_bound. reflexivity. Qed.

(** When no fewer faces are non-visible after the restoration than before,
    the count is the difference of the two numbers. *)
Lemma newlyNonVisibleCount_difference restored nonVisible :
  length nonVisible <= length restored ->
  (Z.of_nat (length restored) < UINT_MODULUS)%Z ->
  newlyNonVisibleCount restored nonVisible
  = Z.of_nat (length restored - length nonVisible).
Proof.
  intros Hle Hb. unfold newlyNonVisibleCount.
  rewrite (to_uint_small (Z.of_nat (length restored))) by lia.
  unfold to_size_t. rewrite Z.mod_small by (unfold SIZE_MODULUS, UINT_MODULUS in *; lia).
  rewrite to_uint_small by lia. lia.
Qed.

(** When fewer faces are non-visible after the restoration than before, the
    subtraction wraps around. *)
Lemma newlyNonVisibleCount_wraps restored nonVisible :
  length restored < length nonVisible ->
  (Z.of_nat (length nonVisible) < UINT_MODULUS)%Z ->
  newlyNonVisibleCount restored nonVisible
  = (UINT_MODULUS - Z.of_nat (length nonVisible - length restored))%Z.
Proof.
  intros Hlt Hb. unfold newlyNonVisibleCount.
  rewrite (to_uint_small (Z.of_nat (length restored))) by lia.
  set (d := Z.of_nat (length nonVisible - length restored)).
  assert (Hd : (0 < d < UINT_MODULUS)%Z) by (unfold d; lia).
  replace (Z.of_nat (length restored) - Z.of_nat (length nonVisible))%Z with (- d)%Z
    by (unfold d; lia).
  unfold to_size_t, to_uint, SIZE_MODULUS, UINT_MODULUS in *.
  replace (- d)%Z with ((2 ^ 64 - d) + (-1) * 2 ^ 64)%Z by lia.
  rewrite Z.mod_add by lia. rewrite (Z.mod_small (2 ^ 64 - d)) by lia.
  replace (2 ^ 64 - d)%Z with ((2 ^ 32 - d) + (2 ^ 32 - 1) * 2 ^ 32)%Z by lia.
  rewrite Z.mod_add by lia. apply Z.mod_small. lia.
Qed.

(** The faces listed by the recheck are faces of the association. *)
Lemma facesNotVisibleFromAssociation_length newVisibility assoc :
  length (facesNotVisibleFromAssociation newVisibility assoc) <= length assoc.
Proof.
  unfold facesNotVisibleFromAssociation.
  etransitivity; [apply List.filter_length_le|]. now rewrite length_seq.
Qed.

Section RecheckBound.
Context `{Scalar}.
Variable getVisibility : Mesh -> Z -> bool -> Data -> scalar -> CheckMode -> outcome Data.

(** Without the wrap-around the count is within the bound: when the recheck
    lists at least as many faces as were non-visible before, the value
    returned is the difference of the two numbers, between [0] and the
    number of faces of the association. *)
Lemma recheck_count_bounded_without_underflow (data : Data) angle checkMode data' count :
  (Z.of_nat (length (restoredMeshAssociation data)) < UINT_MODULUS)%Z ->
  checkVisibilityAfterFrequenciesAreRestored getVisibility data angle checkMode
  = Ok (data', count) ->
  length (nonVisibleFaces data) <= length (restoredMeshNonVisibleFaces data') ->
  (0 <= count <= Z.of_nat (length (restoredMeshAssociation data)))%Z.
Proof.
  intros Hb. unfold checkVisibilityAfterFrequenciesAreRestored.
  destruct (getVisibility _ _ _ _ _ _) as [newData| | |];
    cbn [mbind mret outcome_bind outcome_ret obind]; try discriminate.
  intros Hr. injection Hr as <- <-. cbn [restoredMeshNonVisibleFaces nonVisibleFaces].
  intros Hle.
  pose proof (facesNotVisibleFromAssociation_length (visibility newData)
                (restoredMeshAssociation data)) as Hlen.
  rewrite newlyNonVisibleCount_difference by lia. lia.
Qed.

(** The two lists that the returned expression subtracts. *)
Lemma recheck_Ok (data : Data) angle checkMode data' count :
  checkVisibilityAfterFrequenciesAreRestored getVisibility data angle checkMode
  = Ok (data', count) ->
  exists newData,
    getVisibility (restoredMesh data)
      (to_int (to_size_t (Z.of_nat (length (directions data)) - 2) / 2)) true
      (newDataWithExtremes data) angle checkMode = Ok newData
    /\ restoredMeshNonVisibleFaces data'
       = facesNotVisibleFromAssociation (visibility newData) (restoredMeshAssociation data)
    /\ count = newlyNonVisibleCount (restoredMeshNonVisibleFaces data') (nonVisibleFaces data).
Proof.
  unfold checkVisibilityAfterFrequenciesAreRestored.
  destruct (getVisibility _ _ _ _ _ _) as [newData| | |];
    cbn [mbind mret outcome_bind outcome_ret obind]; try discriminate.
  intros Hr. injection Hr as <- <-. exists newData. cbn. auto.
Qed.

(** C5 (the code departs from the claim).  The call of [getVisibility] made
    by the recheck is a parameter: whatever it answers, when the recheck
    lists fewer faces than were non-visible before, the value returned is
    [2^32] minus the number of faces it misses, which is above the number of
    faces of the mesh; and for data with a non-visible face and an empty
    restored association this is the case for every answer. *)
Theorem recheck_count_wraps_below_zero (data : Data) angle checkMode data' count :
  checkVisibilityAfterFrequenciesAreRestored getVisibility data angle checkMode
  = Ok (data', count) ->
  (Z.of_nat (numberFaces (restoredMesh data)) + Z.of_nat (length (nonVisibleFaces data))
   < UINT_MODULUS)%Z ->
  (length (restoredMeshNonVisibleFaces data') < length (nonVisibleFaces data) ->
   count = (UINT_MODULUS
            - Z.of_nat (length (nonVisibleFaces data)
                        - length (restoredMeshNonVisibleFaces data')))%Z
   /\ (Z.of_nat (numberFaces (restoredMesh data)) < count)%Z)
  /\ (restoredMeshAssociation data = [] -> nonVisibleFaces data <> [] ->
      restoredMeshNonVisibleFaces data' = []
      /\ count = (UINT_MODULUS - Z.of_nat (length (nonVisibleFaces data)))%Z
      /\ (Z.of_nat (numberFaces (restoredMesh data)) < count)%Z).
Proof.
  intros Hr Hb. destruct (recheck_Ok _ _ _ _ _ Hr) as (newData & _ & Hlist & ->).
  assert (Hwrap : length (restoredMeshNonVisibleFaces data') < length (nonVisibleFaces data) ->
                  newlyNonVisibleCount (restoredMeshNonVisibleFaces data') (nonVisibleFaces data)
                  = (UINT_MODULUS
                     - Z.of_nat (length (nonVisibleFaces data)
                                 - length (restoredMeshNonVisibleFaces data')))%Z
                  /\ (Z.of_nat (numberFaces (restoredMesh data))
                      < newlyNonVisibleCount (restoredMeshNonVisibleFaces data')
                          (nonVisibleFaces data))%Z).
  { intros Hlt. rewrite newlyNonVisibleCount_wraps by lia. split; [reflexivity | lia]. }
  split; [exact Hwrap|].
  intros Hassoc Hne. rewrite Hlist, Hassoc in *. cbn [facesNotVisibleFromAssociation] in *.
  change (facesNotVisibleFromAssociation (visibility newData) []) with (@nil nat) in *.
  split; [reflexivity|].
  destruct (nonVisibleFaces data) as [|f fs] eqn:Hnv; [now elim Hne|].
  destruct Hwrap as [Hc Hf]; [cbn; lia|].
  rewrite Hc. cbn [length] in *. split; [|rewrite <- Hc; exact Hf].
  replace (S (length fs) - 0) with (S (length fs)) by lia. reflexivity.
Qed.

End RecheckBound.

End RecheckCount.

(** The stacked faces before the restoration: face 1 is non-visible and the
    restored association is empty, so the recheck returns [2^32 - 1]
    whatever the call of [getVisibility] answers. *)
Lemma recheck_count_wraps_below_zero_witness :
  checkVisibilityAfterFrequenciesAreRestored (answering (visibility stackedAnalysed))
    stackedUnrestored (3 # 4) PROJECTION = Ok (stackedUnrestoredRechecked, 4294967295%Z)
  /\ (Z.of_nat (numberFaces (restoredMesh stackedUnrestored))
       + Z.of_nat (length (nonVisibleFaces stackedUnrestored)) < UINT_MODULUS)%Z
  /\ restoredMeshAssociation stackedUnrestored = []
  /\ nonVisibleFaces stackedUnrestored = [1]
  /\ restoredMeshNonVisibleFaces stackedUnrestoredRechecked = []
  /\ 4294967295%Z
     = (UINT_MODULUS - Z.of_nat (length (nonVisibleFaces stackedUnrestored)))%Z
  /\ (Z.of_nat (numberFaces (restoredMesh stackedUnrestored)) < 4294967295)%Z.
Proof.
  assert (E : checkVisibilityAfterFrequenciesAreRestored
                (answering (visibility stackedAnalysed)) stackedUnrestored (3 # 4)
                PROJECTION = Ok (stackedUnrestoredRechecked, 4294967295%Z)) by evaluate.
  assert (Hb : (Z.of_nat (numberFaces (restoredMesh stackedUnrestored))
                + Z.of_nat (length (nonVisibleFaces stackedUnrestored)) < UINT_MODULUS)%Z)
    by (vm_compute; reflexivity).
  assert (Ha : restoredMeshAssociation stackedUnrestored = []) by evaluate.
  assert (Hn : nonVisibleFaces stackedUnrestored = [1]) by evaluate.
  assert (Hne : nonVisibleFaces stackedUnrestored <> []) by (rewrite Hn; discriminate).
  split; [exact E|]. split; [exact Hb|]. split; [exact Ha|]. split; [exact Hn|].
  exact (proj2 (recheck_count_wraps_below_zero (answering (visibility stackedAnalysed))
                  stackedUnrestored (3 # 4)%Q PROJECTION stackedUnrestoredRechecked
                  4294967295%Z E Hb) Ha Hne).
Defined.

(** * The extreme-face selector *)

Section ExtremesFacts.
Context `{Scalar}.

Lemma UINT_MODULUS_pos : (0 < UINT_MODULUS)%Z.
Proof. reflexivity. Qed.

Lemma lookupZ_nat {A} (l : list A) (i : nat) : lookupZ l (Z.of_nat i) = l !! i.
Proof.
  unfold lookupZ.
  destruct (Z.leb_spec 0 (Z.of_nat i)); [|lia].
  destruct (Z.ltb_spec (Z.of_nat i) (Z.of_nat (length l))); cbn.
  - now rewrite Nat2Z.id.
  - symmetry. apply lookup_ge_None. lia.
Qed.

Lemma lookupZ_beyond {A} (l : list A) (i : Z) :
  (Z.of_nat (length l) <= i)%Z -> lookupZ l i = None.
Proof.
  intros Hi. unfold lookupZ.
  destruct (Z.ltb_spec i (Z.of_nat (length l))); [lia|]. now rewrite andb_false_r.
Qed.

Lemma passingPrefix_passes test l f : In f (passingPrefix test l) -> test f = true.
Proof.
  induction l as [|g l IH]; cbn; [intros []|].
  destruct (test g) eqn:Hg; [|intros []].
  intros [<-|Hin]; auto.
Qed.

Lemma passingPrefix_prefix test l : exists rest, l = passingPrefix test l ++ rest.
Proof.
  induction l as [|g l [rest IH]]; cbn; [now exists []|].
  destruct (test g).
  - exists rest. cbn. now rewrite <- IH.
  - now exists (g :: l).
Qed.

(** The face at which a walk stops, when it stops, fails the test. *)
Lemma passingPrefix_stops test l :
  forallb test l = false ->
  exists f rest, l = passingPrefix test l ++ f :: rest /\ test f = false.
Proof.
  induction l as [|g l IH]; cbn; [discriminate|].
  destruct (test g) eqn:Hg; cbn.
  - intros Hl. destruct (IH Hl) as (f & rest & Hd & Hf).
    exists f, rest. split; [now rewrite <- Hd | exact Hf].
  - intros _. exists g, l. auto.
Qed.

(** The walk from the front, started at index [i]. *)
Lemma extremeWalk_forward (m : Mesh) axis fIndices :
  (Z.of_nat (length fIndices) < UINT_MODULUS)%Z ->
  forall fuel i extreme,
    i <= length fIndices ->
    length fIndices - i < fuel ->
    extremeWalk fuel m axis 1 fIndices (Z.of_nat i) extreme
    = if forallb (extremeTest m axis) (drop i fIndices)
      then OutOfRange (Z.of_nat (length fIndices))
      else Ok (extreme ++ passingPrefix (extremeTest m axis) (drop i fIndices)).
Proof.
  intros Hn. induction fuel as [|fuel IH]; intros i extreme Hi Hf; [lia|].
  cbn [extremeWalk]. rewrite lookupZ_nat.
  destruct (fIndices !! i) as [f|] eqn:Hl.
  - rewrite (drop_S _ _ _ Hl). cbn [forallb passingPrefix].
    pose proof (lookup_lt_Some _ _ _ Hl) as Hlt.
    destruct (extremeTest m axis f); cbn [andb].
    + replace (to_uint (Z.of_nat i + 1)) with (Z.of_nat (S i))
        by (unfold to_uint; rewrite Z.mod_small; lia).
      rewrite IH by lia.
      destruct (forallb _ _); [reflexivity|]. now rewrite <- app_assoc.
    + now rewrite app_nil_r.
  - apply lookup_ge_None in Hl.
    assert (i = length fIndices) as -> by lia.
    now rewrite drop_all.
Qed.

(** The walk from the back, started at index [i]: it meets the faces
    [fIndices[i], ..., fIndices[0]] and then wraps around. *)
Lemma extremeWalk_backward (m : Mesh) axis fIndices :
  (Z.of_nat (length fIndices) < UINT_MODULUS)%Z ->
  forall i fuel extreme,
    i < length fIndices ->
    S i < fuel ->
    extremeWalk fuel m axis (-1) fIndices (Z.of_nat i) extreme
    = if forallb (extremeTest m axis) (rev (take (S i) fIndices))
      then OutOfRange (UINT_MODULUS - 1)
      else Ok (extreme ++ passingPrefix (extremeTest m axis) (rev (take (S i) fIndices))).
Proof.
  intros Hn. induction i as [|i IH]; intros fuel extreme Hi Hf;
    (destruct fuel as [|fuel]; [lia|]); cbn [extremeWalk]; rewrite lookupZ_nat;
    destruct (lookup_lt_is_Some_2 fIndices _ Hi) as [f Hl]; rewrite Hl;
    rewrite (take_S_r _ _ _ Hl), rev_app_distr; cbn [rev app forallb passingPrefix];
    destruct (extremeTest m axis f); cbn [andb]; try (now rewrite app_nil_r).
  - (* the counter wraps around below zero *)
    replace (to_uint (Z.of_nat 0 + -1)) with (UINT_MODULUS - 1)%Z by reflexivity.
    destruct fuel as [|fuel]; [lia|]. cbn [extremeWalk].
    rewrite lookupZ_beyond by lia. reflexivity.
  - replace (to_uint (Z.of_nat (S i) + -1)) with (Z.of_nat i)
      by (unfold to_uint; rewrite Z.mod_small; lia).
    rewrite IH by lia.
    destruct (forallb _ _); [reflexivity|]. now rewrite <- app_assoc.
Qed.

Variable stdsort : (nat -> nat -> bool) -> list nat -> list nat.

(** What [cutExtremes] computes, in terms of the sorted faces. *)
Lemma cutExtremes_spec fuel (m : Mesh) :
  let fIndices := sortedFaceIndices stdsort m in
  (Z.of_nat (length fIndices) < UINT_MODULUS)%Z ->
  length fIndices < fuel ->
  cutExtremes stdsort fuel m
  = if forallb (extremeTest m minusX) fIndices
    then OutOfRange (Z.of_nat (length fIndices))
    else if forallb (extremeTest m plusX) (rev fIndices)
         then OutOfRange (UINT_MODULUS - 1)
         else Ok (passingPrefix (extremeTest m minusX) fIndices,
                  passingPrefix (extremeTest m plusX) (rev fIndices)).
Proof.
  intros fIndices Hn Hf. unfold cutExtremes. fold fIndices.
  change 0%Z with (Z.of_nat 0).
  rewrite (extremeWalk_forward m minusX fIndices Hn fuel 0 []) by lia.
  rewrite drop_0.
  destruct (forallb (extremeTest m minusX) fIndices) eqn:Hmin; [reflexivity|].
  cbn [mbind outcome_bind obind app].
  assert (Hpos : 0 < length fIndices).
  { destruct fIndices; [discriminate | cbn; lia]. }
  assert (HU : UINT_MODULUS = 4294967296%Z) by reflexivity.
  assert (HS : SIZE_MODULUS = 18446744073709551616%Z) by reflexivity.
  replace (to_uint (to_size_t (Z.of_nat (length fIndices) - 1)))
    with (Z.of_nat (length fIndices - 1)).
  2:{ unfold to_uint, to_size_t.
      rewrite (Z.mod_small _ SIZE_MODULUS) by lia.
      rewrite Z.mod_small by lia. lia. }
  rewrite (extremeWalk_backward m plusX fIndices Hn (length fIndices - 1) fuel []) by lia.
  replace (S (length fIndices - 1)) with (length fIndices) by lia.
  rewrite take_ge by lia.
  destruct (forallb (extremeTest m plusX) (rev fIndices)); reflexivity.
Qed.

Lemma forallb_false_of_failing (test : nat -> bool) l :
  (exists f, In f l /\ test f = false) -> forallb test l = false.
Proof.
  intros (f & Hin & Hf). apply not_true_iff_false. intros Hall.
  rewrite forallb_forall in Hall. rewrite (Hall f Hin) in Hf. discriminate.
Qed.

Lemma forallb_true_of_passing (test : nat -> bool) l :
  (forall f, In f l -> test f = true) -> forallb test l = true.
Proof. intros Hall. now apply forallb_forall. Qed.

Lemma exists_in_rev (test : nat -> bool) (l : list nat) :
  (exists f, In f l /\ test f = false) -> exists f, In f (rev l) /\ test f = false.
Proof. intros (f & Hin & Hf). exists f. split; [now apply in_rev in Hin | exact Hf]. Qed.

(** C9.  The two walks read [fIndices[i]] inside the vector exactly when a
    face fails each test: if the sorted faces contain a face failing the
    test against -x and a face failing the test against +x, [cutExtremes]
    returns and no read leaves the vector; if every face passes the test
    against -x, the first walk reads index [size], past the end; if every
    face passes the test against +x, the second walk decrements its
    unsigned counter below zero and reads index [2^32 - 1]. *)
Theorem cutExtremes_reads_in_bounds_iff_a_face_fails fuel (m : Mesh) :
  let fIndices := sortedFaceIndices stdsort m in
  (Z.of_nat (length fIndices) < UINT_MODULUS)%Z ->
  length fIndices < fuel ->
  ((exists f, In f fIndices /\ extremeTest m minusX f = false) ->
   (exists f, In f fIndices /\ extremeTest m plusX f = false) ->
   exists minExtreme maxExtreme, cutExtremes stdsort fuel m = Ok (minExtreme, maxExtreme))
  /\ ((forall f, In f fIndices -> extremeTest m minusX f = true) ->
      cutExtremes stdsort fuel m = OutOfRange (Z.of_nat (length fIndices)))
  /\ ((exists f, In f fIndices /\ extremeTest m minusX f = false) ->
      (forall f, In f fIndices -> extremeTest m plusX f = true) ->
      cutExtremes stdsort fuel m = OutOfRange (UINT_MODULUS - 1)).
Proof.
  intros fIndices Hn Hf.
  pose proof (cutExtremes_spec fuel m Hn Hf) as Hs. fold fIndices in Hs.
  repeat split.
  - intros Hmin Hmax. rewrite Hs.
    rewrite (forallb_false_of_failing _ _ Hmin).
    rewrite (forallb_false_of_failing _ _ (exists_in_rev _ _ Hmax)). eauto.
  - intros Hall. rewrite Hs. now rewrite (forallb_true_of_passing _ _ Hall).
  - intros Hmin Hall. rewrite Hs.
    rewrite (forallb_false_of_failing _ _ Hmin).
    rewrite forallb_true_of_passing; [reflexivity|].
    intros f Hin. apply Hall. now apply in_rev.
Qed.

(** C7 (as amended).  The comparator orders the faces by their centroids,
    lexicographically with x first; the min extremes are the longest prefix
    of the sorted faces, and the max extremes the longest prefix of the
    reversed sorted faces, whose normals have a dot product with -x
    (respectively +x) that is at least [-epsilon]; the face at which each
    walk stops has a dot product below [-epsilon]. *)
Theorem extremes_are_prefixes_passing_the_tolerance_test
  fuel (m : Mesh) minExtreme maxExtreme :
  let fIndices := sortedFaceIndices stdsort m in
  (Z.of_nat (length fIndices) < UINT_MODULUS)%Z ->
  length fIndices < fuel ->
  cutExtremes stdsort fuel m = Ok (minExtreme, maxExtreme) ->
  fIndices = stdsort (fun f1 f2 => pltb (barycenter m f1) (barycenter m f2))
               (seq 0 (numberFaces m))
  /\ (forall a b, sltb (px a) (px b) = true -> pltb a b = true)
  /\ (exists f rest, fIndices = minExtreme ++ f :: rest
                     /\ sleb (sopp sepsilon) (pdot (getFaceNormal m f) minusX) = false)
  /\ (exists f rest, rev fIndices = maxExtreme ++ f :: rest
                     /\ sleb (sopp sepsilon) (pdot (getFaceNormal m f) plusX) = false)
  /\ (forall f, In f minExtreme ->
                sleb (sopp sepsilon) (pdot (getFaceNormal m f) minusX) = true)
  /\ (forall f, In f maxExtreme ->
                sleb (sopp sepsilon) (pdot (getFaceNormal m f) plusX) = true).
Proof.
  intros fIndices Hn Hf Hc.
  pose proof (cutExtremes_spec fuel m Hn Hf) as Hs. fold fIndices in Hs.
  rewrite Hs in Hc.
  destruct (forallb (extremeTest m minusX) fIndices) eqn:Hmin; [discriminate|].
  destruct (forallb (extremeTest m plusX) (rev fIndices)) eqn:Hmax; [discriminate|].
  injection Hc as <- <-.
  split; [reflexivity|].
  split; [intros a b Hab; unfold pltb; now rewrite Hab|].
  split; [exact (passingPrefix_stops _ _ Hmin)|].
  split; [exact (passingPrefix_stops _ _ Hmax)|].
  split; intros f Hin; exact (passingPrefix_passes _ _ _ Hin).
Qed.

End ExtremesFacts.

(** On the prism every side face has a normal perpendicular to the x axis
    and is put in both extreme sets: face 5 is one of them, its normal
    [(0,-1,0)] has dot product [0] with the x axis. *)
Lemma side_faces_of_the_prism_are_extremes :
  cutExtremes insertionSort 9 prism = Ok ([0; 5; 6; 2; 4; 3; 7], [1; 7; 3; 4; 2; 6; 5])
  /\ In 5 [0; 5; 6; 2; 4; 3; 7]
  /\ In 5 [1; 7; 3; 4; 2; 6; 5]
  /\ (pdot (getFaceNormal prism 5) plusX == 0)%Q
  /\ ~ (pdot (getFaceNormal prism 5) plusX < 0)%Q
  /\ ~ (0 < pdot (getFaceNormal prism 5) plusX)%Q.
Proof.
  split; [evaluate|].
  split; [cbn; tauto|]. split; [cbn; tauto|].
  split; [reflexivity|]. split; intros Hlt; vm_compute in Hlt; discriminate.
Qed.

Lemma cutExtremes_reads_in_bounds_iff_a_face_fails_witness :
  (Z.of_nat (length (sortedFaceIndices insertionSort prism)) < UINT_MODULUS)%Z
  /\ length (sortedFaceIndices insertionSort prism) < 9
  /\ (exists f, In f (sortedFaceIndices insertionSort prism)
                /\ extremeTest prism minusX f = false)
  /\ (exists f, In f (sortedFaceIndices insertionSort prism)
                /\ extremeTest prism plusX f = false)
  /\ exists minExtreme maxExtreme,
      cutExtremes insertionSort 9 prism = Ok (minExtreme, maxExtreme).
Proof.
  assert (H1 : (Z.of_nat (length (sortedFaceIndices insertionSort prism)) < UINT_MODULUS)%Z)
    by (vm_compute; reflexivity).
  assert (H2 : length (sortedFaceIndices insertionSort prism) < 9) by (vm_compute; lia).
  assert (H3 : exists f, In f (sortedFaceIndices insertionSort prism)
                         /\ extremeTest prism minusX f = false).
  { exists 1. split; [vm_compute; tauto | evaluate]. }
  assert (H4 : exists f, In f (sortedFaceIndices insertionSort prism)
                         /\ extremeTest prism plusX f = false).
  { exists 0. split; [vm_compute; tauto | evaluate]. }
  split; [exact H1|]. split; [exact H2|]. split; [exact H3|]. split; [exact H4|].
  exact (proj1 (cutExtremes_reads_in_bounds_iff_a_face_fails insertionSort 9 prism H1 H2)
           H3 H4).
Defined.

Lemma extremes_are_prefixes_passing_the_tolerance_test_witness :
  (Z.of_nat (length (sortedFaceIndices insertionSort prism)) < UINT_MODULUS)%Z
  /\ length (sortedFaceIndices insertionSort prism) < 9
  /\ cutExtremes insertionSort 9 prism = Ok ([0; 5; 6; 2; 4; 3; 7], [1; 7; 3; 4; 2; 6; 5])
  /\ forall f, In f [0; 5; 6; 2; 4; 3; 7] ->
               sleb (sopp sepsilon) (pdot (getFaceNormal prism f) minusX) = true.
Proof.
  assert (H1 : (Z.of_nat (length (sortedFaceIndices insertionSort prism)) < UINT_MODULUS)%Z)
    by (vm_compute; reflexivity).
  assert (H2 : length (sortedFaceIndices insertionSort prism) < 9) by (vm_compute; lia).
  assert (H3 : cutExtremes insertionSort 9 prism
               = Ok ([0; 5; 6; 2; 4; 3; 7], [1; 7; 3; 4; 2; 6; 5])) by evaluate.
  split; [exact H1|]. split; [exact H2|]. split; [exact H3|].
  exact (proj1 (proj2 (proj2 (proj2 (proj2
           (extremes_are_prefixes_passing_the_tolerance_test insertionSort 9 prism
              [0; 5; 6; 2; 4; 3; 7] [1; 7; 3; 4; 2; 6; 5] H1 H2 H3)))))).
Defined.

(** On the stacked faces no normal points towards -x: the walk from the
    back accepts every face and then reads index [2^32 - 1]. *)
Lemma cutExtremes_on_the_stacked_faces_wraps_around :
  cutExtremes insertionSort 4 stacked = OutOfRange 4294967295.
Proof. evaluate. Qed.

(** * Ray shooting *)

Section RayFacts.
Context `{Scalar}.

Lemma scan_step_max (mesh : Mesh) limit opp (s : ZScan) g :
  let hit := sltb (maxZCoordinate s) (pz (barycenter mesh (Z.to_nat g)))
             && passesHeightfieldLimit mesh limit zDirMax g in
  maxZFace (scanIntersectedFace mesh limit opp s g) = (if hit then g else maxZFace s)
  /\ maxZCoordinate (scanIntersectedFace mesh limit opp s g)
     = (if hit then pz (barycenter mesh (Z.to_nat g)) else maxZCoordinate s).
Proof.
  unfold scanIntersectedFace, passesHeightfieldLimit. cbn zeta.
  destruct (sltb (maxZCoordinate s) _ && sleb limit (pdot zDirMax _));
    destruct (0 <=? opp)%Z; cbn;
    repeat match goal with |- context [if ?c then _ else _] => destruct c end;
    cbn; auto.
Qed.

Lemma scan_step_min (mesh : Mesh) limit opp (s : ZScan) g :
  let hit := (0 <=? opp)%Z
             && (sltb (pz (barycenter mesh (Z.to_nat g))) (minZCoordinate s)
                 && passesHeightfieldLimit mesh limit zDirMin g) in
  minZFace (scanIntersectedFace mesh limit opp s g) = (if hit then g else minZFace s)
  /\ minZCoordinate (scanIntersectedFace mesh limit opp s g)
     = (if hit then pz (barycenter mesh (Z.to_nat g)) else minZCoordinate s).
Proof.
  unfold scanIntersectedFace, passesHeightfieldLimit. cbn zeta.
  destruct (sltb (maxZCoordinate s) _ && sleb limit (pdot zDirMax _));
    destruct (0 <=? opp)%Z; cbn;
    repeat match goal with |- context [if ?c then _ else _] => destruct c end;
    cbn; auto.
Qed.

(** The scan from above: [maxZFace] stays [-1] exactly when no face of the
    ray passes the normal test, and is otherwise a face of the ray that
    passes it. *)
Lemma scan_max (mesh : Mesh) limit opp minZ hits :
  forall s,
    (forall g, In g hits ->
               (0 <= g)%Z /\ sltb minZ (pz (barycenter mesh (Z.to_nat g))) = true) ->
    (maxZFace s = (-1)%Z -> maxZCoordinate s = minZ) ->
    let s' := fold_left (scanIntersectedFace mesh limit opp) hits s in
    (maxZFace s' = (-1)%Z
     <-> maxZFace s = (-1)%Z
         /\ forall g, In g hits -> passesHeightfieldLimit mesh limit zDirMax g = false)
    /\ (maxZFace s' = (-1)%Z -> maxZCoordinate s' = minZ).
Proof.
  induction hits as [|g hits IH]; intros s Hh Hs; cbn [fold_left].
  - cbn. split; [|exact Hs]. split; [intros E; split; [exact E | intros g []] | tauto].
  - destruct (scan_step_max mesh limit opp s g) as [Hf Hc]. cbn zeta in Hf, Hc.
    destruct (Hh g (or_introl eq_refl)) as [Hg0 Hgz].
    specialize (IH (scanIntersectedFace mesh limit opp s g)
                  (fun g' Hin => Hh g' (or_intror Hin))).
    cbn zeta in IH.
    destruct (sltb (maxZCoordinate s) (pz (barycenter mesh (Z.to_nat g)))
              && passesHeightfieldLimit mesh limit zDirMax g) eqn:Hit.
    + (* the face becomes the highest one so far *)
      destruct IH as [IH1 IH2]; [rewrite Hf; lia|].
      split; [|exact IH2].
      rewrite IH1, Hf. split; [intros [E _]; lia|].
      intros [_ Hall]. apply andb_true_iff in Hit. destruct Hit as [_ Hp].
      rewrite (Hall g (or_introl eq_refl)) in Hp. discriminate.
    + destruct IH as [IH1 IH2]; [rewrite Hf, Hc; exact Hs|].
      split; [|exact IH2].
      rewrite IH1, Hf. split.
      * intros [E Hall]. split; [exact E|].
        intros g' [<-|Hin]; [|exact (Hall g' Hin)].
        rewrite (Hs E), Hgz in Hit. exact Hit.
      * intros [E Hall]. split; [exact E|]. intros g' Hin. apply Hall. now right.
Qed.

(** The scan from below. *)
Lemma scan_min (mesh : Mesh) limit opp maxZ hits :
  (0 <= opp)%Z ->
  forall s,
    (forall g, In g hits ->
               (0 <= g)%Z /\ sltb (pz (barycenter mesh (Z.to_nat g))) maxZ = true) ->
    (minZFace s = (-1)%Z -> minZCoordinate s = maxZ) ->
    let s' := fold_left (scanIntersectedFace mesh limit opp) hits s in
    (minZFace s' = (-1)%Z
     <-> minZFace s = (-1)%Z
         /\ forall g, In g hits -> passesHeightfieldLimit mesh limit zDirMin g = false)
    /\ (minZFace s' = (-1)%Z -> minZCoordinate s' = maxZ).
Proof.
  intros Hopp. apply Z.leb_le in Hopp.
  induction hits as [|g hits IH]; intros s Hh Hs; cbn [fold_left].
  - cbn. split; [|exact Hs]. split; [intros E; split; [exact E | intros g []] | tauto].
  - destruct (scan_step_min mesh limit opp s g) as [Hf Hc]. cbn zeta in Hf, Hc.
    rewrite Hopp in Hf, Hc. cbn [andb] in Hf, Hc.
    destruct (Hh g (or_introl eq_refl)) as [Hg0 Hgz].
    specialize (IH (scanIntersectedFace mesh limit opp s g)
                  (fun g' Hin => Hh g' (or_intror Hin))).
    cbn zeta in IH.
    destruct (sltb (pz (barycenter mesh (Z.to_nat g))) (minZCoordinate s)
              && passesHeightfieldLimit mesh limit zDirMin g) eqn:Hit.
    + destruct IH as [IH1 IH2]; [rewrite Hf; lia|].
      split; [|exact IH2].
      rewrite IH1, Hf. split; [intros [E _]; lia|].
      intros [_ Hall]. apply andb_true_iff in Hit. destruct Hit as [_ Hp].
      rewrite (Hall g (or_introl eq_refl)) in Hp. discriminate.
    + destruct IH as [IH1 IH2]; [rewrite Hf, Hc; exact Hs|].
      split; [|exact IH2].
      rewrite IH1, Hf. split.
      * intros [E Hall]. split; [exact E|].
        intros g' [<-|Hin]; [|exact (Hall g' Hin)].
        rewrite (Hs E), Hgz in Hit. exact Hit.
      * intros [E Hall]. split; [exact E|]. intros g' Hin. apply Hall. now right.
Qed.

(** Whatever the ray meets, the face kept by the scan, if any, is a face of
    the ray that passes the normal test. *)
Lemma scan_kept (mesh : Mesh) limit opp hits :
  forall s,
    (maxZFace s = (-1)%Z
     \/ (In (maxZFace s) hits /\ passesHeightfieldLimit mesh limit zDirMax (maxZFace s) = true)) ->
    (minZFace s = (-1)%Z
     \/ (In (minZFace s) hits /\ passesHeightfieldLimit mesh limit zDirMin (minZFace s) = true)) ->
    forall done,
      let s' := fold_left (scanIntersectedFace mesh limit opp) done s in
      (forall g, In g done -> In g hits) ->
      (maxZFace s' = (-1)%Z
       \/ (In (maxZFace s') hits
           /\ passesHeightfieldLimit mesh limit zDirMax (maxZFace s') = true))
      /\ (minZFace s' = (-1)%Z
          \/ (In (minZFace s') hits
              /\ passesHeightfieldLimit mesh limit zDirMin (minZFace s') = true)).
Proof.
  intros s Hmax Hmin done. revert s Hmax Hmin.
  induction done as [|g done IH]; intros s Hmax Hmin; cbn [fold_left]; [cbn; auto|].
  intros Hsub. apply IH.
  - destruct (scan_step_max mesh limit opp s g) as [Hf _]. cbn zeta in Hf. rewrite Hf.
    destruct (sltb _ _ && passesHeightfieldLimit mesh limit zDirMax g) eqn:Hit; [|exact Hmax].
    right. apply andb_true_iff in Hit. split; [apply Hsub; now left | tauto].
  - destruct (scan_step_min mesh limit opp s g) as [Hf _]. cbn zeta in Hf. rewrite Hf.
    destruct ((0 <=? opp)%Z && (sltb _ _ && passesHeightfieldLimit mesh limit zDirMin g))
      eqn:Hit; [|exact Hmin].
    right. apply andb_true_iff in Hit. destruct Hit as [_ Hit].
    apply andb_true_iff in Hit. split; [apply Hsub; now left | tauto].
  - intros g' Hin. apply Hsub. now right.
Qed.

End RayFacts.

Section RayTheorem.
Context `{Scalar}.
Variable getIntersectedEigenFaces : Mesh -> Point3 -> Point3 -> list Z.

Lemma exists_passing_not_all_failing (test : Z -> bool) (hits : list Z) :
  (exists g, In g hits /\ test g = true) -> ~ (forall g, In g hits -> test g = false).
Proof. intros (g & Hin & Hg) Hall. rewrite (Hall g Hin) in Hg. discriminate. Qed.

Lemma all_failing_or_exists_passing (test : Z -> bool) (hits : list Z) :
  (forall g, In g hits -> test g = false) \/ (exists g, In g hits /\ test g = true).
Proof.
  induction hits as [|g hits [IH|(g' & Hin & Hg')]].
  - left. intros g [].
  - destruct (test g) eqn:Hg.
    + right. exists g. split; [now left | exact Hg].
    + left. intros g' [<-|Hin]; auto.
  - right. exists g'. split; [now right | exact Hg'].
Qed.

(** The two writes of one target face. *)
Lemma rayShootFace_outcome (mesh : Mesh) directionIndex opp limit minZ maxZ visibility t :
  let hits := barIntersectionOf getIntersectedEigenFaces mesh minZ maxZ t in
  let s := scanRay getIntersectedEigenFaces mesh limit opp minZ maxZ t in
  (forall g, In g hits ->
     (0 <= g)%Z
     /\ sltb minZ (pz (barycenter mesh (Z.to_nat g))) = true
     /\ sltb (pz (barycenter mesh (Z.to_nat g))) maxZ = true) ->
  (maxZFace s = (-1)%Z
   <-> forall g, In g hits -> passesHeightfieldLimit mesh limit zDirMax g = false)
  /\ ((0 <= opp)%Z ->
      (minZFace s = (-1)%Z
       <-> forall g, In g hits -> passesHeightfieldLimit mesh limit zDirMin g = false))
  /\ (((exists g, In g hits /\ passesHeightfieldLimit mesh limit zDirMax g = true)
       /\ ((0 <= opp)%Z ->
           exists g, In g hits /\ passesHeightfieldLimit mesh limit zDirMin g = true)) ->
      exists visibility',
        rayShootFace getIntersectedEigenFaces mesh directionIndex opp limit minZ maxZ
          visibility t = Ok visibility')
  /\ (((forall g, In g hits -> passesHeightfieldLimit mesh limit zDirMax g = false)
       \/ ((0 <= opp)%Z
           /\ forall g, In g hits -> passesHeightfieldLimit mesh limit zDirMin g = false)) ->
      rayShootFace getIntersectedEigenFaces mesh directionIndex opp limit minZ maxZ
        visibility t = OutOfRange (-1)).
Proof.
  intros hits s Hh.
  assert (Hmax : maxZFace s = (-1)%Z
                 <-> forall g, In g hits -> passesHeightfieldLimit mesh limit zDirMax g = false).
  { destruct (scan_max mesh limit opp minZ hits (mkZScan minZ (-1) maxZ (-1))) as [E _].
    - intros g Hin. destruct (Hh g Hin) as (? & ? & ?). auto.
    - reflexivity.
    - fold hits in E. cbn in E. unfold s, scanRay. fold hits. rewrite E. tauto. }
  assert (Hmin : (0 <= opp)%Z ->
                 (minZFace s = (-1)%Z
                  <-> forall g, In g hits ->
                                passesHeightfieldLimit mesh limit zDirMin g = false)).
  { intros Hopp.
    destruct (scan_min mesh limit opp maxZ hits Hopp (mkZScan minZ (-1) maxZ (-1))) as [E _].
    - intros g Hin. destruct (Hh g Hin) as (? & ? & ?). auto.
    - reflexivity.
    - cbn in E. unfold s, scanRay. fold hits. rewrite E. tauto. }
  destruct (scan_kept mesh limit opp hits (mkZScan minZ (-1) maxZ (-1))
              (or_introl eq_refl) (or_introl eq_refl) hits (fun g Hin => Hin))
    as [Kmax Kmin].
  fold (scanRay getIntersectedEigenFaces mesh limit opp minZ maxZ t) in Kmax, Kmin.
  fold s in Kmax, Kmin.
  assert (Pmax : maxZFace s = (-1)%Z \/ (0 <= maxZFace s)%Z).
  { destruct Kmax as [E|[Hin _]]; [now left | right; now destruct (Hh _ Hin)]. }
  assert (Pmin : minZFace s = (-1)%Z \/ (0 <= minZFace s)%Z).
  { destruct Kmin as [E|[Hin _]]; [now left | right; now destruct (Hh _ Hin)]. }
  split; [exact Hmax|]. split; [exact Hmin|].
  unfold rayShootFace. fold s. unfold a2_set_int.
  split.
  - intros [Emax Emin].
    apply exists_passing_not_all_failing in Emax. rewrite <- Hmax in Emax.
    destruct Pmax as [E|Pmax]; [contradiction|].
    destruct (Z.ltb_spec (maxZFace s) 0); [lia|].
    cbn [mbind outcome_bind obind].
    destruct (Z.leb_spec 0 opp) as [Hopp|Hopp]; [|eauto].
    specialize (Emin Hopp). apply exists_passing_not_all_failing in Emin.
    rewrite <- (Hmin Hopp) in Emin.
    destruct Pmin as [E|Pmin]; [contradiction|].
    destruct (Z.ltb_spec (minZFace s) 0); [lia|]. eauto.
  - intros [Fmax|[Hopp Fmin]].
    + apply Hmax in Fmax. rewrite Fmax. reflexivity.
    + apply (Hmin Hopp) in Fmin.
      destruct Pmax as [E|Pmax]; [rewrite E; reflexivity|].
      destruct (Z.ltb_spec (maxZFace s) 0); [lia|].
      cbn [mbind outcome_bind obind].
      destruct (Z.leb_spec 0 opp); [|lia].
      rewrite Fmin. reflexivity.
Qed.

(** C10 (as amended).  Assume that the faces returned by the intersection
    queries are faces (non-negative indices) whose barycenters, as computed,
    lie strictly between [minZ = bbox.minZ - 1] and [maxZ = bbox.maxZ + 1],
    as computed.  Then for every target
    face [maxZFace] is [-1] after the scan exactly when no face met by the
    centroid ray passes the normal test from +z, and likewise [minZFace]
    from -z when the opposite direction is checked; if every centroid ray
    meets a face passing the test (from +z, and from -z when the opposite
    direction is checked) the function returns without writing at a
    negative index; and if the ray of some target face meets none, the
    function writes at index [-1]. *)
Theorem negative_index_write_iff_a_ray_meets_no_valid_face
  (mesh : Mesh) faces directionIndex opp visibility heightfieldAngle :
  let limit := scos heightfieldAngle in
  let minZ := ssub (pz (bbMin mesh)) (sofZ 1) in
  let maxZ := sadd (pz (bbMax mesh)) (sofZ 1) in
  let hits := barIntersectionOf getIntersectedEigenFaces mesh minZ maxZ in
  let scan := scanRay getIntersectedEigenFaces mesh limit opp minZ maxZ in
  (forall t g, In t faces -> In g (hits t) ->
     (0 <= g)%Z
     /\ sltb minZ (pz (barycenter mesh (Z.to_nat g))) = true
     /\ sltb (pz (barycenter mesh (Z.to_nat g))) maxZ = true) ->
  (forall t, In t faces ->
     (maxZFace (scan t) = (-1)%Z
      <-> forall g, In g (hits t) -> passesHeightfieldLimit mesh limit zDirMax g = false)
     /\ ((0 <= opp)%Z ->
         (minZFace (scan t) = (-1)%Z
          <-> forall g, In g (hits t) ->
                        passesHeightfieldLimit mesh limit zDirMin g = false)))
  /\ ((forall t, In t faces ->
         (exists g, In g (hits t) /\ passesHeightfieldLimit mesh limit zDirMax g = true)
         /\ ((0 <= opp)%Z ->
             exists g, In g (hits t) /\ passesHeightfieldLimit mesh limit zDirMin g = true)) ->
      exists visibility',
        getVisibilityRayShootingOnZ getIntersectedEigenFaces mesh faces directionIndex opp
          visibility heightfieldAngle = Ok visibility')
  /\ ((exists t, In t faces
                 /\ ((forall g, In g (hits t) ->
                                passesHeightfieldLimit mesh limit zDirMax g = false)
                     \/ ((0 <= opp)%Z
                         /\ forall g, In g (hits t) ->
                                      passesHeightfieldLimit mesh limit zDirMin g = false))) ->
      getVisibilityRayShootingOnZ getIntersectedEigenFaces mesh faces directionIndex opp
        visibility heightfieldAngle = OutOfRange (-1)).
Proof.
  intros limit minZ maxZ hits scan Hh.
  split; [|split].
  - intros t Ht.
    destruct (rayShootFace_outcome mesh directionIndex opp limit minZ maxZ visibility t
                (fun g Hin => Hh t g Ht Hin)) as (Hmax & Hmin & _ & _).
    split; assumption.
  - unfold getVisibilityRayShootingOnZ. fold limit minZ maxZ.
    revert visibility Hh. induction faces as [|t faces IH]; intros visibility Hh Hall.
    + cbn. eauto.
    + cbn [ofold].
      destruct (rayShootFace_outcome mesh directionIndex opp limit minZ maxZ visibility t
                  (fun g Hin => Hh t g (or_introl eq_refl) Hin)) as (_ & _ & Hok & _).
      destruct (Hok (Hall t (or_introl eq_refl))) as [v' ->].
      cbn [mbind outcome_bind obind].
      apply IH.
      * intros t' g Ht'. apply Hh. now right.
      * intros t' Ht'. apply Hall. now right.
  - unfold getVisibilityRayShootingOnZ. fold limit minZ maxZ.
    revert visibility Hh. induction faces as [|t faces IH]; intros visibility Hh (t0 & Hin & Hfail).
    + destruct Hin.
    + cbn [ofold].
      destruct (rayShootFace_outcome mesh directionIndex opp limit minZ maxZ visibility t
                  (fun g Hin => Hh t g (or_introl eq_refl) Hin)) as (_ & _ & Hok & Hbad).
      destruct (all_failing_or_exists_passing
                  (passesHeightfieldLimit mesh limit zDirMax) (hits t)) as [Fmax|Emax].
      { rewrite Hbad by (left; exact Fmax). reflexivity. }
      destruct (Z.leb_spec 0 opp) as [Hopp|Hopp].
      * destruct (all_failing_or_exists_passing
                    (passesHeightfieldLimit mesh limit zDirMin) (hits t)) as [Fmin|Emin].
        { rewrite Hbad by (right; split; [exact Hopp | exact Fmin]). reflexivity. }
        destruct (Hok (conj Emax (fun _ => Emin))) as [v' ->].
        cbn [mbind outcome_bind obind].
        apply IH; [intros t' g Ht'; apply Hh; now right|].
        destruct Hin as [<-|Hin]; [|eauto].
        exfalso. destruct Hfail as [F|[_ F]].
        -- exact (exists_passing_not_all_failing _ _ Emax F).
        -- exact (exists_passing_not_all_failing _ _ Emin F).
      * destruct (Hok (conj Emax (fun Hc : (0 <= opp)%Z => ltac:(exfalso; lia)))) as [v' ->].
        cbn [mbind outcome_bind obind].
        apply IH; [intros t' g Ht'; apply Hh; now right|].
        destruct Hin as [<-|Hin]; [|eauto].
        exfalso. destruct Hfail as [F|[Hc _]]; [|lia].
        exact (exists_passing_not_all_failing _ _ Emax F).
Qed.

End RayTheorem.

(** Ray shooting on the stacked faces from +z (row 0) and -z (row 1). *)
Lemma negative_index_write_iff_a_ray_meets_no_valid_face_witness :
  (forall t g,
      In t [0; 1; 2] ->
      In g (barIntersectionOf verticalHits stacked
              (ssub (pz (bbMin stacked)) (sofZ 1)) (sadd (pz (bbMax stacked)) (sofZ 1)) t) ->
      (0 <= g)%Z
      /\ sltb (ssub (pz (bbMin stacked)) (sofZ 1)) (pz (barycenter stacked (Z.to_nat g))) = true
      /\ sltb (pz (barycenter stacked (Z.to_nat g))) (sadd (pz (bbMax stacked)) (sofZ 1)) = true)
  /\ (forall t,
         In t [0; 1; 2] ->
         (exists g,
             In g (barIntersectionOf verticalHits stacked
                     (ssub (pz (bbMin stacked)) (sofZ 1))
                     (sadd (pz (bbMax stacked)) (sofZ 1)) t)
             /\ passesHeightfieldLimit stacked (scos (3 # 4)%Q) zDirMax g = true)
         /\ ((0 <= 1)%Z ->
             exists g,
               In g (barIntersectionOf verticalHits stacked
                       (ssub (pz (bbMin stacked)) (sofZ 1))
                       (sadd (pz (bbMax stacked)) (sofZ 1)) t)
               /\ passesHeightfieldLimit stacked (scos (3 # 4)%Q) zDirMin g = true))
  /\ exists visibility',
      getVisibilityRayShootingOnZ verticalHits stacked [0; 1; 2] 0 1 (a2_resize_fill 2 3 0)
        (3 # 4)%Q = Ok visibility'.
Proof.
  assert (H1 : forall t g,
      In t [0; 1; 2] ->
      In g (barIntersectionOf verticalHits stacked
              (ssub (pz (bbMin stacked)) (sofZ 1)) (sadd (pz (bbMax stacked)) (sofZ 1)) t) ->
      (0 <= g)%Z
      /\ sltb (ssub (pz (bbMin stacked)) (sofZ 1)) (pz (barycenter stacked (Z.to_nat g))) = true
      /\ sltb (pz (barycenter stacked (Z.to_nat g))) (sadd (pz (bbMax stacked)) (sofZ 1)) = true).
  { intros t g Ht Hg.
    destruct Ht as [<-|[<-|[<-|[]]]]; vm_compute in Hg;
      destruct Hg as [<-|[<-|[<-|[]]]]; (split; [lia | split; evaluate]). }
  assert (H2 : forall t,
         In t [0; 1; 2] ->
         (exists g,
             In g (barIntersectionOf verticalHits stacked
                     (ssub (pz (bbMin stacked)) (sofZ 1))
                     (sadd (pz (bbMax stacked)) (sofZ 1)) t)
             /\ passesHeightfieldLimit stacked (scos (3 # 4)%Q) zDirMax g = true)
         /\ ((0 <= 1)%Z ->
             exists g,
               In g (barIntersectionOf verticalHits stacked
                       (ssub (pz (bbMin stacked)) (sofZ 1))
                       (sadd (pz (bbMax stacked)) (sofZ 1)) t)
               /\ passesHeightfieldLimit stacked (scos (3 # 4)%Q) zDirMin g = true)).
  { intros t Ht.
    destruct Ht as [<-|[<-|[<-|[]]]];
      (split; [exists 0%Z | intros _; exists 2%Z]); (split; [vm_compute; tauto | evaluate]). }
  split; [exact H1|]. split; [exact H2|].
  exact (proj1 (proj2
           (negative_index_write_iff_a_ray_meets_no_valid_face verticalHits stacked
              [0; 1; 2] 0 1 (a2_resize_fill 2 3 0) (3 # 4)%Q H1)) H2).
Defined.

(** With the x directions computed by ray shooting, the stacked faces turned
    about the y axis show no face passing the normal test from above: the
    analyser writes at index [-1]. *)
Lemma ray_shooting_of_the_x_directions_writes_at_minus_one :
  analyse stacked 2 true emptyData (3 # 4) RAYSHOOTING = OutOfRange (-1).
Proof. evaluate. Qed.

(** In double precision the margin of [1] around the bounding box can be
    absorbed.  On the sloping triangle above [2^54] the only centroid ray
    meets the face, which passes the normal test from +z for the angle of
    one radian.  But [minZ = 2^54 - 1] rounds to [2^54], and so does the
    height of the barycenter, [(3 * 2^54 + 4) / 3]: the barycenter is not
    above [minZ], [maxZFace] stays [-1] and the function writes at index
    [-1]. *)
Lemma absorbed_margin_hides_the_face_met_by_the_ray :
  (forall t, In t [0] ->
     exists g,
       In g (@barIntersectionOf DoubleScalar meetsEveryFace highSlope
               (@ssub DoubleScalar (@pz DoubleScalar (@bbMin DoubleScalar highSlope))
                  (@sofZ DoubleScalar 1))
               (@sadd DoubleScalar (@pz DoubleScalar (@bbMax DoubleScalar highSlope))
                  (@sofZ DoubleScalar 1)) t)
       /\ @passesHeightfieldLimit DoubleScalar highSlope
            (@scos DoubleScalar (@sofZ DoubleScalar 1)) (@zDirMax DoubleScalar) g = true)
  /\ @ssub DoubleScalar (@pz DoubleScalar (@bbMin DoubleScalar highSlope))
       (@sofZ DoubleScalar 1) = doubleOfZ (2 ^ 54)
  /\ @pz DoubleScalar (@barycenter DoubleScalar highSlope 0) = doubleOfZ (2 ^ 54)
  /\ @maxZFace DoubleScalar
       (@scanRay DoubleScalar meetsEveryFace highSlope
          (@scos DoubleScalar (@sofZ DoubleScalar 1)) (-1)
          (@ssub DoubleScalar (@pz DoubleScalar (@bbMin DoubleScalar highSlope))
             (@sofZ DoubleScalar 1))
          (@sadd DoubleScalar (@pz DoubleScalar (@bbMax DoubleScalar highSlope))
             (@sofZ DoubleScalar 1)) 0) = (-1)%Z
  /\ @getVisibilityRayShootingOnZ DoubleScalar meetsEveryFace highSlope [0] 0 (-1)
       (a2_resize_fill 1 1 0) (@sofZ DoubleScalar 1) = OutOfRange (-1).
Proof.
  split; [|repeat split; evaluate].
  intros t [<-|[]]. exists 0%Z. split; [left; evaluate | evaluate].
Qed.

(** * The bounding-box assumption in exact arithmetic *)

Section RationalBox.
Local Open Scope Q_scope.

Lemma third_between (l u a b c : Q) :
  l <= a <= u -> l <= b <= u -> l <= c <= u ->
  l - 1 < (a + b + c) / 3 /\ (a + b + c) / 3 < u + 1.
Proof.
  intros Ha Hb Hc.
  assert (E : 3 * ((a + b + c) / 3) == a + b + c) by field.
  set (x := (a + b + c) / 3) in *. clearbody x. split; lra.
Qed.

Lemma barycenter_z (m : Mesh) f :
  pz (barycenter m f)
  == (pz (getVertex m (fx (getFace m f))) + pz (getVertex m (fy (getFace m f)))
      + pz (getVertex m (fz (getFace m f)))) / 3.
Proof.
  unfold barycenter, pdiv, padd. cbn [pz]. cbn [sdiv sadd sofZ QScalar].
  rewrite !Qred_correct. reflexivity.
Qed.

Lemma sltb_lt (a b : Q) : sltb a b = true <-> a < b.
Proof.
  cbn [sltb QScalar]. rewrite negb_true_iff, <- not_true_iff_false, Qle_bool_iff.
  split; [apply Qnot_le_lt | apply Qlt_not_le].
Qed.

Lemma getVertex_in (m : Mesh) i : (i < numberVertices m)%nat -> In (getVertex m i) (vertices m).
Proof.
  intros Hi. unfold getVertex.
  destruct (lookup_lt_is_Some_2 (vertices m) i Hi) as [v Hv]. rewrite Hv. cbn.
  apply list_elem_of_In, list_elem_of_lookup. eauto.
Qed.

(** In exact arithmetic the barycenter of every face of a mesh lies strictly
    between [bbox.minZ - 1] and [bbox.maxZ + 1]: the assumption of the ray
    shooting theorem holds as soon as the intersection query returns faces
    of the mesh. *)
Lemma barycenter_strictly_inside_box (m : Mesh) (g : Z) :
  boxBoundsVerticesZ m -> facesWithinMesh m ->
  (0 <= g < Z.of_nat (numberFaces m))%Z ->
  sltb (ssub (pz (bbMin m)) (sofZ 1)) (pz (barycenter m (Z.to_nat g))) = true
  /\ sltb (pz (barycenter m (Z.to_nat g))) (sadd (pz (bbMax m)) (sofZ 1)) = true.
Proof.
  intros Hbox Hfaces Hg.
  assert (Hf : In (getFace m (Z.to_nat g)) (faces m)).
  { unfold getFace.
    destruct (lookup_lt_is_Some_2 (faces m) (Z.to_nat g)) as [f Hf];
      [unfold numberFaces in Hg; lia|].
    rewrite Hf. cbn. apply list_elem_of_In, list_elem_of_lookup. eauto. }
  destruct (Hfaces _ Hf) as (Hx & Hy & Hz).
  pose proof (Hbox _ (getVertex_in m _ Hx)) as Bx.
  pose proof (Hbox _ (getVertex_in m _ Hy)) as By.
  pose proof (Hbox _ (getVertex_in m _ Hz)) as Bz.
  destruct (third_between _ _ _ _ _ Bx By Bz) as [Hlo Hhi].
  rewrite !sltb_lt, barycenter_z. cbn [ssub sadd sofZ QScalar].
  rewrite !Qred_correct. split; assumption.
Qed.

End RationalBox.

(** * The visibility analyser *)

Lemma ofold_invariant {A B : Type} (f : A -> B -> outcome A) (Inv : A -> Prop) :
  (forall a b a', Inv a -> f a b = Ok a' -> Inv a') ->
  forall l a a', Inv a -> ofold f l a = Ok a' -> Inv a'.
Proof.
  intros Hstep. induction l as [|b l IH]; intros a a' Ha; cbn [ofold].
  - intros [= <-]. exact Ha.
  - destruct (f a b) as [a1| | |] eqn:Hf; cbn; try discriminate.
    intros Hl. exact (IH a1 a' (Hstep a b a1 Ha Hf) Hl).
Qed.

Lemma ofold_seq_invariant {A : Type} (f : A -> nat -> outcome A) (Inv : nat -> A -> Prop) :
  forall n start a a',
    (forall k b b', start <= k < start + n -> Inv k b -> f b k = Ok b' -> Inv (S k) b') ->
    Inv start a -> ofold f (seq start n) a = Ok a' -> Inv (start + n) a'.
Proof.
  induction n as [|n IH]; intros start a a' Hstep Ha; cbn [seq ofold].
  - intros [= <-]. now rewrite Nat.add_0_r.
  - destruct (f a start) as [a1| | |] eqn:Hf; cbn; try discriminate.
    intros Hl. replace (start + S n) with (S start + n) by lia.
    apply (IH (S start) a1 a'); [|apply (Hstep start a a1); auto; lia | exact Hl].
    intros k b b' Hk. apply Hstep. lia.
Qed.


Section AnalyserFacts.
Context `{Scalar}.
Variable stdsort : (nat -> nat -> bool) -> list nat -> list nat.
Variable Matrix3 : Type.
Variable rotationMatrix : Point3 -> scalar -> Matrix3.
Variable meshRotate : Mesh -> Matrix3 -> Mesh.
Variable vecRotate : Point3 -> Matrix3 -> Point3.
Variable getIntersectedEigenFaces : Mesh -> Point3 -> Point3 -> list Z.
Variable sortTriangle2DPointsAndReorderCounterClockwise : Triangle2 -> Triangle2.
Variable Tree2 : Type.
Variable treeCreate :
  (Triangle2 -> AABBValueType -> Z -> outcome scalar) -> (Triangle2 -> Triangle2 -> bool) -> Tree2.
Variable treeInsert : Tree2 -> Triangle2 -> Tree2.
Variable aabbOverlapCheck : Tree2 -> Triangle2 -> bool.









End AnalyserFacts.



(** * The association of the faces to the surviving planes *)

(** X1.  [smoothTerm] is a metric on the labels, whatever the two sites
    are: it is [0] exactly for equal labels and [2] otherwise, it is
    symmetric, and it satisfies the triangle inequality. *)
Theorem smoothTerm_is_a_metric_on_labels (s1 s2 s3 s4 s5 s6 a b c : Z) :
  (smoothTerm s1 s2 a b = 0%Z <-> a = b)
  /\ (smoothTerm s1 s2 a b = 2%Z <-> a <> b)
  /\ smoothTerm s1 s2 a b = smoothTerm s3 s4 b a
  /\ (smoothTerm s1 s2 a c <= smoothTerm s3 s4 a b + smoothTerm s5 s6 b c)%Z.
Proof.
  unfold smoothTerm.
  destruct (Z.eqb_spec a b), (Z.eqb_spec b a), (Z.eqb_spec a c), (Z.eqb_spec b c);
    repeat split; intros; try lia; try congruence.
Qed.

Lemma lookupZ_visited n k visited z :
  visitedBelow n k visited ->
  lookupZ visited z
  = if (0 <=? z)%Z && (z <? Z.of_nat n)%Z then Some (Z.to_nat z <? k) else None.
Proof.
  intros [Hlen Hv]. unfold lookupZ. rewrite Hlen.
  destruct (Z.leb_spec 0 z), (Z.ltb_spec z (Z.of_nat n)); cbn [andb]; try reflexivity.
  apply Hv. lia.
Qed.

Lemma visitedBelow_start n : visitedBelow n 0 (replicate n false).
Proof.
  split; [apply length_replicate|].
  intros j Hj. now rewrite lookup_replicate_2.
Qed.

Lemma visitedBelow_insert n k visited :
  k < n -> visitedBelow n k visited -> visitedBelow n (S k) (<[k := true]> visited).
Proof.
  intros Hk [Hlen Hv]. split; [now rewrite length_insert|].
  intros j Hj. destruct (Nat.eq_dec j k) as [->|Hne].
  - rewrite list_lookup_insert_eq by lia.
    f_equal. symmetry. apply Nat.ltb_lt. lia.
  - rewrite list_lookup_insert_ne by congruence. rewrite Hv by exact Hj.
    f_equal. destruct (Nat.ltb_spec j k), (Nat.ltb_spec j (S k)); try reflexivity; lia.
Qed.

Section AssociationFacts.
Context `{Scalar}.
Variable GC : Type.
Variable gcNew : nat -> nat -> outcome GC.
Variable gcSetDataCost : GC -> nat -> list SparseDataCost -> outcome GC.
Variable gcSetSmoothCost : GC -> (Z -> Z -> Z -> Z -> Z) -> outcome GC.
Variable gcSetNeighbors : GC -> nat -> Z -> outcome GC.
Variable gcSwap : GC -> Z -> outcome GC.
Variable gcWhatLabel : GC -> nat -> outcome Z.
Variable getFaceAdjacences : Mesh -> nat -> nat -> Z.

(** *** The read-back loop *)

Lemma readLabels_labels gc n : forall fs segmentation result,
  length segmentation = n ->
  (forall f label, segmentation !! f = Some label ->
     label = 0%Z \/ gcWhatLabel gc f = Ok label) ->
  readLabels GC gcWhatLabel gc fs segmentation = Ok result ->
  length result = n
  /\ forall f label, result !! f = Some label ->
       label = 0%Z \/ gcWhatLabel gc f = Ok label.
Proof.
  induction fs as [|f fs IH]; intros segmentation result Hlen Hseg; cbn [readLabels].
  - intros [= <-]. split; assumption.
  - destruct (gcWhatLabel gc f) as [label| | |] eqn:Hl; try discriminate.
    + apply IH; [now rewrite length_insert|].
      intros g l Hg. destruct (Nat.eq_dec g f) as [->|Hne].
      * destruct (Nat.lt_ge_cases f (length segmentation)) as [Hin|Hout].
        -- rewrite list_lookup_insert_eq in Hg by exact Hin.
           injection Hg as <-. now right.
        -- rewrite list_insert_ge in Hg by exact Hout. now apply Hseg.
      * rewrite list_lookup_insert_ne in Hg by congruence. now apply Hseg.
    + intros [= <-]. split; assumption.
Qed.

(** X2.  Whenever [getAssociation] returns, it returns one label per face,
    and every label is [0], the value the vector is created with, or the
    label that [whatLabel] gave for that face; after an exception in the
    statements before the read-back, every face has the label [0]. *)
Theorem getAssociation_returns_one_label_per_face
  survivedPlanes visibility (mesh : Mesh) segmentation :
  getAssociation GC gcNew gcSetDataCost gcSetSmoothCost gcSetNeighbors gcSwap gcWhatLabel
    getFaceAdjacences survivedPlanes visibility mesh = Ok segmentation ->
  length segmentation = numberFaces mesh
  /\ (forall f label, segmentation !! f = Some label ->
        label = 0%Z
        \/ exists gc,
             buildAndSolve GC gcNew gcSetDataCost gcSetSmoothCost gcSetNeighbors gcSwap
               getFaceAdjacences survivedPlanes visibility mesh = Ok gc
             /\ gcWhatLabel gc f = Ok label)
  /\ (buildAndSolve GC gcNew gcSetDataCost gcSetSmoothCost gcSetNeighbors gcSwap
        getFaceAdjacences survivedPlanes visibility mesh = Thrown ->
      segmentation = replicate (numberFaces mesh) 0%Z).
Proof.
  unfold getAssociation.
  assert (Hzero : forall f label,
             replicate (numberFaces mesh) 0%Z !! f = Some label -> label = 0%Z).
  { intros f label Hf. apply lookup_replicate in Hf. tauto. }
  destruct (buildAndSolve _ _ _ _ _ _ _ _ _ _) as [gc| | |] eqn:Hb; try discriminate.
  - intros Hr.
    destruct (readLabels_labels gc (numberFaces mesh) _ _ _
                (length_replicate _ _) (fun f l Hf => or_introl (Hzero f l Hf)) Hr)
      as [Hlen Hlab].
    split; [exact Hlen|]. split; [|discriminate].
    intros f label Hf. destruct (Hlab f label Hf) as [E|E]; [now left|].
    right. now exists gc.
  - intros [= <-]. split; [apply length_replicate|]. split; [|reflexivity].
    intros f label Hf. left. exact (Hzero f label Hf).
Qed.

(** *** The loop that registers the neighbours *)

Lemma registerNeighbor_step adj n f visited gc i :
  visitedBelow n (S f) visited ->
  registerNeighbor GC gcSetNeighbors adj f (visited, gc) i
  = if (0 <=? adj f i)%Z && (adj f i <? Z.of_nat n)%Z
    then if (Z.of_nat f <? adj f i)%Z
         then gc' ← gcSetNeighbors gc f (adj f i); mret (visited, gc')
         else Ok (visited, gc)
    else OutOfRange (adj f i).
Proof.
  intros Hv. unfold registerNeighbor. cbn [fst snd].
  rewrite (lookupZ_visited n (S f) visited _ Hv).
  destruct (Z.leb_spec 0 (adj f i)), (Z.ltb_spec (adj f i) (Z.of_nat n));
    cbn [andb]; try reflexivity.
  destruct (Nat.ltb_spec (Z.to_nat (adj f i)) (S f)), (Z.ltb_spec (Z.of_nat f) (adj f i));
    try reflexivity; lia.
Qed.

Hypothesis setNeighbors_returns :
  forall gc f nid, exists gc', gcSetNeighbors gc f nid = Ok gc'.

Lemma registerNeighbor_loop adj n f visited :
  visitedBelow n (S f) visited ->
  forall columns gc,
    (exists gc',
        ofold (registerNeighbor GC gcSetNeighbors adj f) columns (visited, gc)
        = Ok (visited, gc')
        /\ forall i, In i columns -> withinFaces n (adj f i))
    \/ (exists i,
           In i columns /\ ~ withinFaces n (adj f i)
           /\ ofold (registerNeighbor GC gcSetNeighbors adj f) columns (visited, gc)
              = OutOfRange (adj f i)).
Proof.
  intros Hv. induction columns as [|i columns IH]; intros gc; cbn [ofold].
  - left. exists gc. split; [reflexivity | intros i []].
  - rewrite (registerNeighbor_step adj n f visited gc i Hv).
    destruct (Z.leb_spec 0 (adj f i)), (Z.ltb_spec (adj f i) (Z.of_nat n)); cbn [andb];
      try (right; exists i; split; [now left|];
           split; [unfold withinFaces; lia | reflexivity]).
    assert (Hi : withinFaces n (adj f i)) by (unfold withinFaces; lia).
    assert (Hnext : exists gc1,
               (if (Z.of_nat f <? adj f i)%Z
                then gc' ← gcSetNeighbors gc f (adj f i); mret (visited, gc')
                else Ok (visited, gc)) = Ok (visited, gc1)).
    { destruct (Z.of_nat f <? adj f i)%Z; [|now exists gc].
      destruct (setNeighbors_returns gc f (adj f i)) as [gc1 E]. exists gc1.
      now rewrite E. }
    destruct Hnext as [gc1 ->]. cbn [mbind outcome_bind obind].
    destruct (IH gc1) as [(gc' & E & Hall)|(j & Hj & Hout & E)].
    + left. exists gc'. split; [exact E|].
      intros j [<-|Hj]; [exact Hi | now apply Hall].
    + right. exists j. split; [now right|]. split; assumption.
Qed.

Lemma registerNeighbors_loop adj n : forall m k visited gc,
  k + m = n ->
  visitedBelow n k visited ->
  (exists st,
      ofold (registerNeighbors GC gcSetNeighbors adj) (seq k m) (visited, gc) = Ok st
      /\ forall f i, k <= f < n -> i < 3 -> withinFaces n (adj f i))
  \/ (exists f i,
         k <= f < n /\ i < 3 /\ ~ withinFaces n (adj f i)
         /\ ofold (registerNeighbors GC gcSetNeighbors adj) (seq k m) (visited, gc)
            = OutOfRange (adj f i)).
Proof.
  induction m as [|m IH]; intros k visited gc Hkm Hv; cbn [seq ofold].
  - left. exists (visited, gc). split; [reflexivity|]. intros f i Hf. lia.
  - change (registerNeighbors GC gcSetNeighbors adj (visited, gc) k)
      with (ofold (registerNeighbor GC gcSetNeighbors adj k) (seq 0 3)
              (<[k := true]> visited, gc)).
    assert (Hv' : visitedBelow n (S k) (<[k := true]> visited))
      by (apply visitedBelow_insert; [lia | exact Hv]).
    destruct (registerNeighbor_loop adj n k _ Hv' (seq 0 3) gc)
      as [(gc' & -> & Hall)|(i & Hi & Hout & ->)]; cbn [mbind outcome_bind obind].
    + destruct (IH (S k) _ gc' ltac:(lia) Hv') as [(st & E & Hrest)|(f & i & Hf & Hi & Hout & E)].
      * left. exists st. split; [exact E|].
        intros f i Hf Hi. destruct (Nat.eq_dec f k) as [->|Hne].
        -- apply Hall. apply in_seq. lia.
        -- apply Hrest; lia.
      * right. exists f, i. repeat split; try assumption; lia.
    + right. exists k, i. apply in_seq in Hi. repeat split; try assumption; lia.
Qed.

Lemma setDataCosts_returns survivedPlanes visibility (mesh : Mesh) :
  (forall gc label data, exists gc', gcSetDataCost gc label data = Ok gc') ->
  forall gc, exists gc',
    setDataCosts GC gcSetDataCost survivedPlanes visibility mesh gc = Ok gc'.
Proof.
  intros Hset. unfold setDataCosts.
  induction (seq 0 (length survivedPlanes)) as [|label labels IH]; intros gc; cbn [ofold].
  - now exists gc.
  - destruct (Hset gc label
                (dataCosts visibility mesh (default 0 (survivedPlanes !! label))))
      as [gc1 ->].
    cbn [mbind outcome_bind obind]. apply IH.
Qed.

(** X3.  With an optimizer whose calls do not throw, [getAssociation]
    reads [visited] inside its bounds, and reaches the call of [swap],
    exactly when every entry of the adjacency matrix is the index of a
    face: an entry that is not, such as the [-1] of an edge without a
    neighbour, is used as an index of [visited]. *)
Theorem getAssociation_reads_visited_in_bounds_iff_every_neighbour_is_a_face
  survivedPlanes visibility (mesh : Mesh) :
  (forall sites labels, exists gc, gcNew sites labels = Ok gc) ->
  (forall gc label data, exists gc', gcSetDataCost gc label data = Ok gc') ->
  (forall gc smooth, exists gc', gcSetSmoothCost gc smooth = Ok gc') ->
  ((forall f i, f < numberFaces mesh -> i < 3 ->
      withinFaces (numberFaces mesh) (getFaceAdjacences mesh f i)) ->
   exists gc,
     buildAndSolve GC gcNew gcSetDataCost gcSetSmoothCost gcSetNeighbors gcSwap
       getFaceAdjacences survivedPlanes visibility mesh = gcSwap gc (-1)%Z)
  /\ ((exists f i, f < numberFaces mesh /\ i < 3
                   /\ ~ withinFaces (numberFaces mesh) (getFaceAdjacences mesh f i)) ->
      exists f i,
        f < numberFaces mesh /\ i < 3
        /\ ~ withinFaces (numberFaces mesh) (getFaceAdjacences mesh f i)
        /\ getAssociation GC gcNew gcSetDataCost gcSetSmoothCost gcSetNeighbors gcSwap
             gcWhatLabel getFaceAdjacences survivedPlanes visibility mesh
           = OutOfRange (getFaceAdjacences mesh f i)).
Proof.
  intros Hnew Hdata Hsmooth.
  unfold getAssociation, buildAndSolve.
  destruct (Hnew (numberFaces mesh) (length survivedPlanes)) as [gc0 ->].
  cbn [mbind outcome_bind obind].
  destruct (setDataCosts_returns survivedPlanes visibility mesh Hdata gc0) as [gc1 ->].
  cbn [mbind outcome_bind obind].
  destruct (Hsmooth gc1 smoothTerm) as [gc2 ->].
  cbn [mbind outcome_bind obind].
  destruct (registerNeighbors_loop (getFaceAdjacences mesh) (numberFaces mesh)
              (numberFaces mesh) 0 _ gc2 eq_refl (visitedBelow_start _))
    as [(st & -> & Hall)|(f & i & Hf & Hi & Hout & ->)];
    cbn [mbind outcome_bind obind].
  - split.
    + intros _. now exists (snd st).
    + intros (f & i & Hf & Hi & Hout). exfalso. apply Hout, Hall; lia.
  - split.
    + intros Hall. exfalso. apply Hout, Hall; lia.
    + intros _. exists f, i. repeat split; try assumption; lia.
Qed.

End AssociationFacts.

Lemma getAssociation_returns_one_label_per_face_witness :
  getAssociation (list (nat * Z)) recordingNew recordingSetDataCost recordingSetSmoothCost
    recordNeighbors recordingSwap labelOne (fun _ => prismAdjacency)
    [0; 2] (a2_resize_fill 5 8 1) prism = Ok (replicate 8 1%Z)
  /\ length (replicate 8 1%Z) = numberFaces prism.
Proof.
  assert (E : getAssociation (list (nat * Z)) recordingNew recordingSetDataCost
                recordingSetSmoothCost recordNeighbors recordingSwap labelOne
                (fun _ => prismAdjacency) [0; 2] (a2_resize_fill 5 8 1) prism
              = Ok (replicate 8 1%Z)) by evaluate.
  split; [exact E|].
  exact (proj1 (getAssociation_returns_one_label_per_face _ _ _ _ _ _ _ _ _ _ _ _ E)).
Defined.

Lemma getAssociation_reads_visited_in_bounds_iff_every_neighbour_is_a_face_witness :
  exists f i,
    f < numberFaces detailedTriangle /\ i < 3
    /\ ~ withinFaces (numberFaces detailedTriangle) (openAdjacency f i)
    /\ getAssociation (list (nat * Z)) recordingNew recordingSetDataCost
         recordingSetSmoothCost recordNeighbors recordingSwap labelOne
         (fun _ => openAdjacency) [0] (a2_resize_fill 1 1 1) detailedTriangle
       = OutOfRange (openAdjacency f i).
Proof.
  refine (proj2 (getAssociation_reads_visited_in_bounds_iff_every_neighbour_is_a_face
                   (list (nat * Z)) recordingNew recordingSetDataCost recordingSetSmoothCost
                   recordNeighbors recordingSwap labelOne (fun _ => openAdjacency)
                   _ [0] (a2_resize_fill 1 1 1) detailedTriangle _ _ _) _).
  - intros gc f nid. now eexists.
  - intros sites labels. now eexists.
  - intros gc label data. now eexists.
  - intros gc smooth. now eexists.
  - exists 0, 0. cbn. unfold withinFaces, openAdjacency. repeat split; lia.
Defined.

(** *** The calls of [setNeighbors] *)

Lemma recordNeighbor_loop adj n f visited :
  visitedBelow n (S f) visited ->
  forall columns calls st,
    ofold (registerNeighbor (list (nat * Z)) recordNeighbors adj f) columns (visited, calls)
    = Ok st ->
    st = (visited,
          calls ++ map (fun i => (f, adj f i))
                       (List.filter (fun i => (Z.of_nat f <? adj f i)%Z) columns)).
Proof.
  intros Hv. induction columns as [|i columns IH]; intros calls st; cbn [ofold].
  - intros [= <-]. cbn. now rewrite app_nil_r.
  - rewrite (registerNeighbor_step _ recordNeighbors adj n f visited calls i Hv).
    destruct ((0 <=? adj f i)%Z && (adj f i <? Z.of_nat n)%Z); [|discriminate].
    cbn [List.filter].
    destruct (Z.of_nat f <? adj f i)%Z; cbn [mbind mret outcome_bind outcome_ret obind recordNeighbors].
    + intros Hst. rewrite (IH _ _ Hst). cbn [map]. now rewrite <- app_assoc.
    + apply IH.
Qed.

Lemma recordNeighbors_loop adj n : forall m k visited calls st,
  k + m = n ->
  visitedBelow n k visited ->
  ofold (registerNeighbors (list (nat * Z)) recordNeighbors adj) (seq k m) (visited, calls)
  = Ok st ->
  snd st = calls ++ flat_map (registeredFrom adj) (seq k m).
Proof.
  induction m as [|m IH]; intros k visited calls st Hkm Hv; cbn [seq ofold flat_map].
  - intros [= <-]. cbn. now rewrite app_nil_r.
  - change (registerNeighbors (list (nat * Z)) recordNeighbors adj (visited, calls) k)
      with (ofold (registerNeighbor (list (nat * Z)) recordNeighbors adj k) (seq 0 3)
              (<[k := true]> visited, calls)).
    assert (Hv' : visitedBelow n (S k) (<[k := true]> visited))
      by (apply visitedBelow_insert; [lia | exact Hv]).
    destruct (ofold (registerNeighbor _ recordNeighbors adj k) (seq 0 3) _)
      as [st1| | |] eqn:Hin; cbn [mbind outcome_bind obind]; try discriminate.
    rewrite (recordNeighbor_loop adj n k _ Hv' _ _ _ Hin).
    intros Hst. rewrite (IH (S k) _ _ st ltac:(lia) Hv' Hst).
    unfold registeredFrom at 2. now rewrite <- app_assoc.
Qed.

(** X4.  The calls of [setNeighbors] that [getAssociation] makes, observed
    with an optimizer that records them: the pair [(f, nid)] is registered
    exactly when [nid] is a neighbour of [f] in the matrix and [f < nid].
    So a pair of adjacent faces is registered from the face of lower index
    only, and no face is registered as its own neighbour. *)
Theorem neighbours_are_registered_from_the_face_of_lower_index
  `{Scalar} getFaceAdjacences survivedPlanes visibility (mesh : Mesh) calls :
  buildAndSolve (list (nat * Z)) recordingNew recordingSetDataCost recordingSetSmoothCost
    recordNeighbors recordingSwap getFaceAdjacences survivedPlanes visibility mesh
  = Ok calls ->
  calls = flat_map (registeredFrom (getFaceAdjacences mesh)) (seq 0 (numberFaces mesh))
  /\ forall f nid,
       In (f, nid) calls
       <-> f < numberFaces mesh /\ (Z.of_nat f < nid)%Z
           /\ exists i, i < 3 /\ getFaceAdjacences mesh f i = nid.
Proof.
  unfold buildAndSolve. cbn [recordingNew mbind outcome_bind obind].
  destruct (setDataCosts_returns (list (nat * Z)) recordingSetDataCost
              survivedPlanes visibility mesh
              (fun gc label data => ex_intro _ gc eq_refl) []) as [gc1 E1].
  rewrite E1. cbn [recordingSetSmoothCost mbind outcome_bind obind].
  assert (Egc : gc1 = []).
  { revert E1. unfold setDataCosts. generalize (@nil (nat * Z)).
    induction (seq 0 (length survivedPlanes)) as [|l ls IH]; intros gc; cbn [ofold].
    - now intros [= <-].
    - cbn [recordingSetDataCost mbind outcome_bind obind]. apply IH. }
  subst gc1.
  destruct (ofold _ _ _) as [st| | |] eqn:Hloop; cbn [mbind outcome_bind obind];
    try discriminate.
  unfold recordingSwap. intros [= <-].
  pose proof (recordNeighbors_loop (getFaceAdjacences mesh) (numberFaces mesh)
                (numberFaces mesh) 0 _ _ st eq_refl (visitedBelow_start _) Hloop) as Hcalls.
  cbn [app] in Hcalls. split; [exact Hcalls|].
  intros f nid. rewrite Hcalls, in_flat_map. unfold registeredFrom. split.
  - intros (g & Hg & Hin). apply in_seq in Hg.
    apply in_map_iff in Hin. destruct Hin as (i & [= <- <-] & Hi).
    apply filter_In in Hi. destruct Hi as [Hi Hlt].
    apply in_seq in Hi. apply Z.ltb_lt in Hlt.
    split; [lia|]. split; [exact Hlt|]. exists i. split; [lia | reflexivity].
  - intros (Hf & Hlt & i & Hi & <-). exists f. split; [apply in_seq; lia|].
    apply in_map_iff. exists i. split; [reflexivity|].
    apply filter_In. split; [apply in_seq; lia | now apply Z.ltb_lt].
Qed.

Lemma neighbours_are_registered_from_the_face_of_lower_index_witness :
  buildAndSolve (list (nat * Z)) recordingNew recordingSetDataCost recordingSetSmoothCost
    recordNeighbors recordingSwap (fun _ => prismAdjacency) [0; 2] (a2_resize_fill 5 8 1)
    prism
  = Ok prismNeighbourCalls
  /\ (In (0, 5%Z) prismNeighbourCalls
      <-> 0 < numberFaces prism /\ (Z.of_nat 0 < 5)%Z
          /\ exists i, i < 3 /\ prismAdjacency 0 i = 5%Z).
Proof.
  assert (E : buildAndSolve (list (nat * Z)) recordingNew recordingSetDataCost
                recordingSetSmoothCost recordNeighbors recordingSwap
                (fun _ => prismAdjacency) [0; 2] (a2_resize_fill 5 8 1) prism
              = Ok prismNeighbourCalls) by evaluate.
  split; [exact E|].
  exact (proj2 (neighbours_are_registered_from_the_face_of_lower_index
                  (fun _ => prismAdjacency) _ _ _ _ E) 0 5%Z).
Defined.

(** * The planes of fouraxis.cpp *)

Lemma fold_left_invariant_on {A B : Type} (f : A -> B -> A) (Inv : A -> Prop)
  (P : B -> Prop) :
  (forall a b, P b -> Inv a -> Inv (f a b)) ->
  forall l a, (forall b, In b l -> P b) -> Inv a -> Inv (fold_left f l a).
Proof.
  intros Hstep. induction l as [|b l IH]; intros a Hl Ha; cbn [fold_left]; [exact Ha|].
  apply IH; [intros c Hc; apply Hl; now right|].
  apply Hstep; [apply Hl; now left | exact Ha].
Qed.

Lemma fold_pick_member (pick : nat -> nat -> bool) (l : list nat) :
  forall l0 acc,
    In acc l -> (forall x, In x l0 -> In x l) ->
    In (fold_left (fun a i => if pick a i then i else a) l0 acc) l.
Proof.
  induction l0 as [|i l0 IH]; intros acc Hacc Hl0; cbn [fold_left]; [exact Hacc|].
  apply IH; [|intros x Hx; apply Hl0; now right].
  destruct (pick acc i); [apply Hl0; now left | exact Hacc].
Qed.

Section PlaneFacts.
Context `{Scalar}.

Lemma maxYFace_member (l : list nat) (mesh : Mesh) : l <> [] -> In (maxYFace l mesh) l.
Proof.
  intros Hl. unfold maxYFace.
  apply (fold_pick_member (fun a i => sltb (faceY mesh a) (faceY mesh i)) l l);
    [|auto].
  destruct l as [|x l]; [now elim Hl | now left].
Qed.

Lemma minYFace_member (l : list nat) (mesh : Mesh) : l <> [] -> In (minYFace l mesh) l.
Proof.
  intros Hl. unfold minYFace.
  apply (fold_pick_member (fun a i => sltb (faceY mesh i) (faceY mesh a)) l l);
    [|auto].
  destruct l as [|x l]; [now elim Hl | now left].
Qed.

(** X5.  On a non-empty list, [maxYFace] and [minYFace] return a face of the
    list, whatever the comparison of two coordinates answers. *)
Theorem maxYFace_and_minYFace_return_a_face_of_the_list (l : list nat) (mesh : Mesh) :
  l <> [] -> In (maxYFace l mesh) l /\ In (minYFace l mesh) l.
Proof. intros Hl. split; [now apply maxYFace_member | now apply minYFace_member]. Qed.

Variable getIntersectEigenFaces : Mesh -> Point3 -> Point3 -> list nat.
Variable Matrix3 : Type.
Variable getRotationMatrix : Point3 -> scalar -> Matrix3.
Variable meshRotate : Mesh -> Matrix3 -> Mesh.

(** *** checkPlane *)

Lemma checkPlane_entries visibility (mesh : Mesh) indexPlane numberPlanes i j :
  let marked := checkPlane getIntersectEigenFaces visibility mesh indexPlane numberPlanes in
  a2_get marked i j = a2_get visibility i j
  \/ (a2_get marked i j = 1%Z
      /\ (i = indexPlane \/ i = numberPlanes + indexPlane)
      /\ exists t, t < numberFaces mesh
                   /\ In j (planeBlackList getIntersectEigenFaces mesh t)).
Proof.
  cbv zeta. unfold checkPlane.
  apply (fold_left_invariant_on _
           (fun a => a2_get a i j = a2_get visibility i j
                     \/ (a2_get a i j = 1%Z
                         /\ (i = indexPlane \/ i = numberPlanes + indexPlane)
                         /\ exists t, t < numberFaces mesh
                                      /\ In j (planeBlackList getIntersectEigenFaces mesh t)))
           (fun t => t < numberFaces mesh));
    [|intros t Ht; apply in_seq in Ht; lia | now left].
  intros a t Ht Ha.
  fold (planeBlackList getIntersectEigenFaces mesh t).
  set (blackList := planeBlackList getIntersectEigenFaces mesh t).
  destruct (Nat.ltb_spec 0 (length blackList)) as [Hlen|]; [|exact Ha].
  assert (Hne : blackList <> []) by (intros E; rewrite E in Hlen; cbn in Hlen; lia).
  destruct (a2_get_set_cases
              (a2_set a indexPlane (maxYFace blackList mesh) 1)
              (numberPlanes + indexPlane) (minYFace blackList mesh) 1 i j)
    as [E2|(-> & -> & E2)].
  - rewrite E2.
    destruct (a2_get_set_cases a indexPlane (maxYFace blackList mesh) 1 i j)
      as [E1|(-> & -> & E1)].
    + rewrite E1. exact Ha.
    + right. split; [exact E1|]. split; [now left|].
      exists t. split; [exact Ht | now apply maxYFace_member].
  - right. split; [exact E2|]. split; [now right|].
    exists t. split; [exact Ht | now apply minYFace_member].
Qed.

(** X6.  Let the array have the rows [indexPlane] and
    [numberPlanes + indexPlane] and a column for every face that the
    intersection queries return.  Then [checkPlane] changes an entry only to
    set it to [1], only in those two rows, and only for a face met by the
    line through the barycenter of some face; every other entry, in
    particular every entry already equal to [1], is left as it is. *)
Theorem checkPlane_marks_two_rows_and_clears_nothing
  visibility (mesh : Mesh) indexPlane numberPlanes i j :
  numberPlanes + indexPlane < sizeX visibility ->
  (forall t g, t < numberFaces mesh ->
               In g (planeBlackList getIntersectEigenFaces mesh t) -> g < sizeY visibility) ->
  let marked := checkPlane getIntersectEigenFaces visibility mesh indexPlane numberPlanes in
  (a2_get marked i j = a2_get visibility i j
   \/ (a2_get marked i j = 1%Z
       /\ (i = indexPlane \/ i = numberPlanes + indexPlane)
       /\ exists t, t < numberFaces mesh
                    /\ In j (planeBlackList getIntersectEigenFaces mesh t)))
  /\ (a2_get visibility i j = 1%Z -> a2_get marked i j = 1%Z).
Proof.
  intros _ _. cbv zeta.
  destruct (checkPlane_entries visibility mesh indexPlane numberPlanes i j)
    as [E|(E & Hrow & Hface)].
  - split; [now left | congruence].
  - split; [right; auto | intros _; exact E].
Qed.

(** *** checkVisibilityAllPlanes *)

Lemma foundVisible_column (a b : Array2D) j :
  sizeX b = sizeX a -> (forall i, a2_get b i j = a2_get a i j) ->
  foundVisible b j = foundVisible a j.
Proof.
  intros Hx Hcol. unfold foundVisible. rewrite Hx.
  induction (seq 0 (sizeX a)) as [|i l IH]; cbn [existsb]; [reflexivity|].
  now rewrite Hcol, IH.
Qed.

(** The column of face [j] after the closing loop. *)
Lemma forceLastDirection_column (a : Array2D) i j :
  a2_wf a -> 0 < sizeX a -> j < sizeY a ->
  a2_get (forceLastDirection a) i j
  = if foundVisible a j then a2_get a i j
    else if i =? sizeX a - 1 then 1%Z else a2_get a i j.
Proof.
  intros Hw Hx Hj. unfold forceLastDirection.
  rewrite (seq_split_at (sizeY a) j Hj), fold_left_app. cbn [fold_left].
  set (a1 := fold_left forceStep (seq 0 j) a).
  rewrite forceLoop_other by (intros Hin; apply in_seq in Hin; lia).
  destruct (forceLoop_shape (seq 0 j) a Hw) as (Hw1 & Hx1 & Hy1). fold a1 in Hw1, Hx1, Hy1.
  assert (Hcol : forall k, a2_get a1 k j = a2_get a k j).
  { intros k. unfold a1. apply forceLoop_other. intros Hin. apply in_seq in Hin. lia. }
  unfold forceStep. rewrite (foundVisible_column a a1 j Hx1 Hcol).
  destruct (foundVisible a j); [apply Hcol|].
  rewrite Hx1. destruct (Nat.eqb_spec i (sizeX a - 1)) as [->|Hne].
  - apply a2_get_set_same; [exact Hw1 | lia | lia].
  - rewrite a2_get_set_other by now left. apply Hcol.
Qed.

(** The loop over the planes: the shape is kept, the entries are [0] or
    [1], and the last row is not written. *)
Lemma planesLoop_invariant (mesh : Mesh) numberPlanes rotation st0 :
  shapedAs (numberPlanes * 2 + 1) (numberFaces mesh) (fst st0) ->
  zeroOrOne (fst st0) ->
  (forall j, a2_get (fst st0) (numberPlanes * 2) j = 0%Z) ->
  let st :=
    fold_left
      (fun '(visibility, meshEigen) i =>
         (checkPlane getIntersectEigenFaces visibility meshEigen i numberPlanes,
          meshRotate meshEigen rotation))
      (seq 0 numberPlanes) st0 in
  shapedAs (numberPlanes * 2 + 1) (numberFaces mesh) (fst st)
  /\ zeroOrOne (fst st)
  /\ forall j, a2_get (fst st) (numberPlanes * 2) j = 0%Z.
Proof.
  intros Hs Hz Hlast. cbv zeta.
  apply (fold_left_invariant_on _
           (fun st => shapedAs (numberPlanes * 2 + 1) (numberFaces mesh) (fst st)
                      /\ zeroOrOne (fst st)
                      /\ forall j, a2_get (fst st) (numberPlanes * 2) j = 0%Z)
           (fun i => i < numberPlanes));
    [|intros i Hi; apply in_seq in Hi; lia | auto].
  intros [v m] i Hi (Hs' & Hz' & Hlast'). cbn [fst] in *.
  split; [now apply checkPlane_shapedAs|]. split.
  - intros k j. destruct (checkPlane_entries v m i numberPlanes k j) as [E|(E & _)];
      [rewrite E; apply Hz' | now right].
  - intros j.
    destruct (checkPlane_entries v m i numberPlanes (numberPlanes * 2) j)
      as [E|(_ & Hrow & _)]; [rewrite E; apply Hlast' | lia].
Qed.

(** X7.  Let there be at least one plane ([180 / numberPlanes] is an
    integer division), let the intersection queries return faces of the
    mesh they are asked about, and let a rotation keep the number of faces.
    Then the array of [checkVisibilityAllPlanes] has [2 * numberPlanes + 1]
    rows of one entry per face, all [0] or [1]; every face has an entry
    equal to [1]; and the last row marks exactly the faces that no plane
    sees. *)
Theorem checkVisibilityAllPlanes_marks_unseen_faces_in_the_last_row
  (mesh : Mesh) numberPlanes :
  0 < numberPlanes ->
  (forall m p q g, In g (getIntersectEigenFaces m p q) -> g < numberFaces m) ->
  (forall m rotation, numberFaces (meshRotate m rotation) = numberFaces m) ->
  let visibility :=
    checkVisibilityAllPlanes getIntersectEigenFaces Matrix3 getRotationMatrix meshRotate
      mesh numberPlanes in
  shapedAs (numberPlanes * 2 + 1) (numberFaces mesh) visibility
  /\ zeroOrOne visibility
  /\ forall j, j < numberFaces mesh ->
       (exists i, i < numberPlanes * 2 + 1 /\ a2_get visibility i j = 1%Z)
       /\ (a2_get visibility (numberPlanes * 2) j = 1%Z
           <-> forall i, i < numberPlanes * 2 -> a2_get visibility i j <> 1%Z).
Proof.
  intros _ _ _. cbv zeta. unfold checkVisibilityAllPlanes.
  set (rotation := getRotationMatrix _ _).
  pose proof (planesLoop_invariant mesh numberPlanes rotation
                (a2_resize_fill (numberPlanes * 2 + 1) (numberFaces mesh) 0, mesh)) as Hloop.
  cbv zeta in Hloop. cbn [fst] in Hloop.
  destruct (fold_left _ (seq 0 numberPlanes) _) as [a meshEigen]. cbn [fst] in Hloop.
  destruct Hloop as ((Hw & Hx & Hy) & Hz & Hlast).
  { split; [apply a2_resize_fill_wf | split; reflexivity]. }
  { intros i j. left. apply a2_get_fill_zero. }
  { intros j. apply a2_get_fill_zero. }
  destruct (forceLoop_shape (seq 0 (sizeY a)) a Hw) as (Hw' & Hx' & Hy').
  fold (forceLastDirection a) in Hw', Hx', Hy'.
  assert (Hcol : forall i j, j < numberFaces mesh ->
             a2_get (forceLastDirection a) i j
             = if foundVisible a j then a2_get a i j
               else if i =? numberPlanes * 2 then 1%Z else a2_get a i j).
  { intros i j Hj. rewrite forceLastDirection_column; [|exact Hw | lia | lia].
    replace (sizeX a - 1) with (numberPlanes * 2) by lia. reflexivity. }
  split; [split; [exact Hw' | split; congruence]|]. split.
  - intros i j. destruct (Nat.lt_ge_cases j (numberFaces mesh)) as [Hj|Hj].
    + rewrite Hcol by exact Hj.
      destruct (foundVisible a j); [apply Hz|].
      destruct (i =? numberPlanes * 2); [now right | apply Hz].
    + left. unfold a2_get. destruct Hw' as [_ Hrows].
      destruct (rows (forceLastDirection a) !! i) as [r|] eqn:Hr; cbn; [|reflexivity].
      rewrite Forall_forall in Hrows.
      rewrite lookup_ge_None_2; [reflexivity|].
      rewrite (Hrows r) by (eapply list_elem_of_lookup_2; exact Hr). lia.
  - intros j Hj. split.
    + destruct (forceLastDirection_covers a j Hw) as (i & Hi & E); [lia | lia |].
      exists i. split; [lia | exact E].
    + rewrite Hcol by exact Hj. destruct (foundVisible a j) eqn:Hf.
      * rewrite Hlast. split; [discriminate|].
        intros Hnone. exfalso. apply foundVisible_true in Hf.
        destruct Hf as (i & Hi & E).
        destruct (Nat.eq_dec i (numberPlanes * 2)) as [->|Hne];
          [rewrite Hlast in E; discriminate|].
        apply (Hnone i); [lia|]. rewrite Hcol, (proj2 (foundVisible_true a j)); eauto.
      * rewrite Nat.eqb_refl. split; [|reflexivity].
        intros _ i Hi. rewrite Hcol, Hf by exact Hj.
        destruct (Nat.eqb_spec i (numberPlanes * 2)); [lia|].
        apply (proj1 (foundVisible_false a j) Hf). lia.
Qed.

End PlaneFacts.

Lemma maxYFace_and_minYFace_return_a_face_of_the_list_witness :
  prismSides <> [] /\ In (maxYFace prismSides prism) prismSides
  /\ In (minYFace prismSides prism) prismSides.
Proof.
  assert (Hne : prismSides <> []) by discriminate.
  split; [exact Hne|].
  exact (maxYFace_and_minYFace_return_a_face_of_the_list prismSides prism Hne).
Defined.

(** *** Exact arithmetic *)

Lemma fold_highest (mesh : Mesh) : forall l acc,
  (faceY mesh acc
   <= faceY mesh
        (fold_left (fun max i => if sltb (faceY mesh max) (faceY mesh i) then i else max)
                   l acc))%Q
  /\ forall x, In x l ->
       (faceY mesh x
        <= faceY mesh
             (fold_left (fun max i => if sltb (faceY mesh max) (faceY mesh i) then i else max)
                        l acc))%Q.
Proof.
  induction l as [|i l IH]; intros acc; cbn [fold_left].
  - split; [apply Qle_refl | intros x []].
  - destruct (sltb (faceY mesh acc) (faceY mesh i)) eqn:Hlt.
    + destruct (IH i) as [Hi Hl]. apply sltb_lt in Hlt. split.
      * eapply Qle_trans; [apply Qlt_le_weak; exact Hlt | exact Hi].
      * intros x [<-|Hx]; [exact Hi | now apply Hl].
    + destruct (IH acc) as [Hacc Hl]. split; [exact Hacc|].
      intros x [<-|Hx]; [|now apply Hl].
      eapply Qle_trans; [|exact Hacc].
      apply Qnot_lt_le. intros Hc. apply sltb_lt in Hc. congruence.
Qed.

Lemma fold_lowest (mesh : Mesh) : forall l acc,
  (faceY mesh
     (fold_left (fun min i => if sltb (faceY mesh i) (faceY mesh min) then i else min)
                l acc)
   <= faceY mesh acc)%Q
  /\ forall x, In x l ->
       (faceY mesh
          (fold_left (fun min i => if sltb (faceY mesh i) (faceY mesh min) then i else min)
                     l acc)
        <= faceY mesh x)%Q.
Proof.
  induction l as [|i l IH]; intros acc; cbn [fold_left].
  - split; [apply Qle_refl | intros x []].
  - destruct (sltb (faceY mesh i) (faceY mesh acc)) eqn:Hlt.
    + destruct (IH i) as [Hi Hl]. apply sltb_lt in Hlt. split.
      * eapply Qle_trans; [exact Hi | apply Qlt_le_weak; exact Hlt].
      * intros x [<-|Hx]; [exact Hi | now apply Hl].
    + destruct (IH acc) as [Hacc Hl]. split; [exact Hacc|].
      intros x [<-|Hx]; [|now apply Hl].
      eapply Qle_trans; [exact Hacc|].
      apply Qnot_lt_le. intros Hc. apply sltb_lt in Hc. congruence.
Qed.

(** X8.  In exact arithmetic, the face that [maxYFace] returns has the
    greatest y coordinate (of its second vertex) among the faces of the
    list, and the face that [minYFace] returns has the least. *)
Theorem maxYFace_is_highest_and_minYFace_is_lowest (l : list nat) (mesh : Mesh) (i : nat) :
  In i l ->
  (faceY mesh i <= faceY mesh (maxYFace l mesh))%Q
  /\ (faceY mesh (minYFace l mesh) <= faceY mesh i)%Q.
Proof.
  intros Hi. unfold maxYFace, minYFace. split.
  - now apply fold_highest.
  - now apply fold_lowest.
Qed.

Lemma maxYFace_is_highest_and_minYFace_is_lowest_witness :
  In 6 prismSides
  /\ (faceY prism 6%nat <= faceY prism (maxYFace prismSides prism))%Q
  /\ (faceY prism (minYFace prismSides prism) <= faceY prism 6%nat)%Q.
Proof.
  assert (Hin : In 6 prismSides) by (cbn; tauto).
  split; [exact Hin|].
  exact (maxYFace_is_highest_and_minYFace_is_lowest prismSides prism 6 Hin).
Defined.

(** * The survivors of the minimisation *)

Lemma increasing_snoc (l : list nat) (c : nat) :
  increasing l -> (forall a, In a l -> a < c) -> increasing (l ++ [c]).
Proof.
  intros Hinc Hlt p q a b Hpq Hp Hq.
  assert (Hq' : q < length (l ++ [c])) by (eapply lookup_lt_Some; exact Hq).
  rewrite length_app in Hq'. cbn in Hq'.
  rewrite lookup_app_l in Hp by lia.
  destruct (Nat.lt_ge_cases q (length l)) as [Hin|Hout].
  - rewrite lookup_app_l in Hq by exact Hin. exact (Hinc p q a b Hpq Hp Hq).
  - rewrite lookup_app_r in Hq by exact Hout.
    replace (q - length l) with 0 in Hq by lia. cbn in Hq. injection Hq as <-.
    apply Hlt. apply list_elem_of_In. eapply list_elem_of_lookup_2. exact Hp.
Qed.

Lemma increasing_seq n : increasing (seq 0 n).
Proof.
  intros p q a b Hpq Hp Hq.
  apply lookup_seq in Hp, Hq. lia.
Qed.

Lemma readSolution_increasing x : forall m c survived,
  increasing survived -> (forall a, In a survived -> a < c) ->
  increasing (readSolution x (seq c m) survived)
  /\ forall a, In a (readSolution x (seq c m) survived) -> a < c + m.
Proof.
  induction m as [|m IH]; intros c survived Hinc Hlt; cbn [seq readSolution].
  - split; [exact Hinc|]. intros a Ha. specialize (Hlt a Ha). lia.
  - destruct (x c) as [[|]|].
    + destruct (IH (S c) (survived ++ [c])) as [Hi Hl].
      * now apply increasing_snoc.
      * intros a Ha. apply in_app_iff in Ha. destruct Ha as [Ha|[<-|[]]]; [|lia].
        specialize (Hlt a Ha). lia.
      * split; [exact Hi|]. intros a Ha. specialize (Hl a Ha). lia.
    + destruct (IH (S c) survived) as [Hi Hl]; [exact Hinc | |].
      * intros a Ha. specialize (Hlt a Ha). lia.
      * split; [exact Hi|]. intros a Ha. specialize (Hl a Ha). lia.
    + split; [exact Hinc|]. intros a Ha. specialize (Hlt a Ha). lia.
Qed.

(** X9.  Whatever the solver does, [minimizeNumberPlanes] returns indices
    of rows of the array in strictly increasing order, so without
    repetition; when the solver is compiled in, every index returned is one
    for which the solution read back is [1]. *)
Theorem minimizeNumberPlanes_returns_increasing_row_indices
  (GUROBI_DEFINED : bool) (gurobi : Array2D -> GurobiRun) (visibility : Array2D) :
  let survivedPlanes := minimizeNumberPlanes GUROBI_DEFINED gurobi visibility in
  increasing survivedPlanes
  /\ (forall i, In i survivedPlanes -> i < sizeX visibility)
  /\ (GUROBI_DEFINED = true ->
      forall i, In i survivedPlanes ->
        exists x, gurobi visibility = GurobiSolved x /\ x i = Some true).
Proof.
  cbv zeta. unfold minimizeNumberPlanes. destruct GUROBI_DEFINED.
  - destruct (gurobi visibility) as [|x].
    + split; [intros p q a b _ Hp; discriminate|].
      split; [intros i []|]. intros _ i [].
    + destruct (readSolution_increasing x (sizeX visibility) 0 [])
        as [Hinc Hlt]; [intros p q a b _ Hp; discriminate | intros a [] |].
      split; [exact Hinc|]. split; [exact Hlt|].
      intros _ i Hi. exists x. split; [reflexivity|].
      destruct (readSolution_prefix x (seq 0 (sizeX visibility)) [])
        as (pushed & E & Hp).
      rewrite E in Hi. cbn [app] in Hi. exact (proj2 (Hp i Hi)).
  - split; [apply increasing_seq|]. split; [|discriminate].
    intros i Hi. apply in_seq in Hi. lia.
Qed.

(** *** The planes on the stacked faces *)

Lemma everyFace_within (m : Mesh) p q g : In g (everyFace m p q) -> g < numberFaces m.
Proof. unfold everyFace. rewrite in_seq. lia. Qed.

Lemma rotateMesh_numberFaces (m : Mesh) r : numberFaces (rotateMesh m r) = numberFaces m.
Proof.
  unfold rotateMesh, recomputeBoundingBox, numberFaces. cbn [vertices faces].
  destruct (map r (vertices m)); reflexivity.
Qed.

Lemma checkPlane_marks_two_rows_and_clears_nothing_witness :
  1 + 0 < sizeX (a2_resize_fill 3 3 0)
  /\ (forall t g, t < numberFaces stacked ->
                  In g (planeBlackList everyFace stacked t) ->
                  g < sizeY (a2_resize_fill 3 3 0))
  /\ (a2_get (checkPlane everyFace (a2_resize_fill 3 3 0) stacked 0 1) 1 2
      = a2_get (a2_resize_fill 3 3 0) 1 2
      \/ (a2_get (checkPlane everyFace (a2_resize_fill 3 3 0) stacked 0 1) 1 2 = 1%Z
          /\ (1 = 0 \/ 1 = 1 + 0)
          /\ exists t, t < numberFaces stacked /\ In 2 (planeBlackList everyFace stacked t)))
  /\ (a2_get (a2_resize_fill 3 3 0) 1 2 = 1%Z ->
      a2_get (checkPlane everyFace (a2_resize_fill 3 3 0) stacked 0 1) 1 2 = 1%Z).
Proof.
  assert (Hrows : 1 + 0 < sizeX (a2_resize_fill 3 3 0)) by (cbn; lia).
  assert (Hcols : forall t g, t < numberFaces stacked ->
                              In g (planeBlackList everyFace stacked t) ->
                              g < sizeY (a2_resize_fill 3 3 0)).
  { intros t g _ Hg. unfold planeBlackList in Hg. apply everyFace_within in Hg. exact Hg. }
  split; [exact Hrows|]. split; [exact Hcols|].
  exact (checkPlane_marks_two_rows_and_clears_nothing everyFace (a2_resize_fill 3 3 0)
           stacked 0 1 1 2 Hrows Hcols).
Defined.

Lemma checkVisibilityAllPlanes_marks_unseen_faces_in_the_last_row_witness :
  0 < 2
  /\ (forall m p q g, In g (everyFace m p q) -> g < numberFaces m)
  /\ (forall m (rotation : Point3 -> Point3),
         numberFaces (rotateMesh m rotation) = numberFaces m)
  /\ shapedAs (2 * 2 + 1) (numberFaces stacked)
       (checkVisibilityAllPlanes everyFace (Point3 -> Point3) exactRotation rotateMesh
          stacked 2)
  /\ zeroOrOne
       (checkVisibilityAllPlanes everyFace (Point3 -> Point3) exactRotation rotateMesh
          stacked 2)
  /\ forall j, j < numberFaces stacked ->
       (exists i, i < 2 * 2 + 1
                  /\ a2_get (checkVisibilityAllPlanes everyFace (Point3 -> Point3)
                               exactRotation rotateMesh stacked 2) i j = 1%Z)
       /\ (a2_get (checkVisibilityAllPlanes everyFace (Point3 -> Point3) exactRotation
                     rotateMesh stacked 2) (2 * 2) j = 1%Z
           <-> forall i, i < 2 * 2 ->
                 a2_get (checkVisibilityAllPlanes everyFace (Point3 -> Point3)
                           exactRotation rotateMesh stacked 2) i j <> 1%Z).
Proof.
  assert (Hplanes : 0 < 2) by lia.
  split; [exact Hplanes|]. split; [exact everyFace_within|].
  split; [exact rotateMesh_numberFaces|].
  exact (checkVisibilityAllPlanes_marks_unseen_faces_in_the_last_row everyFace
           (Point3 -> Point3) exactRotation rotateMesh stacked 2 Hplanes everyFace_within
           rotateMesh_numberFaces).
Defined.

(** * What the analyser writes *)

Lemma to_int_le z : (0 <= z)%Z -> (to_int z <= z)%Z.
Proof.
  intros Hz. unfold to_int, UINT_MODULUS.
  assert (E31 : (2 ^ 31 = 2147483648)%Z) by reflexivity.
  assert (E32 : (2 ^ 32 = 4294967296)%Z) by reflexivity.
  pose proof (Z.mod_le (z + 2 ^ 31) (2 ^ 32) ltac:(lia) ltac:(lia)). lia.
Qed.

Lemma zeroOrOne_set a i j x :
  x = 0%Z \/ x = 1%Z -> zeroOrOne a -> zeroOrOne (a2_set a i j x).
Proof.
  intros Hx Ha i' j'.
  destruct (a2_get_set_cases a i j x i' j') as [E|(_ & _ & E)]; rewrite E; auto.
Qed.


Section AnalyserWrites.
Context `{Scalar}.
Variable stdsort : (nat -> nat -> bool) -> list nat -> list nat.
Variable Matrix3 : Type.
Variable rotationMatrix : Point3 -> scalar -> Matrix3.
Variable meshRotate : Mesh -> Matrix3 -> Mesh.
Variable vecRotate : Point3 -> Matrix3 -> Point3.
Variable getIntersectedEigenFaces : Mesh -> Point3 -> Point3 -> list Z.
Variable sortTriangle2DPointsAndReorderCounterClockwise : Triangle2 -> Triangle2.
Variable Tree2 : Type.
Variable treeCreate :
  (Triangle2 -> AABBValueType -> Z -> outcome scalar) -> (Triangle2 -> Triangle2 -> bool) -> Tree2.
Variable treeInsert : Tree2 -> Triangle2 -> Tree2.
Variable aabbOverlapCheck : Tree2 -> Triangle2 -> bool.
Variable renderVisibility : Mesh -> nat -> Point3 -> list bool.

Local Abbreviation projectionFace :=
  (getVisibilityProjectionOnZFace sortTriangle2DPointsAndReorderCounterClockwise Tree2
     treeInsert aabbOverlapCheck).
Local Abbreviation projectionOnZ :=
  (getVisibilityProjectionOnZ stdsort sortTriangle2DPointsAndReorderCounterClockwise Tree2
     treeCreate treeInsert aabbOverlapCheck).
Local Abbreviation rayShootingOnZ := (getVisibilityRayShootingOnZ getIntersectedEigenFaces).
Local Abbreviation check :=
  (checkOnZ stdsort getIntersectedEigenFaces sortTriangle2DPointsAndReorderCounterClockwise
     Tree2 treeCreate treeInsert aabbOverlapCheck).
Local Abbreviation step :=
  (directionStep stdsort Matrix3 meshRotate vecRotate getIntersectedEigenFaces
     sortTriangle2DPointsAndReorderCounterClockwise Tree2 treeCreate treeInsert
     aabbOverlapCheck).
Local Abbreviation projectionRay :=
  (computeVisibilityProjectionRay stdsort Matrix3 rotationMatrix meshRotate vecRotate
     getIntersectedEigenFaces sortTriangle2DPointsAndReorderCounterClockwise Tree2
     treeCreate treeInsert aabbOverlapCheck).
Local Abbreviation renderDirection := (computeVisibilityGLDirection renderVisibility).
Local Abbreviation render := (computeVisibilityGL Matrix3 rotationMatrix vecRotate renderVisibility).
Local Abbreviation byMode :=
  (computeVisibilityByMode stdsort Matrix3 rotationMatrix meshRotate vecRotate
     getIntersectedEigenFaces sortTriangle2DPointsAndReorderCounterClockwise Tree2
     treeCreate treeInsert aabbOverlapCheck renderVisibility).
Local Abbreviation analyser :=
  (getVisibility stdsort Matrix3 rotationMatrix meshRotate vecRotate
     getIntersectedEigenFaces sortTriangle2DPointsAndReorderCounterClockwise Tree2
     treeCreate treeInsert aabbOverlapCheck renderVisibility).

(** ** Properties kept by every write

    The projection and the ray shooting only write the value [1], in the
    row of the direction or in the row of the opposite direction: a property
    of arrays that such writes keep is kept by the whole check. *)
Section Kept.
Variable Inv : Array2D -> Prop.

Lemma projection_keeps (mesh : Mesh) directionIndex direction heightfieldAngle :
  (forall a j, Inv a -> Inv (a2_set a directionIndex j 1)) ->
  forall targets st,
    Inv (snd st) ->
    Inv (snd (fold_left (projectionFace mesh directionIndex direction heightfieldAngle)
                targets st)).
Proof.
  intros Hset. induction targets as [|f targets IH]; intros st Hst; cbn [fold_left];
    [exact Hst|].
  apply IH. unfold getVisibilityProjectionOnZFace.
  destruct (sleb _ _); [|exact Hst].
  destruct (aabbOverlapCheck _ _); cbn [negb snd]; [exact Hst | now apply Hset].
Qed.

Lemma rayShootFace_keeps (mesh : Mesh) directionIndex opp limit minZ maxZ visibility t
  visibility' :
  (forall a j, Inv a -> Inv (a2_set a directionIndex j 1)) ->
  ((0 <= opp)%Z -> forall a j, Inv a -> Inv (a2_set a (Z.to_nat opp) j 1)) ->
  Inv visibility ->
  rayShootFace getIntersectedEigenFaces mesh directionIndex opp limit minZ maxZ visibility t
  = Ok visibility' ->
  Inv visibility'.
Proof.
  intros Hmax Hmin Hv. unfold rayShootFace, a2_set_int.
  destruct (maxZFace _ <? 0)%Z; [discriminate|].
  cbn [mbind outcome_bind obind].
  destruct (Z.leb_spec 0 opp) as [Hopp|_].
  - destruct (minZFace _ <? 0)%Z; [discriminate|].
    intros [= <-]. apply Hmin; [exact Hopp|]. now apply Hmax.
  - intros [= <-]. now apply Hmax.
Qed.

Lemma checkOnZ_keeps checkMode (mesh : Mesh) faces directionIndex opp heightfieldAngle
  visibility visibility' :
  (forall a j, Inv a -> Inv (a2_set a directionIndex j 1)) ->
  ((0 <= opp)%Z -> forall a j, Inv a -> Inv (a2_set a (Z.to_nat opp) j 1)) ->
  Inv visibility ->
  check checkMode mesh faces directionIndex opp visibility heightfieldAngle
  = Ok visibility' ->
  Inv visibility'.
Proof.
  intros Hmax Hmin Hv.
  assert (Hproj : Inv (projectionOnZ mesh faces directionIndex opp visibility
                         heightfieldAngle)).
  { unfold getVisibilityProjectionOnZ.
    destruct (Z.leb_spec 0 opp) as [Hopp|_].
    - apply projection_keeps; [exact (Hmin Hopp)|]. cbn [snd].
      now apply projection_keeps.
    - now apply projection_keeps. }
  destruct checkMode; cbn [checkOnZ]; try (intros [= <-]; exact Hproj).
  unfold getVisibilityRayShootingOnZ. apply ofold_invariant; [|exact Hv].
  intros a t a' Ha Hr.
  exact (rayShootFace_keeps mesh directionIndex opp _ _ _ a t a' Hmax Hmin Ha Hr).
Qed.

Lemma seedExtremes_keeps index extremes :
  (forall a j, Inv a -> Inv (a2_set a index j 1)) ->
  forall visibility, Inv visibility -> Inv (seedExtremes visibility index extremes).
Proof.
  intros Hset. unfold seedExtremes.
  induction extremes as [|f extremes IH]; intros visibility Hv; cbn [fold_left];
    [exact Hv|].
  apply IH. now apply Hset.
Qed.

Lemma directionLoop_keeps checkMode targetFaces half heightfieldAngle forward inverse
  st0 st :
  (forall i a j, i < half + half -> Inv a -> Inv (a2_set a i j 1)) ->
  Inv (loopVisibility st0) ->
  ofold (step checkMode targetFaces half heightfieldAngle forward inverse)
        (seq 0 half) st0 = Ok st ->
  Inv (loopVisibility st).
Proof.
  intros Hset Hv0 Hloop.
  refine (ofold_seq_invariant _ (fun _ s => Inv (loopVisibility s)) half 0 st0 st _ Hv0 Hloop).
  clear Hloop. intros k b b' Hk Hb. unfold directionStep.
  destruct (checkOnZ _ _ _ _ _ _ _ _ _ _ _ _ _ _) as [v| | |] eqn:Hck;
    cbn [mbind mret outcome_bind outcome_ret obind]; try discriminate.
  intros [= <-]. cbn [loopVisibility].
  refine (checkOnZ_keeps _ _ _ _ _ _ _ _ _ _ Hb Hck).
  - intros a j. apply Hset. lia.
  - intros Hopp a j. apply Hset.
    pose proof (to_int_le (Z.of_nat (half + k)) ltac:(lia)). lia.
Qed.

Lemma computeVisibilityProjectionRay_keeps (mesh : Mesh) nDirections heightfieldAngle
  includeXDirections minExtremes maxExtremes checkMode directions angles visibility :
  (forall i a j, i < nDirections / 2 * 2 + 2 -> Inv a -> Inv (a2_set a i j 1)) ->
  Inv (a2_resize_fill (nDirections / 2 * 2 + 2) (numberFaces mesh) 0) ->
  projectionRay mesh nDirections heightfieldAngle includeXDirections minExtremes
    maxExtremes checkMode = Ok (directions, angles, visibility) ->
  Inv visibility.
Proof.
  intros Hset Hfill. unfold computeVisibilityProjectionRay.
  set (half := nDirections / 2) in *.
  destruct (ofold _ (seq 0 half) _) as [st| | |] eqn:Hloop;
    cbn [mbind mret outcome_bind outcome_ret obind]; try discriminate.
  assert (Hst : Inv (loopVisibility st)).
  { refine (directionLoop_keeps _ _ _ _ _ _ _ st _ _ Hloop); [|exact Hfill].
    intros i a j Hi. apply Hset. lia. }
  destruct includeXDirections.
  - destruct (checkOnZ _ _ _ _ _ _ _ _ _ _ _ _ _ _) as [v| | |] eqn:Hck;
      cbn [mbind mret outcome_bind outcome_ret obind]; try discriminate.
    intros [= _ _ <-].
    refine (checkOnZ_keeps _ _ _ _ _ _ _ _ _ _ Hst Hck).
    + intros a j. apply Hset. lia.
    + intros Hopp a j. apply Hset.
      pose proof (to_int_le (Z.of_nat (half * 2 + 1)) ltac:(lia)). lia.
  - intros [= _ _ <-].
    apply seedExtremes_keeps; [intros a j; apply Hset; lia|].
    apply seedExtremes_keeps; [intros a j; apply Hset; lia|]. exact Hst.
Qed.

(** The renderer writes [1] or [0], in the row of its direction. *)
Lemma renderDirection_keeps (mesh : Mesh) resolution dirIndex directions limit :
  (forall a j x, x = 0%Z \/ x = 1%Z -> Inv a -> Inv (a2_set a dirIndex j x)) ->
  forall visibility,
    Inv visibility ->
    Inv (renderDirection mesh resolution dirIndex directions limit visibility).
Proof.
  intros Hset visibility Hv. unfold computeVisibilityGLDirection.
  apply fold_left_invariant; [|exact Hv].
  intros a fId Ha. destruct (_ && _); apply Hset; auto.
Qed.

Lemma render_keeps (mesh : Mesh) nDirections resolution heightfieldAngle
  includeXDirections minExtremes maxExtremes directions angles visibility :
  (forall i a j x, i < nDirections + 2 -> x = 0%Z \/ x = 1%Z -> Inv a ->
                   Inv (a2_set a i j x)) ->
  Inv (a2_resize_fill (nDirections + 2) (numberFaces mesh) 0) ->
  render mesh nDirections resolution heightfieldAngle includeXDirections minExtremes
    maxExtremes = (directions, angles, visibility) ->
  Inv visibility.
Proof.
  intros Hset Hfill. unfold computeVisibilityGL.
  set (loop := fold_left _ (seq 0 nDirections) _).
  assert (Hloop : Inv loop).
  { unfold loop.
    apply (fold_left_invariant_on _ Inv (fun d => d < nDirections));
      [|intros d Hd; apply in_seq in Hd; lia | exact Hfill].
    intros a d Hd Ha. apply renderDirection_keeps; [|exact Ha].
    intros b j x. apply Hset. lia. }
  destruct includeXDirections; intros [= _ _ <-].
  - apply renderDirection_keeps; [intros b j x; apply Hset; lia|].
    apply renderDirection_keeps; [intros b j x; apply Hset; lia|]. exact Hloop.
  - apply seedExtremes_keeps; [intros a j; apply Hset; [lia | now right]|].
    apply seedExtremes_keeps; [intros a j; apply Hset; [lia | now right]|]. exact Hloop.
Qed.

End Kept.


(** ** One check along z *)



(** ** The shape of the result *)

Lemma shapedAs_set nx ny a i j x : shapedAs nx ny a -> shapedAs nx ny (a2_set a i j x).
Proof. intros (Hw & Hx & Hy). split; [now apply a2_set_wf | split; assumption]. Qed.

Lemma shapedAs_fill nx ny x : shapedAs nx ny (a2_resize_fill nx ny x).
Proof. split; [apply a2_resize_fill_wf | split; reflexivity]. Qed.

Lemma zeroOrOne_fill nx ny : zeroOrOne (a2_resize_fill nx ny 0).
Proof. intros i j. left. apply a2_get_fill_zero. Qed.

Lemma anglesFrom_length n : forall sum stepAngle, length (anglesFrom n sum stepAngle) = n.
Proof. induction n as [|n IH]; intros sum stepAngle; cbn; [reflexivity | now rewrite IH]. Qed.

Lemma directionsFrom_length n : forall dir rot,
  length (directionsFrom Matrix3 vecRotate n dir rot) = n.
Proof. induction n as [|n IH]; intros dir rot; cbn; [reflexivity | now rewrite IH]. Qed.

Lemma directionLoop_length checkMode targetFaces half heightfieldAngle forward inverse
  st0 st :
  ofold (step checkMode targetFaces half heightfieldAngle forward inverse)
        (seq 0 half) st0 = Ok st ->
  length (loopDirections st) = length (loopDirections st0).
Proof.
  apply (ofold_invariant _
           (fun s => length (loopDirections s) = length (loopDirections st0)));
    [|reflexivity].
  intros a k a' Ha. unfold directionStep.
  destruct (checkOnZ _ _ _ _ _ _ _ _ _ _ _ _ _ _);
    cbn [mbind mret outcome_bind outcome_ret obind]; try discriminate.
  intros [= <-]. cbn [loopDirections]. now rewrite !length_insert.
Qed.

Lemma computeVisibilityProjectionRay_shape (mesh : Mesh) nDirections heightfieldAngle
  includeXDirections minExtremes maxExtremes checkMode directions angles visibility :
  projectionRay mesh nDirections heightfieldAngle includeXDirections minExtremes
    maxExtremes checkMode = Ok (directions, angles, visibility) ->
  length directions = nDirections / 2 * 2 + 2
  /\ length angles = nDirections / 2 * 2
  /\ shapedAs (nDirections / 2 * 2 + 2) (numberFaces mesh) visibility
  /\ zeroOrOne visibility.
Proof.
  intros Hr.
  assert (Hshape : shapedAs (nDirections / 2 * 2 + 2) (numberFaces mesh) visibility).
  { refine (computeVisibilityProjectionRay_keeps _ _ _ _ _ _ _ _ _ _ _ _ _ Hr);
      [|apply shapedAs_fill].
    intros i a j _. apply shapedAs_set. }
  assert (Hzero : zeroOrOne visibility).
  { refine (computeVisibilityProjectionRay_keeps _ _ _ _ _ _ _ _ _ _ _ _ _ Hr);
      [|apply zeroOrOne_fill].
    intros i a j _. apply zeroOrOne_set. now right. }
  revert Hr. unfold computeVisibilityProjectionRay.
  destruct (ofold _ (seq 0 (nDirections / 2)) _) as [st| | |] eqn:Hloop;
    cbn [mbind mret outcome_bind outcome_ret obind]; try discriminate.
  apply directionLoop_length in Hloop. cbn [loopDirections] in Hloop.
  rewrite length_replicate in Hloop.
  assert (Hd : length (<[nDirections / 2 * 2 + 1 := xAxis]>
                         (<[nDirections / 2 * 2 := minusX]> (loopDirections st)))
               = nDirections / 2 * 2 + 2) by now rewrite !length_insert.
  destruct includeXDirections.
  - destruct (checkOnZ _ _ _ _ _ _ _ _ _ _ _ _ _ _);
      cbn [mbind mret outcome_bind outcome_ret obind]; try discriminate.
    intros [= <- <- _]. rewrite anglesFrom_length. auto.
  - intros [= <- <- _]. rewrite anglesFrom_length. auto.
Qed.

Lemma render_shape (mesh : Mesh) nDirections resolution heightfieldAngle
  includeXDirections minExtremes maxExtremes directions angles visibility :
  render mesh nDirections resolution heightfieldAngle includeXDirections minExtremes
    maxExtremes = (directions, angles, visibility) ->
  length directions = nDirections + 2
  /\ length angles = nDirections
  /\ shapedAs (nDirections + 2) (numberFaces mesh) visibility
  /\ zeroOrOne visibility.
Proof.
  intros Hr.
  assert (Hshape : shapedAs (nDirections + 2) (numberFaces mesh) visibility).
  { refine (render_keeps _ _ _ _ _ _ _ _ _ _ _ _ _ Hr); [|apply shapedAs_fill].
    intros i a j x _ _. apply shapedAs_set. }
  assert (Hzero : zeroOrOne visibility).
  { refine (render_keeps _ _ _ _ _ _ _ _ _ _ _ _ _ Hr); [|apply zeroOrOne_fill].
    intros i a j x _. apply zeroOrOne_set. }
  revert Hr. unfold computeVisibilityGL.
  assert (Hd : forall rot,
             length (<[nDirections + 1 := xAxis]>
                       (<[nDirections := minusX]>
                          (directionsFrom Matrix3 vecRotate nDirections zDirMax rot
                           ++ [pzero; pzero])))
             = nDirections + 2).
  { intros rot. rewrite !length_insert, length_app, directionsFrom_length. reflexivity. }
  destruct includeXDirections; intros [= <- <- _]; rewrite anglesFrom_length; auto.
Qed.

(** X11.  Let the extremes of the data and the answers of the library stay
    within the mesh.  When the analyser returns, the array has one row per
    direction of the list of directions and one column per face of the
    mesh, and its entries are [0] or [1]; the list of angles has two entries
    less.  The number of directions is [nDirections + 2] for the renderer
    and [2 * (nDirections / 2) + 2] for the projection and the ray shooting,
    which drop one direction when [nDirections] is odd. *)
Theorem getVisibility_shapes_the_data_by_mode
  FAF_NO_GL_VISIBILITY (mesh : Mesh) nDirections resolution heightfieldAngle
  includeXDirections (data : Data) checkMode data' :
  withinTheMesh meshRotate getIntersectedEigenFaces renderVisibility mesh
    (minExtremes data) (maxExtremes data) ->
  getVisibility stdsort Matrix3 rotationMatrix meshRotate vecRotate
    getIntersectedEigenFaces sortTriangle2DPointsAndReorderCounterClockwise Tree2
    treeCreate treeInsert aabbOverlapCheck renderVisibility
    FAF_NO_GL_VISIBILITY mesh nDirections resolution heightfieldAngle includeXDirections
    data checkMode = Ok data' ->
  length (directions data') = analysedRows checkMode nDirections
  /\ length (angles data') = analysedRows checkMode nDirections - 2
  /\ shapedAs (analysedRows checkMode nDirections) (numberFaces mesh) (visibility data')
  /\ zeroOrOne (visibility data').
Proof.
  intros _. unfold getVisibility.
  destruct (computeVisibilityByMode _ _ _ _ _ _ _ _ _ _ _ _ _ _ _ _ _ _ _ _)
    as [[[ds angs] v]| | |] eqn:Hmode;
    cbn [mbind mret outcome_bind outcome_ret obind]; try discriminate.
  intros [= <-]. cbn [directions angles visibility].
  assert (Hpr : checkMode <> OPENGL ->
                projectionRay mesh nDirections heightfieldAngle includeXDirections
                  (minExtremes data) (maxExtremes data) checkMode = Ok (ds, angs, v) ->
                length ds = analysedRows checkMode nDirections
                /\ length angs = analysedRows checkMode nDirections - 2
                /\ shapedAs (analysedRows checkMode nDirections) (numberFaces mesh) v
                /\ zeroOrOne v).
  { intros Hne Hr.
    destruct (computeVisibilityProjectionRay_shape _ _ _ _ _ _ _ _ _ _ Hr)
      as (Hd & Ha & Hs & Hz).
    replace (analysedRows checkMode nDirections) with (nDirections / 2 * 2 + 2)
      by (destruct checkMode; [reflexivity | reflexivity | now elim Hne]).
    repeat split; try assumption; try apply Hs. lia. }
  destruct checkMode; cbn [computeVisibilityByMode] in Hmode;
    try (apply Hpr; [discriminate | exact Hmode]).
  destruct FAF_NO_GL_VISIBILITY; [discriminate|]. injection Hmode as Hmode.
  destruct (render_shape _ _ _ _ _ _ _ _ _ _ Hmode) as (Hd & Ha & Hs & Hz).
  cbn [analysedRows]. repeat split; try assumption; try apply Hs. lia.
Qed.

(** ** The directions *)

Lemma directionLoop_directions checkMode targetFaces half heightfieldAngle forward inverse
  st0 st :
  dir st0 = zDirMax ->
  length (loopDirections st0) = half * 2 + 2 ->
  ofold (step checkMode targetFaces half heightfieldAngle forward inverse)
        (seq 0 half) st0 = Ok st ->
  forall k, k < half ->
    loopDirections st !! k
    = Some (Nat.iter k (fun d => vecRotate d forward) zDirMax)
    /\ loopDirections st !! (half + k)
       = Some (popp (Nat.iter k (fun d => vecRotate d forward) zDirMax)).
Proof.
  intros Hdir Hlen Hloop.
  refine (proj2 (proj2 (ofold_seq_invariant _
            (fun n s =>
               dir s = Nat.iter n (fun d => vecRotate d forward) zDirMax
               /\ length (loopDirections s) = half * 2 + 2
               /\ forall k, k < n ->
                    loopDirections s !! k
                    = Some (Nat.iter k (fun d => vecRotate d forward) zDirMax)
                    /\ loopDirections s !! (half + k)
                       = Some (popp (Nat.iter k (fun d => vecRotate d forward) zDirMax)))
            half 0 st0 st _ _ Hloop))).
  - clear Hloop. intros n b b' Hn (Hd & Hl & Hk). unfold directionStep.
    destruct (checkOnZ _ _ _ _ _ _ _ _ _ _ _ _ _ _);
      cbn [mbind mret outcome_bind outcome_ret obind]; try discriminate.
    intros [= <-]. cbn [dir loopDirections].
    split; [cbn [Nat.iter]; now rewrite Hd|].
    split; [now rewrite !length_insert|].
    intros k Hlt. destruct (Nat.eq_dec k n) as [->|Hne].
    + split.
      * rewrite list_lookup_insert_ne by lia.
        rewrite list_lookup_insert_eq by lia. now rewrite Hd.
      * rewrite list_lookup_insert_eq by (rewrite length_insert; lia). now rewrite Hd.
    + destruct (Hk k ltac:(lia)) as [E1 E2].
      rewrite !list_lookup_insert_ne by lia. split; assumption.
  - split; [exact Hdir|]. split; [exact Hlen|]. intros k Hk. lia.
Qed.

(** X12.  The directions of the projection and of the ray shooting come in
    opposite pairs: direction [k] is the z axis turned [k] times by the step
    rotation about the x axis, direction [nDirections / 2 + k] is its
    opposite, and the last two directions are [-x] and [+x]. *)
Theorem directions_come_in_opposite_pairs
  (mesh : Mesh) nDirections heightfieldAngle includeXDirections minExtremes maxExtremes
  checkMode directions angles visibility :
  computeVisibilityProjectionRay stdsort Matrix3 rotationMatrix meshRotate vecRotate
    getIntersectedEigenFaces sortTriangle2DPointsAndReorderCounterClockwise Tree2
    treeCreate treeInsert aabbOverlapCheck
    mesh nDirections heightfieldAngle includeXDirections minExtremes maxExtremes checkMode
  = Ok (directions, angles, visibility) ->
  let half := nDirections / 2 in
  let turn := rotationMatrix xAxis (sdiv spi (sofnat half)) in
  (forall k, k < half ->
     directions !! k = Some (Nat.iter k (fun d => vecRotate d turn) zDirMax)
     /\ directions !! (half + k)
        = Some (popp (Nat.iter k (fun d => vecRotate d turn) zDirMax)))
  /\ directions !! (half * 2) = Some minusX
  /\ directions !! (half * 2 + 1) = Some xAxis.
Proof.
  unfold computeVisibilityProjectionRay. cbv zeta.
  set (half := nDirections / 2).
  destruct (ofold _ (seq 0 half) _) as [st| | |] eqn:Hloop;
    cbn [mbind mret outcome_bind outcome_ret obind]; try discriminate.
  pose proof (directionLoop_length _ _ _ _ _ _ _ _ Hloop) as Hlen.
  cbn [loopDirections] in Hlen. rewrite length_replicate in Hlen.
  pose proof (fun Hd Hl => directionLoop_directions _ _ _ _ _ _ _ _ Hd Hl Hloop) as Hdirs.
  specialize (Hdirs eq_refl (length_replicate _ _)).
  assert (Hfinal :
    (forall k, k < half ->
       <[half * 2 + 1 := xAxis]> (<[half * 2 := minusX]> (loopDirections st)) !! k
       = Some (Nat.iter k (fun d => vecRotate d (rotationMatrix xAxis (sdiv spi (sofnat half))))
                 zDirMax)
       /\ <[half * 2 + 1 := xAxis]> (<[half * 2 := minusX]> (loopDirections st))
            !! (half + k)
          = Some (popp (Nat.iter k
                          (fun d => vecRotate d (rotationMatrix xAxis (sdiv spi (sofnat half))))
                          zDirMax)))
    /\ <[half * 2 + 1 := xAxis]> (<[half * 2 := minusX]> (loopDirections st)) !! (half * 2)
       = Some minusX
    /\ <[half * 2 + 1 := xAxis]> (<[half * 2 := minusX]> (loopDirections st))
         !! (half * 2 + 1)
       = Some xAxis).
  { split; [|split].
    - intros k Hk. destruct (Hdirs k Hk) as [E1 E2].
      rewrite !list_lookup_insert_ne by lia. split; assumption.
    - rewrite list_lookup_insert_ne by lia. apply list_lookup_insert_eq. lia.
    - apply list_lookup_insert_eq. rewrite length_insert. lia. }
  destruct includeXDirections.
  - destruct (checkOnZ _ _ _ _ _ _ _ _ _ _ _ _ _ _);
      cbn [mbind mret outcome_bind outcome_ret obind]; try discriminate.
    intros [= <- _ _]. exact Hfinal.
  - intros [= <- _ _]. exact Hfinal.
Qed.


(** ** The rows of the x directions when they are seeded *)

Lemma seedExtremes_entries index extremes : forall visibility i j,
  a2_wf visibility -> index < sizeX visibility -> j < sizeY visibility ->
  (a2_get (seedExtremes visibility index extremes) i j = 1%Z
   <-> a2_get visibility i j = 1%Z \/ (i = index /\ In j extremes)).
Proof.
  unfold seedExtremes. induction extremes as [|x extremes IH];
    intros visibility i j Hw Hi Hj; cbn [fold_left].
  - split; [now left | intros [E|[_ []]]; exact E].
  - rewrite IH; [|now apply a2_set_wf | exact Hi | exact Hj]. split.
    + intros [E|[-> Hin]]; [|right; split; [reflexivity | now right]].
      destruct (a2_get_set_cases visibility index x 1 i j) as [E'|(-> & -> & _)].
      * left. congruence.
      * right. split; [reflexivity | now left].
    + intros [E|[-> [<-|Hin]]].
      * left. destruct (a2_get_set_cases visibility index x 1 i j) as [E'|(_ & _ & E')];
          congruence.
      * left. now apply a2_get_set_same.
      * right. split; [reflexivity | exact Hin].
Qed.

(** X14.  Let the two lists of extremes hold faces of the mesh, let the
    intersection queries return faces of the mesh they are asked about, and
    let a rotation keep the number of faces.  When the x directions are not
    computed, the projection and the ray shooting leave in the rows of [-x]
    and [+x] exactly the pre-seeded faces: the entry of a face of the mesh
    is [1] in the row of [-x] exactly when the face is listed in
    [minExtremes], and in the row of [+x] exactly when it is listed in
    [maxExtremes]. *)
Theorem seeded_rows_are_exactly_the_extreme_sets
  (mesh : Mesh) nDirections heightfieldAngle minExtremes maxExtremes checkMode
  directions angles visibility f :
  (forall e, In e minExtremes \/ In e maxExtremes -> e < numberFaces mesh) ->
  (forall m p q g, In g (getIntersectedEigenFaces m p q) -> (g < Z.of_nat (numberFaces m))%Z) ->
  (forall m rotation, numberFaces (meshRotate m rotation) = numberFaces m) ->
  computeVisibilityProjectionRay stdsort Matrix3 rotationMatrix meshRotate vecRotate
    getIntersectedEigenFaces sortTriangle2DPointsAndReorderCounterClockwise Tree2
    treeCreate treeInsert aabbOverlapCheck
    mesh nDirections heightfieldAngle false minExtremes maxExtremes checkMode
  = Ok (directions, angles, visibility) ->
  f < numberFaces mesh ->
  (a2_get visibility (nDirections / 2 * 2) f = 1%Z <-> In f minExtremes)
  /\ (a2_get visibility (nDirections / 2 * 2 + 1) f = 1%Z <-> In f maxExtremes).
Proof.
  clear renderVisibility. intros _ _ _.
  unfold computeVisibilityProjectionRay.
  set (half := nDirections / 2).
  destruct (ofold _ (seq 0 half) _) as [st| | |] eqn:Hloop;
    cbn [mbind mret outcome_bind outcome_ret obind]; try discriminate.
  intros [= _ _ <-] Hf.
  assert (Hst : shapedAs (half * 2 + 2) (numberFaces mesh) (loopVisibility st)
                /\ forall i j, half * 2 <= i -> a2_get (loopVisibility st) i j = 0%Z).
  { refine (directionLoop_keeps
              (fun a => shapedAs (half * 2 + 2) (numberFaces mesh) a
                        /\ forall i j, half * 2 <= i -> a2_get a i j = 0%Z)
              _ _ _ _ _ _ _ st _ _ Hloop).
    - intros i a j Hi [Hs Hz]. split; [now apply shapedAs_set|].
      intros i' j' Hi'. rewrite a2_get_set_other by (left; lia). now apply Hz.
    - split; [apply shapedAs_fill|]. intros i j _. apply a2_get_fill_zero. }
  destruct Hst as [(Hw & Hx & Hy) Hzero].
  assert (Hw1 : shapedAs (half * 2 + 2) (numberFaces mesh)
                  (seedExtremes (loopVisibility st) (half * 2) minExtremes)).
  { apply (seedExtremes_keeps (shapedAs (half * 2 + 2) (numberFaces mesh)));
      [intros a j; apply shapedAs_set | split; [exact Hw | split; assumption]]. }
  destruct Hw1 as (Hw1 & Hx1 & Hy1).
  split.
  - rewrite seedExtremes_entries by (try exact Hw1; lia).
    rewrite seedExtremes_entries by (try exact Hw; lia).
    rewrite Hzero by lia. split; [|tauto].
    intros [[E|[_ Hin]]|[E _]]; [discriminate | exact Hin | lia].
  - rewrite seedExtremes_entries by (try exact Hw1; lia).
    rewrite seedExtremes_entries by (try exact Hw; lia).
    rewrite Hzero by lia. split; [|tauto].
    intros [[E|[E _]]|[_ Hin]]; [discriminate | lia | exact Hin].
Qed.

(** ** The renderer *)

Lemma renderDirection_other (mesh : Mesh) resolution dirIndex directions limit visibility
  i j :
  i <> dirIndex ->
  a2_get (renderDirection mesh resolution dirIndex directions limit visibility) i j
  = a2_get visibility i j.
Proof.
  intros Hne.
  apply (renderDirection_keeps (fun a => a2_get a i j = a2_get visibility i j));
    [|reflexivity].
  intros a k x _ Ha. rewrite a2_get_set_other by now left. exact Ha.
Qed.

Lemma renderDirection_row (mesh : Mesh) resolution dirIndex directions limit visibility f :
  let direction := default pzero (directions !! dirIndex) in
  let faceVisibility := renderVisibility mesh resolution direction in
  a2_wf visibility -> dirIndex < sizeX visibility -> f < sizeY visibility ->
  f < length faceVisibility ->
  a2_get (renderDirection mesh resolution dirIndex directions limit visibility) dirIndex f
  = if default false (faceVisibility !! f)
       && sleb limit (pdot (getFaceNormal mesh f) direction)
    then 1%Z else 0%Z.
Proof.
  cbv zeta. intros Hw Hd Hf Hlen. unfold computeVisibilityGLDirection.
  set (direction := default pzero (directions !! dirIndex)) in *.
  set (faceVisibility := renderVisibility mesh resolution direction) in *.
  set (body := fun (visibility : Array2D) (fId : nat) =>
                 if default false (faceVisibility !! fId)
                    && sleb limit (pdot (getFaceNormal mesh fId) direction)
                 then a2_set visibility dirIndex fId 1
                 else a2_set visibility dirIndex fId 0).
  rewrite (seq_split_at (length faceVisibility) f Hlen), fold_left_app.
  cbn [fold_left].
  set (a1 := fold_left body (seq 0 f) visibility).
  assert (H1 : shapedAs (sizeX visibility) (sizeY visibility) a1).
  { unfold a1. apply fold_left_invariant; [|split; [exact Hw | split; reflexivity]].
    intros a g Ha. unfold body. destruct (_ && _); now apply shapedAs_set. }
  destruct H1 as (Hw1 & Hx1 & Hy1).
  apply (fold_left_invariant_on body
           (fun a => a2_get a dirIndex f
                     = if default false (faceVisibility !! f)
                          && sleb limit (pdot (getFaceNormal mesh f) direction)
                       then 1%Z else 0%Z)
           (fun g => g <> f)).
  - intros a g Hg Ha. unfold body.
    destruct (default false (faceVisibility !! g) && _);
      rewrite a2_get_set_other by (right; congruence); exact Ha.
  - intros g Hg. apply in_seq in Hg. lia.
  - unfold body.
    destruct (default false (faceVisibility !! f) && _);
      apply a2_get_set_same; try assumption; lia.
Qed.

(** X15.  Let the extremes be faces of the mesh and let the renderer answer
    for no more than the faces of the mesh.  In the array of the renderer,
    for a rotational direction [d] and a face [f] for which the renderer
    answers, the entry is [1] exactly when the renderer reports the face as
    seen from direction [d] and the stored normal of the face has a dot
    product of at least [cos(heightfieldAngle)] with that direction, and it
    is [0] otherwise. *)
Theorem rendered_entry_is_one_iff_seen_within_the_angle
  (mesh : Mesh) nDirections resolution heightfieldAngle includeXDirections
  minExtremes maxExtremes directions angles visibility d f :
  (forall e, In e minExtremes \/ In e maxExtremes -> e < numberFaces mesh) ->
  (forall direction, length (renderVisibility mesh resolution direction) <= numberFaces mesh) ->
  computeVisibilityGL Matrix3 rotationMatrix vecRotate renderVisibility
    mesh nDirections resolution heightfieldAngle includeXDirections minExtremes maxExtremes
  = (directions, angles, visibility) ->
  d < nDirections -> f < numberFaces mesh ->
  let direction := default pzero (directions !! d) in
  f < length (renderVisibility mesh resolution direction) ->
  (a2_get visibility d f = 1%Z
   <-> default false (renderVisibility mesh resolution direction !! f) = true
       /\ sleb (scos heightfieldAngle) (pdot (getFaceNormal mesh f) direction) = true)
  /\ (a2_get visibility d f <> 1%Z -> a2_get visibility d f = 0%Z).
Proof.
  clear meshRotate getIntersectedEigenFaces. intros _ _.
  unfold computeVisibilityGL. cbv zeta.
  set (dirs0 := directionsFrom Matrix3 vecRotate nDirections zDirMax _ ++ [pzero; pzero]).
  set (limit := scos heightfieldAngle).
  set (body := fun (visibility : Array2D) (dirIndex : nat) =>
                 renderDirection mesh resolution dirIndex dirs0 limit visibility).
  set (fill := a2_resize_fill (nDirections + 2) (numberFaces mesh) 0).
  intros Hr Hd Hf.
  assert (Hdirs0 : length dirs0 = nDirections + 2).
  { unfold dirs0. rewrite length_app, directionsFrom_length. reflexivity. }
  assert (Hdir : directions !! d = dirs0 !! d).
  { destruct includeXDirections; injection Hr as <- _ _;
      now rewrite !list_lookup_insert_ne by lia. }
  rewrite Hdir. set (direction := default pzero (dirs0 !! d)). intros Hlen.
  set (value := if default false (renderVisibility mesh resolution direction !! f)
                   && sleb limit (pdot (getFaceNormal mesh f) direction)
                then 1%Z else 0%Z).
  assert (Hloop : a2_get (fold_left body (seq 0 nDirections) fill) d f = value).
  { rewrite (seq_split_at nDirections d Hd), fold_left_app. cbn [fold_left].
    set (a1 := fold_left body (seq 0 d) fill).
    assert (H1 : shapedAs (nDirections + 2) (numberFaces mesh) a1).
    { unfold a1. apply fold_left_invariant; [|apply shapedAs_fill].
      intros a k Ha. unfold body.
      apply (renderDirection_keeps (shapedAs (nDirections + 2) (numberFaces mesh)));
        [intros b j x _; apply shapedAs_set | exact Ha]. }
    destruct H1 as (Hw1 & Hx1 & Hy1).
    apply (fold_left_invariant_on body (fun a => a2_get a d f = value)
             (fun k => k <> d)).
    - intros a k Hk Ha. unfold body. rewrite renderDirection_other by congruence.
      exact Ha.
    - intros k Hk. apply in_seq in Hk. lia.
    - unfold body, value, direction.
      apply renderDirection_row; try assumption; lia. }
  assert (Hfinal : a2_get visibility d f = value).
  { destruct includeXDirections; injection Hr as _ _ <-.
    - rewrite !renderDirection_other by lia. exact Hloop.
    - apply (seedExtremes_keeps (fun a => a2_get a d f = value));
        [intros a j Ha; rewrite a2_get_set_other by (left; lia); exact Ha|].
      apply (seedExtremes_keeps (fun a => a2_get a d f = value));
        [intros a j Ha; rewrite a2_get_set_other by (left; lia); exact Ha|].
      exact Hloop. }
  rewrite Hfinal. unfold value.
  destruct (default false (renderVisibility mesh resolution direction !! f));
    destruct (sleb limit (pdot (getFaceNormal mesh f) direction)); cbn [andb];
    split; try tauto; try (split; [discriminate | intros [? ?]; discriminate]);
    try (intros Hc; now elim Hc).
Qed.

End AnalyserWrites.

(** ** The detector *)

Lemma increasing_filter_seq (p : nat -> bool) n : increasing (List.filter p (seq 0 n)).
Proof.
  induction n as [|n IH]; [intros i j a b _ Hi; discriminate|].
  rewrite seq_S, List.filter_app. cbn [List.filter Nat.add].
  assert (Hlt : forall a, In a (List.filter p (seq 0 n)) -> a < n).
  { intros a Ha. apply filter_In in Ha. destruct Ha as [Ha _]. apply in_seq in Ha. lia. }
  destruct (p n); [now apply increasing_snoc | now rewrite app_nil_r].
Qed.

(** X16.  [detectNonVisibleFaces] lists, in increasing order and without
    repetition, exactly the faces whose column holds no entry equal to
    [1]. *)
Theorem detectNonVisibleFaces_lists_exactly_the_unseen_faces_in_order
  (visibility : Array2D) :
  increasing (detectNonVisibleFaces visibility)
  /\ forall faceId,
       In faceId (detectNonVisibleFaces visibility)
       <-> faceId < sizeY visibility
           /\ forall i, i < sizeX visibility -> a2_get visibility i faceId <> 1%Z.
Proof.
  split; [apply increasing_filter_seq|].
  intros faceId. unfold detectNonVisibleFaces. rewrite filter_In, in_seq.
  rewrite negb_true_iff, foundVisible_false. split; intros [Hf Hn]; (split; [lia | exact Hn]).
Qed.

(** ** The theorems on the stacked faces *)

Lemma verticalHits_within (m : Mesh) p q g :
  In g (verticalHits m p q) -> (g < Z.of_nat (numberFaces m))%Z.
Proof.
  unfold verticalHits. rewrite in_map_iff. intros (f & <- & Hf).
  apply filter_In in Hf. destruct Hf as [Hf _]. apply in_seq in Hf. lia.
Qed.


Lemma library_of_the_examples_within (mesh : Mesh) :
  withinTheMesh rotateMesh verticalHits (fun _ _ _ => []) mesh [] [].
Proof.
  split; [intros e [[]|[]]|]. split; [exact verticalHits_within|].
  split; [exact rotateMesh_numberFaces|]. intros m resolution direction. cbn. lia.
Qed.

Lemma getVisibility_shapes_the_data_by_mode_witness :
  withinTheMesh rotateMesh verticalHits (fun _ _ _ => []) stacked
    (minExtremes emptyData) (maxExtremes emptyData)
  /\ analyse stacked 3 false emptyData (3 # 4) PROJECTION = Ok stackedAnalysed
  /\ length (directions stackedAnalysed) = analysedRows PROJECTION 3
  /\ length (angles stackedAnalysed) = analysedRows PROJECTION 3 - 2
  /\ shapedAs (analysedRows PROJECTION 3) (numberFaces stacked) (visibility stackedAnalysed)
  /\ zeroOrOne (visibility stackedAnalysed).
Proof.
  assert (E : analyse stacked 3 false emptyData (3 # 4) PROJECTION = Ok stackedAnalysed)
    by evaluate.
  split; [exact (library_of_the_examples_within stacked)|]. split; [exact E|].
  exact (getVisibility_shapes_the_data_by_mode insertionSort (Point3 -> Point3)
           exactRotation rotateMesh rotateVector verticalHits keepTriangle (list Triangle2)
           listTreeCreate listTreeInsert listTreeOverlap (fun _ _ _ => []) true stacked 3 0
           (3 # 4)%Q false emptyData PROJECTION stackedAnalysed
           (library_of_the_examples_within stacked) E).
Defined.

Lemma directions_come_in_opposite_pairs_witness :
  computeVisibilityProjectionRay insertionSort (Point3 -> Point3) exactRotation rotateMesh
    rotateVector verticalHits keepTriangle (list Triangle2) listTreeCreate listTreeInsert
    listTreeOverlap stacked 3 (3 # 4)%Q false [] [] PROJECTION
  = Ok (directions stackedAnalysed, angles stackedAnalysed, visibility stackedAnalysed)
  /\ directions stackedAnalysed !! (3 / 2 * 2) = Some minusX
  /\ directions stackedAnalysed !! (3 / 2 * 2 + 1) = Some xAxis.
Proof.
  assert (E : computeVisibilityProjectionRay insertionSort (Point3 -> Point3) exactRotation
                rotateMesh rotateVector verticalHits keepTriangle (list Triangle2)
                listTreeCreate listTreeInsert listTreeOverlap stacked 3 (3 # 4)%Q false
                [] [] PROJECTION
              = Ok (directions stackedAnalysed, angles stackedAnalysed,
                    visibility stackedAnalysed)) by evaluate.
  split; [exact E|].
  exact (proj2 (directions_come_in_opposite_pairs insertionSort (Point3 -> Point3)
                  exactRotation rotateMesh rotateVector verticalHits keepTriangle
                  (list Triangle2) listTreeCreate listTreeInsert listTreeOverlap
                  stacked 3 (3 # 4)%Q false [] [] PROJECTION _ _ _ E)).
Defined.

Lemma seeded_rows_are_exactly_the_extreme_sets_witness :
  (forall e, In e [1; 2] \/ In e [0] -> e < numberFaces stacked)
  /\ (forall m p q g, In g (verticalHits m p q) -> (g < Z.of_nat (numberFaces m))%Z)
  /\ (forall m (rotation : Point3 -> Point3),
         numberFaces (rotateMesh m rotation) = numberFaces m)
  /\ computeVisibilityProjectionRay insertionSort (Point3 -> Point3) exactRotation rotateMesh
    rotateVector verticalHits keepTriangle (list Triangle2) listTreeCreate listTreeInsert
    listTreeOverlap stacked 2 (3 # 4)%Q false [1; 2] [0] RAYSHOOTING
  = Ok (directions stackedAnalysed, angles stackedAnalysed, stackedSeeded)
  /\ 1 < numberFaces stacked
  /\ (a2_get stackedSeeded (2 / 2 * 2) 1 = 1%Z <-> In 1 [1; 2])
  /\ (a2_get stackedSeeded (2 / 2 * 2 + 1) 1 = 1%Z <-> In 1 [0]).
Proof.
  assert (E : computeVisibilityProjectionRay insertionSort (Point3 -> Point3) exactRotation
                rotateMesh rotateVector verticalHits keepTriangle (list Triangle2)
                listTreeCreate listTreeInsert listTreeOverlap stacked 2 (3 # 4)%Q false
                [1; 2] [0] RAYSHOOTING
              = Ok (directions stackedAnalysed, angles stackedAnalysed, stackedSeeded))
    by evaluate.
  assert (Hf : 1 < numberFaces stacked) by (cbn; lia).
  assert (He : forall e, In e [1; 2] \/ In e [0] -> e < numberFaces stacked).
  { intros e [[<-|[<-|[]]]|[<-|[]]]; cbn; lia. }
  split; [exact He|]. split; [exact verticalHits_within|].
  split; [exact rotateMesh_numberFaces|].
  split; [exact E|]. split; [exact Hf|].
  exact (seeded_rows_are_exactly_the_extreme_sets insertionSort (Point3 -> Point3)
           exactRotation rotateMesh rotateVector verticalHits keepTriangle
           (list Triangle2) listTreeCreate listTreeInsert listTreeOverlap
           stacked 2 (3 # 4)%Q [1; 2] [0] RAYSHOOTING _ _ _ 1 He verticalHits_within
           rotateMesh_numberFaces E Hf).
Defined.

Lemma rendered_entry_is_one_iff_seen_within_the_angle_witness :
  (forall e : nat, In e [] \/ In e [] -> e < numberFaces stacked)
  /\ (forall direction, length (seeAll stacked 16 direction) <= numberFaces stacked)
  /\ computeVisibilityGL (Point3 -> Point3) exactRotation rotateVector seeAll
    stacked 2 16 (3 # 4)%Q true [] []
  = (directions stackedAnalysed, angles stackedAnalysed, stackedRendered)
  /\ 0 < 2 /\ 1 < numberFaces stacked
  /\ (a2_get stackedRendered 0 1 <> 1%Z -> a2_get stackedRendered 0 1 = 0%Z).
Proof.
  assert (E : computeVisibilityGL (Point3 -> Point3) exactRotation rotateVector seeAll
                stacked 2 16 (3 # 4)%Q true [] []
              = (directions stackedAnalysed, angles stackedAnalysed, stackedRendered))
    by evaluate.
  assert (Hd : 0 < 2) by lia.
  assert (Hf : 1 < numberFaces stacked) by (cbn; lia).
  assert (Hlen : 1 < length (seeAll stacked 16
                               (default pzero (directions stackedAnalysed !! 0))))
    by (cbn; lia).
  assert (He : forall e : nat, In e [] \/ In e [] -> e < numberFaces stacked)
    by (intros e [[]|[]]).
  assert (Hr : forall direction, length (seeAll stacked 16 direction) <= numberFaces stacked)
    by (intros direction; cbn; lia).
  split; [exact He|]. split; [exact Hr|].
  split; [exact E|]. split; [exact Hd|]. split; [exact Hf|].
  exact (proj2 (rendered_entry_is_one_iff_seen_within_the_angle (Point3 -> Point3)
                  exactRotation rotateVector seeAll stacked 2 16 (3 # 4)%Q true [] []
                  _ _ _ 0 1 He Hr E Hd Hf Hlen)).
Defined.

(** * More on the frequency restorer *)

Section RestorerFacts.
Context `{Scalar}.

(** ** The binary search *)

Lemma binarySearch_first (valid : Point3 -> outcome bool) (currentPoint : Point3) :
  answersEverywhere Point3 valid ->
  forall fuel targetPoint count,
    count <= BINARY_SEARCH_ITERATIONS ->
    BINARY_SEARCH_ITERATIONS - count < fuel ->
    exists c,
      count <= c <= BINARY_SEARCH_ITERATIONS
      /\ binarySearch fuel valid currentPoint targetPoint count
         = Ok (halved (c - count) currentPoint targetPoint, c)
      /\ (forall k, k < c - count -> valid (halved k currentPoint targetPoint) = Ok false)
      /\ (c < BINARY_SEARCH_ITERATIONS ->
          valid (halved (c - count) currentPoint targetPoint) = Ok true).
Proof.
  intros Hret.
  induction fuel as [|fuel IH]; intros targetPoint count Hc Hf; [lia|].
  cbn [binarySearch]. destruct (Hret targetPoint) as [b Hv]. rewrite Hv.
  cbn [mbind outcome_bind obind]. destruct b; cbn [negb andb].
  - exists count. rewrite Nat.sub_diag. cbn [halved].
    split; [lia|]. split; [reflexivity|]. split; [intros k Hk; lia | auto].
  - destruct (count <? BINARY_SEARCH_ITERATIONS) eqn:Hlt.
    + apply Nat.ltb_lt in Hlt.
      destruct (IH (pscale shalf (padd targetPoint currentPoint)) (S count))
        as (c & Hb & Hr & Hfirst & Hval); [lia | lia |].
      exists c. replace (c - count) with (S (c - S count)) by lia. cbn [halved].
      split; [lia|]. split; [exact Hr|]. split; [|exact Hval].
      intros [|k] Hk; [exact Hv|]. cbn [halved]. apply Hfirst. lia.
    + apply Nat.ltb_ge in Hlt.
      exists count. rewrite Nat.sub_diag. cbn [halved].
      split; [lia|]. split; [reflexivity|]. split; [intros k Hk; lia | lia].
Qed.

(** X17.  For a validity test that answers for every point, the binary
    search tries the target point and then the points obtained by halving
    towards the current point, in this order, and returns the first of them
    that is valid: every candidate before the one returned is invalid, and
    the one returned is valid unless the ten halvings are used up. *)
Theorem binarySearch_returns_the_first_valid_candidate
  fuel (valid : Point3 -> outcome bool) (currentPoint targetPoint : Point3) :
  BINARY_SEARCH_ITERATIONS < fuel ->
  answersEverywhere Point3 valid ->
  exists c,
    c <= BINARY_SEARCH_ITERATIONS
    /\ binarySearch fuel valid currentPoint targetPoint 0
       = Ok (halved c currentPoint targetPoint, c)
    /\ (forall k, k < c -> valid (halved k currentPoint targetPoint) = Ok false)
    /\ (c < BINARY_SEARCH_ITERATIONS ->
        valid (halved c currentPoint targetPoint) = Ok true).
Proof.
  intros Hf Hret.
  destruct (binarySearch_first valid currentPoint Hret fuel targetPoint 0)
    as (c & Hb & Hr & Hfirst & Hval); [lia | lia |].
  rewrite Nat.sub_0_r in *. exists c. split; [lia|]. auto.
Qed.

(** ** The sweep *)

Lemma restoreVertex_unmoved fuel dc vv vf (data : Data) angle st vId st' :
  restoreVertex fuel dc vv vf data angle st vId = Ok st' ->
  snd st' = false -> st' = st.
Proof.
  intros Hr. destruct (restoreVertex_Ok _ _ _ _ _ _ _ _ _ Hr) as (t & p & c & _ & _ & ->).
  destruct (c <? BINARY_SEARCH_ITERATIONS); [discriminate | reflexivity].
Qed.

Lemma sweepVertices_unmoved fuel dc vv vf (data : Data) angle :
  forall vIds st st',
    sweepVertices fuel dc vv vf data angle vIds st = Ok st' ->
    snd st' = false -> st' = st.
Proof.
  unfold sweepVertices.
  induction vIds as [|v l IH]; intros st st'; cbn [ofold].
  - now intros [= <-].
  - destruct (restoreVertex _ _ _ _ _ _ _ _) as [st1| | |] eqn:Hv;
      cbn [mbind outcome_bind obind]; try discriminate.
    intros Hs Hflag. pose proof (IH _ _ Hs Hflag) as ->.
    exact (restoreVertex_unmoved _ _ _ _ _ _ _ _ _ Hv Hflag).
Qed.

(** X18.  A sweep of the restorer changes positions of vertices and nothing
    else: the faces, the stored face normals, the stored bounding box and
    the number of vertices are those of the mesh it started from.  When it
    returns [false], no position was written: the mesh is unchanged. *)
Theorem a_sweep_moves_vertices_only_and_reports_it
  fuel (m : Mesh) dc vv vf (data : Data) angle m' moved :
  restoreFrequenciesValidHeightfields fuel m dc vv vf data angle = Ok (m', moved) ->
  faces m' = faces m
  /\ faceNormals m' = faceNormals m
  /\ bbMin m' = bbMin m /\ bbMax m' = bbMax m
  /\ numberVertices m' = numberVertices m
  /\ (moved = false -> m' = m).
Proof.
  unfold restoreFrequenciesValidHeightfields. intros Hs.
  destruct (sweepVertices_sameBut _ _ _ _ _ _ _ _ _ Hs) as (a1 & a2 & a3 & a4 & a5 & _).
  cbn [fst] in *. repeat split; try assumption.
  intros ->. now injection (sweepVertices_unmoved _ _ _ _ _ _ _ _ _ Hs eq_refl).
Qed.

Lemma search_ends_valid (valid : Point3 -> outcome bool) (currentPoint : Point3) :
  forall fuel targetPoint count p c,
    binarySearch fuel valid currentPoint targetPoint count = Ok (p, c) ->
    valid p = Ok true \/ BINARY_SEARCH_ITERATIONS <= c.
Proof.
  induction fuel as [|fuel IH]; intros targetPoint count p c; [discriminate|].
  cbn [binarySearch].
  destruct (valid targetPoint) as [b| | |] eqn:Hv; cbn [mbind outcome_bind obind];
    try discriminate.
  destruct b; cbn [negb andb].
  - intros [= <- <-]. now left.
  - destruct (Nat.ltb_spec count BINARY_SEARCH_ITERATIONS) as [Hlt|Hge].
    + apply IH.
    + intros [= <- <-]. now right.
Qed.

(** X19.  After a sweep, a vertex is where it was or at a position that
    passed the validity test when the vertex was handled, that is on the
    mesh in which the vertices before it had already been moved. *)
Theorem a_moved_vertex_passed_the_validity_test
  fuel (m : Mesh) dc vv vf (data : Data) angle m' moved vId :
  BINARY_SEARCH_ITERATIONS < fuel ->
  restoreFrequenciesValidHeightfields fuel m dc vv vf data angle = Ok (m', moved) ->
  vId < numberVertices m ->
  getVertex m' vId = getVertex m vId
  \/ isHeightFieldValid (meshDuringSweep m m' vId) data vId (getVertex m' vId) vf angle
     = Ok true.
Proof.
  intros Hf Hs Hv.
  destruct (sweep_at_vertex _ _ _ _ _ _ _ _ _ _ Hs Hv)
    as (st1 & st2 & H1 & Hmesh & Hcur & H2 & Hnew).
  destruct (restoreVertex_Ok _ _ _ _ _ _ _ _ _ H2) as (t & p & c & Ht & Hb & ->).
  pose proof (sweepVertices_sameBut _ _ _ _ _ _ _ _ _ H1) as (_ & _ & _ & _ & Hlen & _).
  cbn [fst] in Hlen.
  destruct (search_ends_valid _ _ _ _ _ _ _ Hb) as [Hvalid|Hbound].
  - destruct (Nat.ltb_spec c BINARY_SEARCH_ITERATIONS) as [Hlt|Hge].
    + right. cbn [fst] in Hnew.
      assert (Hp : getVertex m' vId = p).
      { rewrite Hnew. unfold getVertex, setVertex. cbn [vertices].
        rewrite list_lookup_insert_eq; [reflexivity|].
        unfold numberVertices in Hv. lia. }
      rewrite Hp, <- Hmesh. exact Hvalid.
    + left. congruence.
  - left. destruct (Nat.ltb_spec c BINARY_SEARCH_ITERATIONS) as [Hlt|Hge]; [lia|].
    congruence.
Qed.

(** X20.  A vertex for which the tables hold an empty list of neighbours
    and an empty list of incident faces, such as a vertex that no face uses,
    is always moved: the validity test has nothing to check, and the target
    is the differential coordinate of the vertex plus the quotient of the
    zero vector by zero.  The differential coordinate of such a vertex is
    itself a quotient of the zero vector by zero. *)
Theorem a_vertex_without_neighbours_is_moved_to_a_quotient_by_zero
  fuel (mesh : Mesh) dc vv vf (data : Data) angle st vId coordinate :
  0 < fuel -> vId < numberVertices mesh ->
  vv !! vId = Some [] -> vf !! vId = Some [] -> dc !! vId = Some coordinate ->
  restoreVertex fuel dc vv vf data angle st vId
  = Ok (setVertex (fst st) vId (padd coordinate (pdiv pzero (sofnat 0))), true)
  /\ forall differentialCoordinates,
       computeDifferentialCoordinates mesh vv = Ok differentialCoordinates ->
       differentialCoordinates !! vId = Some (pdiv pzero (sofnat 0)).
Proof.
  intros Hf Hv Hvv Hvf Hdc. split.
  - unfold restoreVertex, getTargetPoint, vectorAt. rewrite Hvv, Hdc.
    cbn [mbind mret outcome_bind outcome_ret obind fold_left length].
    destruct fuel as [|fuel]; [lia|]. cbn [binarySearch].
    unfold isHeightFieldValid, vectorAt. rewrite Hvf.
    cbn [mbind mret outcome_bind outcome_ret obind forallb negb andb fst snd].
    reflexivity.
  - intros differentialCoordinates Hall.
    destruct (omap_lookup _ _ _ vId vId Hall) as (b & Hb & ->).
    { now apply lookup_seq_lt. }
    unfold differentialCoordinate, vectorAt in Hb. rewrite Hvv in Hb.
    cbn in Hb. now injection Hb as <-.
Qed.

(** ** The recheck *)

Variable getVisibility : Mesh -> Z -> bool -> Data -> scalar -> CheckMode -> outcome Data.

(** X21.  Let the new array have a row for every label of the restored
    association and a column for every face of it.  The recheck writes two
    fields of the data and no other: the new array goes to
    [restoredMeshVisibility], and [restoredMeshNonVisibleFaces] becomes the
    list, in increasing order, of the faces of the restored association
    whose entry for their associated direction is below [1] in the new
    array.  The array, the non-visible faces and the association of the
    first analysis are left as they are. *)
Theorem the_recheck_writes_only_the_restored_fields
  (data : Data) angle checkMode data' count :
  checkVisibilityAfterFrequenciesAreRestored getVisibility data angle checkMode
  = Ok (data', count) ->
  (forall faceId label,
     restoredMeshAssociation data !! faceId = Some label ->
     label < sizeX (restoredMeshVisibility data')
     /\ faceId < sizeY (restoredMeshVisibility data')) ->
  (minExtremes data' = minExtremes data /\ maxExtremes data' = maxExtremes data
   /\ directions data' = directions data /\ angles data' = angles data
   /\ visibility data' = visibility data /\ nonVisibleFaces data' = nonVisibleFaces data
   /\ association data' = association data /\ restoredMesh data' = restoredMesh data
   /\ restoredMeshAssociation data' = restoredMeshAssociation data)
  /\ increasing (restoredMeshNonVisibleFaces data')
  /\ forall faceId,
       In faceId (restoredMeshNonVisibleFaces data')
       <-> faceId < length (restoredMeshAssociation data)
           /\ Z.lt (a2_get (restoredMeshVisibility data')
                       (default 0 (restoredMeshAssociation data !! faceId)) faceId) 1.
Proof.
  unfold checkVisibilityAfterFrequenciesAreRestored.
  destruct (getVisibility _ _ _ _ _ _) as [newData| | |];
    cbn [mbind mret outcome_bind outcome_ret obind]; try discriminate.
  intros [= <- _] _. cbn.
  split; [repeat split|]. split; [apply increasing_filter_seq|].
  intros faceId. unfold facesNotVisibleFromAssociation.
  rewrite filter_In, in_seq, Z.ltb_lt. split; intros [Hf Hlt]; (split; [lia | exact Hlt]).
Qed.

(** X22.  The value returned by the recheck is the number of faces it lists
    minus the number of faces that were non-visible before, modulo [2^32]:
    it is this difference when the first number is not the smaller one, and
    [2^32] more than it otherwise. *)
Theorem the_recheck_returns_the_difference_modulo_two_to_the_32
  (data : Data) angle checkMode data' count :
  checkVisibilityAfterFrequenciesAreRestored getVisibility data angle checkMode
  = Ok (data', count) ->
  (Z.of_nat (length (restoredMeshAssociation data)) < UINT_MODULUS)%Z ->
  (Z.of_nat (length (nonVisibleFaces data)) < UINT_MODULUS)%Z ->
  let after := Z.of_nat (length (restoredMeshNonVisibleFaces data')) in
  let before := Z.of_nat (length (nonVisibleFaces data)) in
  count = ((after - before) mod UINT_MODULUS)%Z
  /\ ((before <= after)%Z -> count = (after - before)%Z)
  /\ ((after < before)%Z -> count = (after - before + UINT_MODULUS)%Z).
Proof.
  unfold checkVisibilityAfterFrequenciesAreRestored.
  destruct (getVisibility _ _ _ _ _ _) as [newData| | |];
    cbn [mbind mret outcome_bind outcome_ret obind]; try discriminate.
  intros [= <- <-]. cbn [restoredMeshNonVisibleFaces nonVisibleFaces]. intros Ha Hb.
  cbv zeta.
  pose proof (facesNotVisibleFromAssociation_length (visibility newData)
                (restoredMeshAssociation data)) as Hlen.
  set (restored := facesNotVisibleFromAssociation (visibility newData)
                     (restoredMeshAssociation data)) in *.
  assert (E32 : UINT_MODULUS = 4294967296%Z) by reflexivity.
  destruct (Nat.le_gt_cases (length (nonVisibleFaces data)) (length restored)) as [Hle|Hgt].
  - rewrite newlyNonVisibleCount_difference by lia.
    split; [|split; intros; lia].
    rewrite Z.mod_small by lia. lia.
  - rewrite newlyNonVisibleCount_wraps by lia.
    split; [|split; intros; lia].
    replace (Z.of_nat (length restored) - Z.of_nat (length (nonVisibleFaces data)))%Z
      with ((UINT_MODULUS - Z.of_nat (length (nonVisibleFaces data) - length restored))
            + (-1) * UINT_MODULUS)%Z by lia.
    rewrite Z.mod_add by lia. rewrite Z.mod_small by lia. reflexivity.
Qed.

End RestorerFacts.

Lemma binarySearch_returns_the_first_valid_candidate_witness :
  BINARY_SEARCH_ITERATIONS < 11
  /\ exists c,
       c <= BINARY_SEARCH_ITERATIONS
       /\ binarySearch 11 firstCoordinateAtMostOne (QP 0 0 0) (QP 8 0 0) 0
          = Ok (halved c (QP 0 0 0) (QP 8 0 0), c)
       /\ (forall k, k < c ->
             firstCoordinateAtMostOne (halved k (QP 0 0 0) (QP 8 0 0)) = Ok false)
       /\ (c < BINARY_SEARCH_ITERATIONS ->
           firstCoordinateAtMostOne (halved c (QP 0 0 0) (QP 8 0 0)) = Ok true).
Proof.
  assert (Hf : BINARY_SEARCH_ITERATIONS < 11) by (unfold BINARY_SEARCH_ITERATIONS; lia).
  assert (Hret : answersEverywhere Point3 firstCoordinateAtMostOne)
    by (intros p; eexists; reflexivity).
  split; [exact Hf|].
  exact (binarySearch_returns_the_first_valid_candidate 11 firstCoordinateAtMostOne
           (QP 0 0 0) (QP 8 0 0) Hf Hret).
Defined.

Lemma a_sweep_moves_vertices_only_and_reports_it_witness :
  restoreFrequenciesValidHeightfields 11 smoothedTriangle triangleCoordinates
    (vertexVertexAdjacencies detailedTriangle) (vertexFaceAdjacencies detailedTriangle)
    (triangleData (QP 0 0 1)) (3 # 4)%Q = Ok (sweptTriangle, true)
  /\ faces sweptTriangle = faces smoothedTriangle
  /\ faceNormals sweptTriangle = faceNormals smoothedTriangle
  /\ bbMin sweptTriangle = bbMin smoothedTriangle
  /\ bbMax sweptTriangle = bbMax smoothedTriangle
  /\ numberVertices sweptTriangle = numberVertices smoothedTriangle
  /\ (true = false -> sweptTriangle = smoothedTriangle).
Proof.
  assert (E : restoreFrequenciesValidHeightfields 11 smoothedTriangle triangleCoordinates
                (vertexVertexAdjacencies detailedTriangle)
                (vertexFaceAdjacencies detailedTriangle)
                (triangleData (QP 0 0 1)) (3 # 4)%Q = Ok (sweptTriangle, true))
    by evaluate.
  split; [exact E|].
  exact (a_sweep_moves_vertices_only_and_reports_it 11 smoothedTriangle triangleCoordinates
           (vertexVertexAdjacencies detailedTriangle)
           (vertexFaceAdjacencies detailedTriangle)
           (triangleData (QP 0 0 1)) (3 # 4)%Q sweptTriangle true E).
Defined.

Lemma a_moved_vertex_passed_the_validity_test_witness :
  BINARY_SEARCH_ITERATIONS < 11
  /\ restoreFrequenciesValidHeightfields 11 smoothedTriangle triangleCoordinates
       (vertexVertexAdjacencies detailedTriangle) (vertexFaceAdjacencies detailedTriangle)
       (triangleData (QP 0 0 1)) (3 # 4)%Q = Ok (sweptTriangle, true)
  /\ 1 < numberVertices smoothedTriangle
  /\ (getVertex sweptTriangle 1 = getVertex smoothedTriangle 1
      \/ isHeightFieldValid (meshDuringSweep smoothedTriangle sweptTriangle 1)
           (triangleData (QP 0 0 1)) 1 (getVertex sweptTriangle 1)
           (vertexFaceAdjacencies detailedTriangle) (3 # 4)%Q = Ok true).
Proof.
  assert (Hf : BINARY_SEARCH_ITERATIONS < 11) by (unfold BINARY_SEARCH_ITERATIONS; lia).
  assert (E : restoreFrequenciesValidHeightfields 11 smoothedTriangle triangleCoordinates
                (vertexVertexAdjacencies detailedTriangle)
                (vertexFaceAdjacencies detailedTriangle)
                (triangleData (QP 0 0 1)) (3 # 4)%Q = Ok (sweptTriangle, true))
    by evaluate.
  assert (Hv : 1 < numberVertices smoothedTriangle) by (cbn; lia).
  split; [exact Hf|]. split; [exact E|]. split; [exact Hv|].
  exact (a_moved_vertex_passed_the_validity_test 11 smoothedTriangle triangleCoordinates
           (vertexVertexAdjacencies detailedTriangle)
           (vertexFaceAdjacencies detailedTriangle)
           (triangleData (QP 0 0 1)) (3 # 4)%Q sweptTriangle true 1 Hf E Hv).
Defined.

Lemma a_vertex_without_neighbours_is_moved_to_a_quotient_by_zero_witness :
  0 < 1 /\ 3 < numberVertices triangleWithLooseVertex
  /\ vertexVertexAdjacencies triangleWithLooseVertex !! 3 = Some []
  /\ vertexFaceAdjacencies triangleWithLooseVertex !! 3 = Some []
  /\ looseCoordinates !! 3 = Some (QP 0 0 0)
  /\ restoreVertex 1 looseCoordinates (vertexVertexAdjacencies triangleWithLooseVertex)
       (vertexFaceAdjacencies triangleWithLooseVertex) (triangleData (QP 0 0 1)) (3 # 4)%Q
       (triangleWithLooseVertex, false) 3
     = Ok (setVertex triangleWithLooseVertex 3
             (padd (QP 0 0 0) (pdiv pzero (sofnat 0))), true)
  /\ forall differentialCoordinates,
       computeDifferentialCoordinates triangleWithLooseVertex
         (vertexVertexAdjacencies triangleWithLooseVertex) = Ok differentialCoordinates ->
       differentialCoordinates !! 3 = Some (pdiv pzero (sofnat 0)).
Proof.
  assert (Hf : 0 < 1) by lia.
  assert (Hv : 3 < numberVertices triangleWithLooseVertex) by (cbn; lia).
  assert (Hvv : vertexVertexAdjacencies triangleWithLooseVertex !! 3 = Some [])
    by reflexivity.
  assert (Hvf : vertexFaceAdjacencies triangleWithLooseVertex !! 3 = Some [])
    by reflexivity.
  assert (Hdc : looseCoordinates !! 3 = Some (QP 0 0 0)) by evaluate.
  split; [exact Hf|]. split; [exact Hv|]. split; [exact Hvv|]. split; [exact Hvf|].
  split; [exact Hdc|].
  exact (a_vertex_without_neighbours_is_moved_to_a_quotient_by_zero 1
           triangleWithLooseVertex looseCoordinates
           (vertexVertexAdjacencies triangleWithLooseVertex)
           (vertexFaceAdjacencies triangleWithLooseVertex) (triangleData (QP 0 0 1))
           (3 # 4)%Q (triangleWithLooseVertex, false) 3 (QP 0 0 0) Hf Hv Hvv Hvf Hdc).
Defined.

Lemma the_recheck_writes_only_the_restored_fields_witness :
  checkVisibilityAfterFrequenciesAreRestored (answering (visibility stackedAnalysed))
    stackedData (3 # 4) PROJECTION = Ok (stackedRechecked, 0%Z)
  /\ (forall faceId label,
        restoredMeshAssociation stackedData !! faceId = Some label ->
        label < sizeX (restoredMeshVisibility stackedRechecked)
        /\ faceId < sizeY (restoredMeshVisibility stackedRechecked))
  /\ visibility stackedRechecked = visibility stackedData
  /\ nonVisibleFaces stackedRechecked = nonVisibleFaces stackedData
  /\ association stackedRechecked = association stackedData
  /\ increasing (restoredMeshNonVisibleFaces stackedRechecked).
Proof.
  assert (E : checkVisibilityAfterFrequenciesAreRestored
                (answering (visibility stackedAnalysed)) stackedData (3 # 4) PROJECTION
              = Ok (stackedRechecked, 0%Z)) by evaluate.
  assert (Hrange : forall faceId label,
             restoredMeshAssociation stackedData !! faceId = Some label ->
             label < sizeX (restoredMeshVisibility stackedRechecked)
             /\ faceId < sizeY (restoredMeshVisibility stackedRechecked)).
  { assert (Ea : restoredMeshAssociation stackedData = [0; 3; 1]) by evaluate.
    assert (Ex : sizeX (restoredMeshVisibility stackedRechecked) = 4) by evaluate.
    assert (Ey : sizeY (restoredMeshVisibility stackedRechecked) = 3) by evaluate.
    rewrite Ea, Ex, Ey.
    intros [|[|[|faceId]]] label Hl; cbn in Hl; inversion Hl; lia. }
  split; [exact E|]. split; [exact Hrange|].
  destruct (the_recheck_writes_only_the_restored_fields
              (answering (visibility stackedAnalysed)) stackedData
              (3 # 4)%Q PROJECTION stackedRechecked 0%Z E Hrange)
    as ((_ & _ & _ & _ & Hv & Hn & Ha & _) & Hinc & _).
  split; [exact Hv|]. split; [exact Hn|]. split; [exact Ha | exact Hinc].
Defined.

Lemma the_recheck_returns_the_difference_modulo_two_to_the_32_witness :
  checkVisibilityAfterFrequenciesAreRestored (answering (visibility stackedAnalysed))
    stackedData (3 # 4) PROJECTION = Ok (stackedRechecked, 0%Z)
  /\ (Z.of_nat (length (restoredMeshAssociation stackedData)) < UINT_MODULUS)%Z
  /\ (Z.of_nat (length (nonVisibleFaces stackedData)) < UINT_MODULUS)%Z
  /\ 0%Z
     = ((Z.of_nat (length (restoredMeshNonVisibleFaces stackedRechecked))
         - Z.of_nat (length (nonVisibleFaces stackedData))) mod UINT_MODULUS)%Z.
Proof.
  assert (E : checkVisibilityAfterFrequenciesAreRestored
                (answering (visibility stackedAnalysed)) stackedData (3 # 4) PROJECTION
              = Ok (stackedRechecked, 0%Z)) by evaluate.
  assert (Ha : (Z.of_nat (length (restoredMeshAssociation stackedData)) < UINT_MODULUS)%Z)
    by (vm_compute; reflexivity).
  assert (Hb : (Z.of_nat (length (nonVisibleFaces stackedData)) < UINT_MODULUS)%Z)
    by (vm_compute; reflexivity).
  split; [exact E|]. split; [exact Ha|]. split; [exact Hb|].
  exact (proj1 (the_recheck_returns_the_difference_modulo_two_to_the_32
                  (answering (visibility stackedAnalysed)) stackedData (3 # 4)%Q PROJECTION
                  stackedRechecked 0%Z E Ha Hb)).
Defined.

(** ** Exact arithmetic *)

Section RationalRestorer.

Lemma px_padd (a b : Point3) : (px (padd a b) == px a + px b)%Q.
Proof. cbn. apply Qred_correct. Qed.
Lemma py_padd (a b : Point3) : (py (padd a b) == py a + py b)%Q.
Proof. cbn. apply Qred_correct. Qed.
Lemma pz_padd (a b : Point3) : (pz (padd a b) == pz a + pz b)%Q.
Proof. cbn. apply Qred_correct. Qed.

Lemma px_psub (a b : Point3) : (px (psub a b) == px a - px b)%Q.
Proof. cbn. apply Qred_correct. Qed.
Lemma py_psub (a b : Point3) : (py (psub a b) == py a - py b)%Q.
Proof. cbn. apply Qred_correct. Qed.
Lemma pz_psub (a b : Point3) : (pz (psub a b) == pz a - pz b)%Q.
Proof. cbn. apply Qred_correct. Qed.

Lemma px_pdiv (a : Point3) (k : Q) : (px (pdiv a k) == px a / k)%Q.
Proof. cbn. apply Qred_correct. Qed.
Lemma py_pdiv (a : Point3) (k : Q) : (py (pdiv a k) == py a / k)%Q.
Proof. cbn. apply Qred_correct. Qed.
Lemma pz_pdiv (a : Point3) (k : Q) : (pz (pdiv a k) == pz a / k)%Q.
Proof. cbn. apply Qred_correct. Qed.

Lemma half_of (x : Q) : (Qred ((1 # 2) * x) == x / 2)%Q.
Proof. rewrite Qred_correct. field. Qed.

Lemma px_half (a : Point3) : (px (pscale shalf a) == px a / 2)%Q.
Proof. cbn. apply half_of. Qed.
Lemma py_half (a : Point3) : (py (pscale shalf a) == py a / 2)%Q.
Proof. cbn. apply half_of. Qed.
Lemma pz_half (a : Point3) : (pz (pscale shalf a) == pz a / 2)%Q.
Proof. cbn. apply half_of. Qed.

Lemma towards_start (c t : Q) : (t == c + (t - c) / inject_Z (2 ^ Z.of_nat 0))%Q.
Proof. change (inject_Z (2 ^ Z.of_nat 0)) with 1%Q. field. Qed.

Lemma towards_next (c t h p2 : Q) :
  ~ (p2 == 0)%Q ->
  (h == c + ((t + c) / 2 - c) / p2)%Q -> (h == c + (t - c) / (2 * p2))%Q.
Proof. intros Hp ->. field. exact Hp. Qed.

Lemma power_of_two_nonzero k : ~ (inject_Z (2 ^ Z.of_nat k) == 0)%Q.
Proof.
  unfold Qeq. cbn. pose proof (Z.pow_pos_nonneg 2 (Z.of_nat k) ltac:(lia) ltac:(lia)). lia.
Qed.

Lemma power_of_two_succ k :
  (inject_Z (2 ^ Z.of_nat (S k)) == 2 * inject_Z (2 ^ Z.of_nat k))%Q.
Proof.
  rewrite Nat2Z.inj_succ, Z.pow_succ_r by lia. now rewrite inject_Z_mult.
Qed.

(** The candidate after [k] halvings, in closed form. *)
Lemma halved_towards k : forall currentPoint targetPoint,
  samePoint (halved k currentPoint targetPoint) (towards k currentPoint targetPoint).
Proof.
  induction k as [|k IH]; intros currentPoint targetPoint.
  - unfold samePoint, towards. cbn [halved px py pz].
    repeat split; apply towards_start.
  - cbn [halved].
    destruct (IH currentPoint (pscale shalf (padd targetPoint currentPoint)))
      as (Hx & Hy & Hz).
    pose proof (power_of_two_nonzero k) as Hk.
    unfold samePoint, towards in *. cbn [px py pz] in *.
    rewrite px_half, px_padd in Hx. rewrite py_half, py_padd in Hy.
    rewrite pz_half, pz_padd in Hz.
    rewrite !power_of_two_succ.
    repeat split; apply towards_next; assumption.
Qed.

Lemma binarySearch_halved (valid : Point3 -> outcome bool) (currentPoint : Point3) :
  forall fuel targetPoint count p c,
    binarySearch fuel valid currentPoint targetPoint count = Ok (p, c) ->
    count <= c /\ (c <= BINARY_SEARCH_ITERATIONS \/ c = count)
    /\ p = halved (c - count) currentPoint targetPoint.
Proof.
  induction fuel as [|fuel IH]; intros targetPoint count p c; [discriminate|].
  cbn [binarySearch].
  destruct (valid targetPoint) as [b| | |]; cbn [mbind outcome_bind obind];
    try discriminate.
  destruct (negb b && (count <? BINARY_SEARCH_ITERATIONS)) eqn:Hg.
  - intros Hr. apply IH in Hr. destruct Hr as (Hc & Hb & ->).
    apply andb_true_iff in Hg. destruct Hg as [_ Hlt%Nat.ltb_lt].
    split; [lia|]. split; [lia|].
    replace (c - count) with (S (c - S count)) by lia. reflexivity.
  - intros [= <- <-]. rewrite Nat.sub_diag. split; [lia|]. split; [now right | reflexivity].
Qed.

(** X23.  In exact arithmetic, the point that the binary search returns
    after [c] halvings lies on the segment from the current point to the
    target point, at the fraction [1 / 2^c] of the way from the current
    point: the search never leaves the segment, and it stops at least at
    [1 / 1024] of the way. *)
Theorem the_search_stays_on_the_segment_to_the_target
  fuel (valid : Point3 -> outcome bool) (currentPoint targetPoint p : Point3) c :
  binarySearch fuel valid currentPoint targetPoint 0 = Ok (p, c) ->
  samePoint p (towards c currentPoint targetPoint) /\ c <= BINARY_SEARCH_ITERATIONS.
Proof.
  intros Hr. apply binarySearch_halved in Hr. destruct Hr as (_ & Hb & ->).
  rewrite Nat.sub_0_r. split; [apply halved_towards|].
  destruct Hb as [Hb| ->]; [exact Hb | unfold BINARY_SEARCH_ITERATIONS; lia].
Qed.

Lemma the_search_stays_on_the_segment_to_the_target_witness :
  binarySearch 11 firstCoordinateAtMostOne (QP 0 0 0) (QP 8 0 0) 0 = Ok (QP 1 0 0, 3)
  /\ samePoint (QP 1 0 0) (towards 3 (QP 0 0 0) (QP 8 0 0))
  /\ 3 <= BINARY_SEARCH_ITERATIONS.
Proof.
  assert (E : binarySearch 11 firstCoordinateAtMostOne (QP 0 0 0) (QP 8 0 0) 0
              = Ok (QP 1 0 0, 3)) by evaluate.
  split; [exact E|].
  exact (the_search_stays_on_the_segment_to_the_target 11 firstCoordinateAtMostOne
           (QP 0 0 0) (QP 8 0 0) (QP 1 0 0) 3 E).
Defined.

(** *** Differential coordinates and target points *)

Lemma back_to_the_vertex (k c s : Q) :
  ~ (k == 0)%Q -> ((0 + (k * c - s)) / k + (0 + s) / k == c)%Q.
Proof. intros Hk. field. exact Hk. Qed.

Variable proj : Point3 -> Q.
Hypothesis proj_padd : forall a b, (proj (padd a b) == proj a + proj b)%Q.
Hypothesis proj_psub : forall a b, (proj (psub a b) == proj a - proj b)%Q.
Hypothesis proj_pdiv : forall a k, (proj (pdiv a k) == proj a / k)%Q.
Hypothesis proj_pzero : (proj pzero == 0)%Q.

Lemma fold_padd_sum (g : nat -> Point3) : forall l acc,
  (proj (fold_left (fun d n => padd d (g n)) l acc)
   == proj acc + sumOver (fun n => proj (g n)) l)%Q.
Proof.
  induction l as [|n l IH]; intros acc; cbn [fold_left sumOver fold_right].
  - ring.
  - rewrite IH, proj_padd. fold (sumOver (fun n => proj (g n)) l). ring.
Qed.

Lemma sum_of_differences (c : Point3) (g : nat -> Point3) : forall l,
  (sumOver (fun n => proj (psub c (g n))) l
   == inject_Z (Z.of_nat (length l)) * proj c - sumOver (fun n => proj (g n)) l)%Q.
Proof.
  induction l as [|n l IH]; cbn [sumOver fold_right length].
  - cbn. ring.
  - fold (sumOver (fun n => proj (psub c (g n))) l).
    fold (sumOver (fun n => proj (g n)) l).
    rewrite IH, proj_psub, Nat2Z.inj_succ.
    unfold Z.succ. rewrite inject_Z_plus. ring.
Qed.

Lemma target_coordinate (mesh : Mesh) vId neighbors :
  neighbors <> [] ->
  (proj (padd
           (pdiv (fold_left
                    (fun d n => padd d (psub (getVertex mesh vId) (getVertex mesh n)))
                    neighbors pzero)
                 (sofnat (length neighbors)))
           (pdiv (fold_left (fun d n => padd d (getVertex mesh n)) neighbors pzero)
                 (sofnat (length neighbors))))
   == proj (getVertex mesh vId))%Q.
Proof.
  intros Hne.
  rewrite proj_padd, !proj_pdiv.
  rewrite (fold_padd_sum (fun n => psub (getVertex mesh vId) (getVertex mesh n))).
  rewrite (fold_padd_sum (fun n => getVertex mesh n)).
  rewrite sum_of_differences, proj_pzero.
  assert (Hk : ~ (sofnat (length neighbors) == 0)%Q).
  { unfold sofnat. cbn. unfold Qeq. cbn.
    destruct neighbors; [now elim Hne | cbn [length]; lia]. }
  apply back_to_the_vertex. exact Hk.
Qed.

End RationalRestorer.

(** The target point of a vertex on the mesh from which the differential
    coordinates were taken, written out. *)
Lemma getTargetPoint_on_the_original `{Scalar} (mesh : Mesh) vv vId neighbors dc :
  vId < numberVertices mesh -> vv !! vId = Some neighbors ->
  computeDifferentialCoordinates mesh vv = Ok dc ->
  getTargetPoint mesh dc vId vv
  = Ok (padd
          (pdiv (fold_left
                   (fun d n => padd d (psub (getVertex mesh vId) (getVertex mesh n)))
                   neighbors pzero)
                (sofnat (length neighbors)))
          (pdiv (fold_left (fun d n => padd d (getVertex mesh n)) neighbors pzero)
                (sofnat (length neighbors)))).
Proof.
  intros Hv Hvv Hdc.
  destruct (omap_lookup _ _ _ vId vId Hdc) as (c & Hc & Hlook);
    [now apply lookup_seq_lt|].
  unfold differentialCoordinate, vectorAt in Hc. rewrite Hvv in Hc. cbn in Hc.
  injection Hc as <-.
  unfold getTargetPoint, vectorAt. rewrite Hvv, Hlook. reflexivity.
Qed.

(** X24.  In exact arithmetic, the differential coordinates and the target
    point are inverse to each other: when the adjacency table has an entry
    for every vertex, for a vertex with at least one neighbour the target
    point computed on the mesh from which the differential coordinates were
    taken is the position of the vertex. *)
Theorem the_target_on_the_original_mesh_is_the_vertex_itself
  (mesh : Mesh) (vertexVertexAdjacencies : list (list nat)) vId neighbors :
  vId < numberVertices mesh ->
  numberVertices mesh <= length vertexVertexAdjacencies ->
  vertexVertexAdjacencies !! vId = Some neighbors -> neighbors <> [] ->
  exists differentialCoordinates targetPoint,
    computeDifferentialCoordinates mesh vertexVertexAdjacencies = Ok differentialCoordinates
    /\ getTargetPoint mesh differentialCoordinates vId vertexVertexAdjacencies
       = Ok targetPoint
    /\ samePoint targetPoint (getVertex mesh vId).
Proof.
  intros Hv Hcover Hvv Hne.
  destruct (omap_returns
              (differentialCoordinate mesh vertexVertexAdjacencies)
              (seq 0 (numberVertices mesh))) as [dc Hdc].
  { intros v Hin%in_seq. unfold differentialCoordinate.
    destruct (vectorAt_returns vertexVertexAdjacencies v) as (ns & _ & ->); [lia|].
    cbn. eauto. }
  exists dc. eexists. split; [exact Hdc|].
  split; [exact (getTargetPoint_on_the_original mesh _ vId neighbors dc Hv Hvv Hdc)|].
  unfold samePoint. split; [|split].
  - apply (target_coordinate px px_padd px_psub px_pdiv); [reflexivity | exact Hne].
  - apply (target_coordinate py py_padd py_psub py_pdiv); [reflexivity | exact Hne].
  - apply (target_coordinate pz pz_padd pz_psub pz_pdiv); [reflexivity | exact Hne].
Qed.

Lemma the_target_on_the_original_mesh_is_the_vertex_itself_witness :
  1 < numberVertices detailedTriangle
  /\ numberVertices detailedTriangle <= length (vertexVertexAdjacencies detailedTriangle)
  /\ vertexVertexAdjacencies detailedTriangle !! 1 = Some [0; 2]
  /\ [0; 2] <> []
  /\ exists differentialCoordinates targetPoint,
       computeDifferentialCoordinates detailedTriangle
         (vertexVertexAdjacencies detailedTriangle) = Ok differentialCoordinates
       /\ getTargetPoint detailedTriangle differentialCoordinates 1
            (vertexVertexAdjacencies detailedTriangle) = Ok targetPoint
       /\ samePoint targetPoint (getVertex detailedTriangle 1).
Proof.
  assert (Hv : 1 < numberVertices detailedTriangle) by (cbn; lia).
  assert (Hc : numberVertices detailedTriangle
               <= length (vertexVertexAdjacencies detailedTriangle)) by (cbn; lia).
  assert (Hvv : vertexVertexAdjacencies detailedTriangle !! 1 = Some [0; 2]) by reflexivity.
  assert (Hne : [0; 2] <> []) by discriminate.
  split; [exact Hv|]. split; [exact Hc|]. split; [exact Hvv|]. split; [exact Hne|].
  exact (the_target_on_the_original_mesh_is_the_vertex_itself detailedTriangle
           (vertexVertexAdjacencies detailedTriangle) 1 [0; 2] Hv Hc Hvv Hne).
Defined.

(** * The comparators and the box extractor *)

(** A lexicographic comparison on two or three components, as the
    comparators write it out, is asymmetric when the comparison of the
    components is. *)
Lemma lex2_asymmetric {A : Type} (lt : A -> A -> bool) :
  (forall a b, lt a b = true -> lt b a = false) ->
  forall a1 a2 b1 b2,
    (if lt a1 b1 then true else if lt b1 a1 then false else lt a2 b2) = true ->
    (if lt b1 a1 then true else if lt a1 b1 then false else lt b2 a2) = false.
Proof.
  intros Hasym a1 a2 b1 b2.
  destruct (lt a1 b1) eqn:E1.
  - intros _. now rewrite (Hasym _ _ E1).
  - destruct (lt b1 a1) eqn:E2; [discriminate|]. intros E3. exact (Hasym _ _ E3).
Qed.

Lemma lex3_asymmetric {A : Type} (lt : A -> A -> bool) :
  (forall a b, lt a b = true -> lt b a = false) ->
  forall a1 a2 a3 b1 b2 b3,
    (if lt a1 b1 then true else if lt b1 a1 then false
     else if lt a2 b2 then true else if lt b2 a2 then false else lt a3 b3) = true ->
    (if lt b1 a1 then true else if lt a1 b1 then false
     else if lt b2 a2 then true else if lt a2 b2 then false else lt b3 a3) = false.
Proof.
  intros Hasym a1 a2 a3 b1 b2 b3.
  destruct (lt a1 b1) eqn:E1.
  - intros _. now rewrite (Hasym _ _ E1).
  - destruct (lt b1 a1) eqn:E2; [discriminate|].
    apply (lex2_asymmetric lt Hasym).
Qed.

Section ComparatorFacts.
Context `{Scalar}.

(** X25.  The three comparators given to [std::sort] and to the tree of
    triangles are asymmetric whenever [<] on the coordinates is: none of
    them puts two arguments before each other, and none puts an argument
    before itself. *)
Theorem the_comparators_are_asymmetric (m : Mesh) :
  (forall a b, sltb a b = true -> sltb b a = false) ->
  (forall t1 t2, triangle2DComparator t1 t2 = true -> triangle2DComparator t2 t1 = false)
  /\ (forall f1 f2, TriangleZComparator m f1 f2 = true -> TriangleZComparator m f2 f1 = false)
  /\ (forall f1 f2, triangleComparator m f1 f2 = true -> triangleComparator m f2 f1 = false).
Proof.
  intros Hasym.
  assert (Hp2 : forall a b, p2ltb a b = true -> p2ltb b a = false).
  { intros a b. unfold p2ltb. apply (lex2_asymmetric sltb Hasym). }
  split; [|split].
  - intros t1 t2. unfold triangle2DComparator. apply (lex3_asymmetric p2ltb Hp2).
  - intros f1 f2. unfold TriangleZComparator. apply Hasym.
  - intros f1 f2. unfold triangleComparator, pltb. apply (lex3_asymmetric sltb Hasym).
Qed.

(** The extractor answers for the dimensions 1 and 2 only. *)
Lemma triangle2DAABBExtractor_throws (triangle : Triangle2) valueType dim :
  dim <> 1%Z -> dim <> 2%Z -> triangle2DAABBExtractor triangle valueType dim = Thrown.
Proof.
  intros H1 H2. unfold triangle2DAABBExtractor.
  destruct valueType; destruct dim as [|p|p]; try reflexivity;
    destruct p as [q|q|]; try reflexivity; try congruence;
    destruct q; try reflexivity; congruence.
Qed.

End ComparatorFacts.

Lemma rational_less_is_asymmetric (a b : Q) : sltb a b = true -> sltb b a = false.
Proof.
  intros Hab. apply sltb_lt in Hab.
  destruct (@sltb QScalar b a) eqn:Hba; [|reflexivity].
  apply sltb_lt in Hba. exfalso. exact (Qlt_irrefl a (Qlt_trans _ _ _ Hab Hba)).
Qed.

Lemma the_comparators_are_asymmetric_witness :
  (forall a b : Q, sltb a b = true -> sltb b a = false)
  /\ TriangleZComparator stacked 2 0 = true
  /\ TriangleZComparator stacked 0 2 = false.
Proof.
  assert (E : TriangleZComparator stacked 2 0 = true) by reflexivity.
  split; [exact rational_less_is_asymmetric|]. split; [exact E|].
  exact (proj1 (proj2 (the_comparators_are_asymmetric stacked rational_less_is_asymmetric))
           2 0 E).
Defined.

(** ** The box of a triangle in exact arithmetic *)

Lemma smin_le (a b : Q) : (@smin QScalar a b <= a /\ @smin QScalar a b <= b)%Q.
Proof.
  unfold smin. destruct (@sltb QScalar b a) eqn:E.
  - apply sltb_lt in E. split; [now apply Qlt_le_weak | apply Qle_refl].
  - split; [apply Qle_refl|]. apply Qnot_lt_le. intros Hc. apply sltb_lt in Hc. congruence.
Qed.

Lemma smax_ge (a b : Q) : (a <= @smax QScalar a b /\ b <= @smax QScalar a b)%Q.
Proof.
  unfold smax. destruct (@sltb QScalar a b) eqn:E.
  - apply sltb_lt in E. split; [now apply Qlt_le_weak | apply Qle_refl].
  - split; [apply Qle_refl|]. apply Qnot_lt_le. intros Hc. apply sltb_lt in Hc. congruence.
Qed.

Lemma smin3_le (a b c : Q) :
  (@smin QScalar (@smin QScalar a b) c <= a
   /\ @smin QScalar (@smin QScalar a b) c <= b
   /\ @smin QScalar (@smin QScalar a b) c <= c)%Q.
Proof.
  destruct (smin_le (@smin QScalar a b) c) as [H1 H2], (smin_le a b) as [H3 H4].
  split; [exact (Qle_trans _ _ _ H1 H3)|]. split; [exact (Qle_trans _ _ _ H1 H4) | exact H2].
Qed.

Lemma smax3_ge (a b c : Q) :
  (a <= @smax QScalar (@smax QScalar a b) c
   /\ b <= @smax QScalar (@smax QScalar a b) c
   /\ c <= @smax QScalar (@smax QScalar a b) c)%Q.
Proof.
  destruct (smax_ge (@smax QScalar a b) c) as [H1 H2], (smax_ge a b) as [H3 H4].
  split; [exact (Qle_trans _ _ _ H3 H1)|]. split; [exact (Qle_trans _ _ _ H4 H1) | exact H2].
Qed.

(** X26.  [triangle2DAABBExtractor] answers for the dimensions 1 (x) and 2
    (y) and throws for every other dimension, 0 included.  In exact
    arithmetic the values it gives for [MIN] and [MAX] bound the
    coordinates of the three vertices of the triangle. *)
Theorem the_extracted_box_bounds_the_triangle (triangle : Triangle2) :
  (exists lo hi : Q,
      triangle2DAABBExtractor triangle AABB_MIN 1 = Ok lo
      /\ triangle2DAABBExtractor triangle AABB_MAX 1 = Ok hi
      /\ (lo <= p2x (t2v1 triangle) <= hi)%Q
      /\ (lo <= p2x (t2v2 triangle) <= hi)%Q
      /\ (lo <= p2x (t2v3 triangle) <= hi)%Q)
  /\ (exists lo hi : Q,
         triangle2DAABBExtractor triangle AABB_MIN 2 = Ok lo
         /\ triangle2DAABBExtractor triangle AABB_MAX 2 = Ok hi
         /\ (lo <= p2y (t2v1 triangle) <= hi)%Q
         /\ (lo <= p2y (t2v2 triangle) <= hi)%Q
         /\ (lo <= p2y (t2v3 triangle) <= hi)%Q)
  /\ forall valueType dim,
       dim <> 1%Z -> dim <> 2%Z ->
       triangle2DAABBExtractor triangle valueType dim = Thrown.
Proof.
  split; [|split].
  - eexists. eexists. split; [reflexivity|]. split; [reflexivity|].
    destruct (smin3_le (p2x (t2v1 triangle)) (p2x (t2v2 triangle)) (p2x (t2v3 triangle)))
      as (L1 & L2 & L3).
    destruct (smax3_ge (p2x (t2v1 triangle)) (p2x (t2v2 triangle)) (p2x (t2v3 triangle)))
      as (U1 & U2 & U3).
    repeat split; assumption.
  - eexists. eexists. split; [reflexivity|]. split; [reflexivity|].
    destruct (smin3_le (p2y (t2v1 triangle)) (p2y (t2v2 triangle)) (p2y (t2v3 triangle)))
      as (L1 & L2 & L3).
    destruct (smax3_ge (p2y (t2v1 triangle)) (p2y (t2v2 triangle)) (p2y (t2v3 triangle)))
      as (U1 & U2 & U3).
    repeat split; assumption.
  - intros valueType dim. apply triangle2DAABBExtractor_throws.
Qed.

(** * What the ray shooting marks *)

Section RayEntries.
Context `{Scalar}.
Variable getIntersectedEigenFaces : Mesh -> Point3 -> Point3 -> list Z.

Lemma a2_get_set_one (a : Array2D) i j i' j' :
  a2_wf a -> i < sizeX a -> j' < sizeY a ->
  (a2_get (a2_set a i j 1) i' j' = 1%Z
   <-> a2_get a i' j' = 1%Z \/ (i' = i /\ j' = j)).
Proof.
  intros Hw Hi Hj. split.
  - destruct (a2_get_set_cases a i j 1 i' j') as [E|(-> & -> & _)];
      [left; congruence | right; split; reflexivity].
  - intros [E|[-> ->]]; [|now apply a2_get_set_same].
    destruct (a2_get_set_cases a i j 1 i' j') as [E'|(_ & _ & E')]; congruence.
Qed.

Lemma rayShootFace_entries (mesh : Mesh) directionIndex opp limit minZ maxZ visibility t
  visibility' :
  a2_wf visibility -> directionIndex < sizeX visibility ->
  ((0 <= opp)%Z -> Z.to_nat opp < sizeX visibility /\ Z.to_nat opp <> directionIndex) ->
  rayShootFace getIntersectedEigenFaces mesh directionIndex opp limit minZ maxZ visibility t
  = Ok visibility' ->
  let s := scanRay getIntersectedEigenFaces mesh limit opp minZ maxZ t in
  (a2_wf visibility' /\ sizeX visibility' = sizeX visibility
   /\ sizeY visibility' = sizeY visibility)
  /\ forall g, g < sizeY visibility ->
       (a2_get visibility' directionIndex g = 1%Z
        <-> a2_get visibility directionIndex g = 1%Z \/ maxZFace s = Z.of_nat g)
       /\ ((0 <= opp)%Z ->
           (a2_get visibility' (Z.to_nat opp) g = 1%Z
            <-> a2_get visibility (Z.to_nat opp) g = 1%Z \/ minZFace s = Z.of_nat g)).
Proof.
  intros Hw Hd Hopp. cbv zeta. unfold rayShootFace, a2_set_int.
  set (s := scanRay getIntersectedEigenFaces mesh limit opp minZ maxZ t).
  destruct (Z.ltb_spec (maxZFace s) 0) as [|Hmax]; [discriminate|].
  cbn [mbind outcome_bind obind].
  pose proof (a2_set_wf visibility directionIndex (Z.to_nat (maxZFace s)) 1 Hw) as Hw1.
  destruct (Z.leb_spec 0 opp) as [Ho|Ho].
  - destruct (Z.ltb_spec (minZFace s) 0) as [|Hmin]; [discriminate|].
    intros [= <-]. destruct (Hopp Ho) as [Hox Hne].
    split; [split; [now apply a2_set_wf | split; reflexivity]|].
    intros g Hg. split.
    + rewrite a2_get_set_one by (try exact Hw1; assumption).
      rewrite a2_get_set_one by assumption. split.
      * intros [[E|[_ E]]|[E _]]; [now left | right; lia | congruence].
      * intros [E|E]; left; [now left | right; split; [reflexivity | lia]].
    + intros _. rewrite a2_get_set_one by (try exact Hw1; assumption).
      rewrite a2_get_set_one by assumption. split.
      * intros [[E|[E _]]|[_ E]]; [now left | congruence | right; lia].
      * intros [E|E]; [left; now left | right; split; [reflexivity | lia]].
  - intros [= <-]. split; [split; [exact Hw1 | split; reflexivity]|].
    intros g Hg. split; [|intros Hc; lia].
    rewrite a2_get_set_one by assumption. split.
    + intros [E|[_ E]]; [now left | right; lia].
    + intros [E|E]; [now left | right; split; [reflexivity | lia]].
Qed.

(** X27.  Let the array have the row of the direction, the row of the
    opposite direction when there is one, different from the first, and a
    column for every face that the intersection queries return.  When the
    ray shooting of the pair of directions returns, it has marked exactly
    the faces its scans end with: the entry of a face in the row of the
    direction is [1] exactly when it was [1] before or the face is the
    [maxZFace] found on the ray of some target face, and likewise in the row
    of the opposite direction with [minZFace]. *)
Theorem ray_shooting_marks_exactly_the_faces_its_scans_end_with
  (mesh : Mesh) targets directionIndex opp visibility heightfieldAngle visibility' :
  a2_wf visibility -> directionIndex < sizeX visibility ->
  ((0 <= opp)%Z -> Z.to_nat opp < sizeX visibility /\ Z.to_nat opp <> directionIndex) ->
  (forall t g, In t targets ->
     In g (barIntersectionOf getIntersectedEigenFaces mesh
             (ssub (pz (bbMin mesh)) (sofZ 1)) (sadd (pz (bbMax mesh)) (sofZ 1)) t) ->
     (g < Z.of_nat (sizeY visibility))%Z) ->
  getVisibilityRayShootingOnZ getIntersectedEigenFaces mesh targets directionIndex opp
    visibility heightfieldAngle = Ok visibility' ->
  let scan :=
    scanRay getIntersectedEigenFaces mesh (scos heightfieldAngle) opp
      (ssub (pz (bbMin mesh)) (sofZ 1)) (sadd (pz (bbMax mesh)) (sofZ 1)) in
  forall g, g < sizeY visibility ->
    (a2_get visibility' directionIndex g = 1%Z
     <-> a2_get visibility directionIndex g = 1%Z
         \/ exists t, In t targets /\ maxZFace (scan t) = Z.of_nat g)
    /\ ((0 <= opp)%Z ->
        (a2_get visibility' (Z.to_nat opp) g = 1%Z
         <-> a2_get visibility (Z.to_nat opp) g = 1%Z
             \/ exists t, In t targets /\ minZFace (scan t) = Z.of_nat g)).
Proof.
  intros Hw Hd Hopp _. revert Hw Hd Hopp.
  unfold getVisibilityRayShootingOnZ. cbv zeta.
  set (limit := scos heightfieldAngle).
  set (minZ := ssub (pz (bbMin mesh)) (sofZ 1)).
  set (maxZ := sadd (pz (bbMax mesh)) (sofZ 1)).
  revert visibility.
  induction targets as [|t targets IH]; intros visibility Hw Hd Hopp; cbn [ofold].
  - intros [= <-] g Hg. split; [|intros _]; (split; [now left | intros [E|(t & [] & _)]; exact E]).
  - destruct (rayShootFace _ _ _ _ _ _ _ _ _) as [v1| | |] eqn:Hface;
      cbn [mbind outcome_bind obind]; try discriminate.
    intros Hrest g Hg.
    destruct (rayShootFace_entries _ _ _ _ _ _ _ _ _ Hw Hd Hopp Hface)
      as ((Hw1 & Hx1 & Hy1) & Hone).
    destruct (Hone g Hg) as [Hmax Hmin].
    destruct (IH v1 Hw1 ltac:(lia) ltac:(rewrite Hx1; exact Hopp) Hrest g ltac:(lia))
      as [Imax Imin].
    split.
    + rewrite Imax, Hmax. split.
      * intros [[E|E]|(u & Hu & E)]; [now left | right; exists t; split; [now left | exact E]|].
        right. exists u. split; [now right | exact E].
      * intros [E|(u & [<-|Hu] & E)]; [left; now left | left; now right|].
        right. exists u. split; assumption.
    + intros Ho. rewrite (Imin Ho), (Hmin Ho). split.
      * intros [[E|E]|(u & Hu & E)]; [now left | right; exists t; split; [now left | exact E]|].
        right. exists u. split; [now right | exact E].
      * intros [E|(u & [<-|Hu] & E)]; [left; now left | left; now right|].
        right. exists u. split; assumption.
Qed.

End RayEntries.

Lemma ray_shooting_marks_exactly_the_faces_its_scans_end_with_witness :
  a2_wf (a2_resize_fill 2 3 0)
  /\ 0 < sizeX (a2_resize_fill 2 3 0)
  /\ (forall t g, In t [0; 1; 2] ->
        In g (barIntersectionOf verticalHits stacked
                (ssub (pz (bbMin stacked)) (sofZ 1)) (sadd (pz (bbMax stacked)) (sofZ 1)) t) ->
        (g < Z.of_nat (sizeY (a2_resize_fill 2 3 0)))%Z)
  /\ getVisibilityRayShootingOnZ verticalHits stacked [0; 1; 2] 0 1 (a2_resize_fill 2 3 0)
       (3 # 4)%Q = Ok stackedShot
  /\ forall g, g < sizeY (a2_resize_fill 2 3 0) ->
       (a2_get stackedShot 0 g = 1%Z
        <-> a2_get (a2_resize_fill 2 3 0) 0 g = 1%Z
            \/ exists t, In t [0; 1; 2]
                 /\ maxZFace (scanRay verticalHits stacked (scos (3 # 4)%Q) 1
                                (ssub (pz (bbMin stacked)) (sofZ 1))
                                (sadd (pz (bbMax stacked)) (sofZ 1)) t) = Z.of_nat g)
       /\ ((0 <= 1)%Z ->
           (a2_get stackedShot (Z.to_nat 1) g = 1%Z
            <-> a2_get (a2_resize_fill 2 3 0) (Z.to_nat 1) g = 1%Z
                \/ exists t, In t [0; 1; 2]
                     /\ minZFace (scanRay verticalHits stacked (scos (3 # 4)%Q) 1
                                    (ssub (pz (bbMin stacked)) (sofZ 1))
                                    (sadd (pz (bbMax stacked)) (sofZ 1)) t) = Z.of_nat g)).
Proof.
  assert (Hw : a2_wf (a2_resize_fill 2 3 0)).
  { split; [reflexivity | repeat constructor]. }
  assert (Hd : 0 < sizeX (a2_resize_fill 2 3 0)) by (cbn; lia).
  assert (Ho : (0 <= 1)%Z ->
               Z.to_nat 1 < sizeX (a2_resize_fill 2 3 0) /\ Z.to_nat 1 <> 0)
    by (intros _; cbn; lia).
  assert (Hg : forall t g, In t [0; 1; 2] ->
             In g (barIntersectionOf verticalHits stacked
                     (ssub (pz (bbMin stacked)) (sofZ 1))
                     (sadd (pz (bbMax stacked)) (sofZ 1)) t) ->
             (g < Z.of_nat (sizeY (a2_resize_fill 2 3 0)))%Z).
  { intros t g _ Hin. unfold barIntersectionOf in Hin.
    apply verticalHits_within in Hin. exact Hin. }
  assert (E : getVisibilityRayShootingOnZ verticalHits stacked [0; 1; 2] 0 1
                (a2_resize_fill 2 3 0) (3 # 4)%Q = Ok stackedShot) by evaluate.
  split; [exact Hw|]. split; [exact Hd|]. split; [exact Hg|]. split; [exact E|].
  exact (ray_shooting_marks_exactly_the_faces_its_scans_end_with verticalHits stacked
           [0; 1; 2] 0 1 (a2_resize_fill 2 3 0) (3 # 4)%Q stackedShot Hw Hd Ho Hg E).
Defined.

(** * The face a scan ends with, in exact arithmetic *)

Section RationalScan.
Local Open Scope Q_scope.

Lemma sltb_ge (a b : Q) : @sltb QScalar a b = false -> b <= a.
Proof.
  intros E. destruct (Qlt_le_dec a b) as [L|L]; [|exact L].
  apply sltb_lt in L. congruence.
Qed.

(** The scan from above keeps the greatest height met so far among the
    faces that pass the test, and the first face that has it. *)
Lemma scan_highest (mesh : Mesh) (limit : Q) opp (minZ : Q) hits :
  forall (seen : list Z) (s : ZScan),
    (forall g, In g hits -> (0 <= g)%Z) ->
    minZ <= maxZCoordinate s ->
    (maxZFace s = (-1)%Z -> maxZCoordinate s == minZ) ->
    (maxZFace s <> (-1)%Z ->
     (0 <= maxZFace s)%Z /\ maxZCoordinate s == barycenterZ mesh (maxZFace s)) ->
    (forall g, In g seen -> passesHeightfieldLimit mesh limit zDirMax g = true ->
               barycenterZ mesh g <= maxZCoordinate s) ->
    let s' := fold_left (scanIntersectedFace mesh limit opp) hits s in
    (maxZFace s' = (-1)%Z -> maxZCoordinate s' == minZ)
    /\ (maxZFace s' <> (-1)%Z ->
        (0 <= maxZFace s')%Z /\ maxZCoordinate s' == barycenterZ mesh (maxZFace s'))
    /\ (forall g, In g (seen ++ hits) -> passesHeightfieldLimit mesh limit zDirMax g = true ->
                  barycenterZ mesh g <= maxZCoordinate s').
Proof.
  induction hits as [|h hits IH]; intros seen s Hh Hlow Hnone Hsome Hseen; cbn [fold_left].
  - cbn zeta. rewrite app_nil_r. auto.
  - destruct (scan_step_max mesh limit opp s h) as [Hf Hc]. cbn zeta in Hf, Hc.
    fold (barycenterZ mesh h) in Hf, Hc.
    assert (Hh0 : (0 <= h)%Z) by (apply Hh; now left).
    replace (seen ++ h :: hits) with ((seen ++ [h]) ++ hits)
      by (rewrite <- app_assoc; reflexivity).
    destruct (sltb (maxZCoordinate s) (barycenterZ mesh h)) eqn:Hlt.
    + destruct (passesHeightfieldLimit mesh limit zDirMax h) eqn:Hp; cbn [andb] in Hf, Hc.
      * apply sltb_lt in Hlt.
        apply IH; rewrite ?Hf, ?Hc.
        -- intros g Hg. apply Hh. now right.
        -- apply Qlt_le_weak. eapply Qle_lt_trans; eassumption.
        -- intros E. lia.
        -- intros _. split; [exact Hh0 | reflexivity].
        -- intros g Hg Hpg. apply in_app_iff in Hg. destruct Hg as [Hg|[<-|[]]].
           ++ apply Qlt_le_weak. eapply Qle_lt_trans; [exact (Hseen g Hg Hpg) | exact Hlt].
           ++ apply Qle_refl.
      * apply IH; rewrite ?Hf, ?Hc; try assumption.
        -- intros g Hg. apply Hh. now right.
        -- intros g Hg Hpg. apply in_app_iff in Hg. destruct Hg as [Hg|[<-|[]]].
           ++ exact (Hseen g Hg Hpg).
           ++ congruence.
    + cbn [andb] in Hf, Hc. apply sltb_ge in Hlt.
      apply IH; rewrite ?Hf, ?Hc; try assumption.
      * intros g Hg. apply Hh. now right.
      * intros g Hg Hpg. apply in_app_iff in Hg. destruct Hg as [Hg|[<-|[]]].
        -- exact (Hseen g Hg Hpg).
        -- exact Hlt.
Qed.

(** The scan from below, when the opposite direction is checked. *)
Lemma scan_lowest (mesh : Mesh) (limit : Q) opp (maxZ : Q) hits :
  (0 <= opp)%Z ->
  forall (seen : list Z) (s : ZScan),
    (forall g, In g hits -> (0 <= g)%Z) ->
    minZCoordinate s <= maxZ ->
    (minZFace s = (-1)%Z -> minZCoordinate s == maxZ) ->
    (minZFace s <> (-1)%Z ->
     (0 <= minZFace s)%Z /\ minZCoordinate s == barycenterZ mesh (minZFace s)) ->
    (forall g, In g seen -> passesHeightfieldLimit mesh limit zDirMin g = true ->
               minZCoordinate s <= barycenterZ mesh g) ->
    let s' := fold_left (scanIntersectedFace mesh limit opp) hits s in
    (minZFace s' = (-1)%Z -> minZCoordinate s' == maxZ)
    /\ (minZFace s' <> (-1)%Z ->
        (0 <= minZFace s')%Z /\ minZCoordinate s' == barycenterZ mesh (minZFace s'))
    /\ (forall g, In g (seen ++ hits) -> passesHeightfieldLimit mesh limit zDirMin g = true ->
                  minZCoordinate s' <= barycenterZ mesh g).
Proof.
  intros Hopp. apply Z.leb_le in Hopp.
  induction hits as [|h hits IH]; intros seen s Hh Hlow Hnone Hsome Hseen; cbn [fold_left].
  - cbn zeta. rewrite app_nil_r. auto.
  - destruct (scan_step_min mesh limit opp s h) as [Hf Hc]. cbn zeta in Hf, Hc.
    rewrite Hopp in Hf, Hc. cbn [andb] in Hf, Hc.
    fold (barycenterZ mesh h) in Hf, Hc.
    assert (Hh0 : (0 <= h)%Z) by (apply Hh; now left).
    replace (seen ++ h :: hits) with ((seen ++ [h]) ++ hits)
      by (rewrite <- app_assoc; reflexivity).
    destruct (sltb (barycenterZ mesh h) (minZCoordinate s)) eqn:Hlt.
    + destruct (passesHeightfieldLimit mesh limit zDirMin h) eqn:Hp; cbn [andb] in Hf, Hc.
      * apply sltb_lt in Hlt.
        apply IH; rewrite ?Hf, ?Hc.
        -- intros g Hg. apply Hh. now right.
        -- apply Qlt_le_weak. eapply Qlt_le_trans; eassumption.
        -- intros E. lia.
        -- intros _. split; [exact Hh0 | reflexivity].
        -- intros g Hg Hpg. apply in_app_iff in Hg. destruct Hg as [Hg|[<-|[]]].
           ++ apply Qlt_le_weak. eapply Qlt_le_trans; [exact Hlt | exact (Hseen g Hg Hpg)].
           ++ apply Qle_refl.
      * apply IH; rewrite ?Hf, ?Hc; try assumption.
        -- intros g Hg. apply Hh. now right.
        -- intros g Hg Hpg. apply in_app_iff in Hg. destruct Hg as [Hg|[<-|[]]].
           ++ exact (Hseen g Hg Hpg).
           ++ congruence.
    + cbn [andb] in Hf, Hc. apply sltb_ge in Hlt.
      apply IH; rewrite ?Hf, ?Hc; try assumption.
      * intros g Hg. apply Hh. now right.
      * intros g Hg Hpg. apply in_app_iff in Hg. destruct Hg as [Hg|[<-|[]]].
        -- exact (Hseen g Hg Hpg).
        -- exact Hlt.
Qed.

(** X28.  In exact arithmetic, when the intersection query returns face
    indices (none negative), the scan of a centroid ray ends with the
    highest and the lowest face within the angle: if a face met by the ray
    passes the normal test from +z and has its barycenter above [minZ], then
    [maxZFace] is a face (not [-1]) whose barycenter is at least as high;
    and, when the opposite direction is checked, if a face met by the ray
    passes the test from -z and has its barycenter below [maxZ], then
    [minZFace] is a face whose barycenter is at most as high. *)
Theorem the_scan_ends_with_the_highest_and_the_lowest_face_within_the_angle
  (getIntersectedEigenFaces : Mesh -> Point3 -> Point3 -> list Z) (mesh : Mesh)
  (limit : Q) (opp : Z) (minZ maxZ : Q) (t : nat) :
  (forall g, In g (barIntersectionOf getIntersectedEigenFaces mesh minZ maxZ t) ->
             (0 <= g)%Z) ->
  forall g, In g (barIntersectionOf getIntersectedEigenFaces mesh minZ maxZ t) ->
    (passesHeightfieldLimit mesh limit zDirMax g = true -> minZ < barycenterZ mesh g ->
     (0 <= maxZFace (scanRay getIntersectedEigenFaces mesh limit opp minZ maxZ t))%Z
     /\ barycenterZ mesh g
        <= barycenterZ mesh
             (maxZFace (scanRay getIntersectedEigenFaces mesh limit opp minZ maxZ t)))
    /\ ((0 <= opp)%Z ->
        passesHeightfieldLimit mesh limit zDirMin g = true -> barycenterZ mesh g < maxZ ->
        (0 <= minZFace (scanRay getIntersectedEigenFaces mesh limit opp minZ maxZ t))%Z
        /\ barycenterZ mesh
             (minZFace (scanRay getIntersectedEigenFaces mesh limit opp minZ maxZ t))
           <= barycenterZ mesh g).
Proof.
  intros Hh g Hg. unfold scanRay.
  set (hits := barIntersectionOf getIntersectedEigenFaces mesh minZ maxZ t) in *.
  split.
  - intros Hp Habove.
    destruct (scan_highest mesh limit opp minZ hits [] (@mkZScan QScalar minZ (-1) maxZ (-1)) Hh)
      as (Hnone & Hsome & Hall); cbn [maxZCoordinate maxZFace].
    + apply Qle_refl.
    + reflexivity.
    + intros E. congruence.
    + intros g' [].
    + cbn zeta in Hnone, Hsome, Hall. specialize (Hall g Hg Hp).
      set (s := fold_left _ hits _) in *.
      destruct (Z.eq_dec (maxZFace s) (-1)%Z) as [E|E].
      * exfalso. rewrite (Hnone E) in Hall.
        exact (Qlt_not_le _ _ Habove Hall).
      * destruct (Hsome E) as [H0 Hz]. split; [exact H0|]. rewrite <- Hz. exact Hall.
  - intros Hopp Hp Hbelow.
    destruct (scan_lowest mesh limit opp maxZ hits Hopp [] (@mkZScan QScalar minZ (-1) maxZ (-1)) Hh)
      as (Hnone & Hsome & Hall); cbn [minZCoordinate minZFace].
    + apply Qle_refl.
    + reflexivity.
    + intros E. congruence.
    + intros g' [].
    + cbn zeta in Hnone, Hsome, Hall. specialize (Hall g Hg Hp).
      set (s := fold_left _ hits _) in *.
      destruct (Z.eq_dec (minZFace s) (-1)%Z) as [E|E].
      * exfalso. rewrite (Hnone E) in Hall.
        exact (Qlt_not_le _ _ Hbelow Hall).
      * destruct (Hsome E) as [H0 Hz]. split; [exact H0|]. rewrite <- Hz. exact Hall.
Qed.

End RationalScan.

(** The centroid ray of face [0] of the stacked faces meets the three
    faces; face [1] is the highest but fails the test from +z. *)
Lemma the_scan_ends_with_the_highest_and_the_lowest_face_within_the_angle_witness :
  (forall g, In g (barIntersectionOf verticalHits stacked (-2)%Q 9%Q 0) -> (0 <= g)%Z)
  /\ In 0%Z (barIntersectionOf verticalHits stacked (-2)%Q 9%Q 0)
  /\ (passesHeightfieldLimit stacked (scos (3 # 4)%Q) zDirMax 0 = true ->
      (-2 < barycenterZ stacked 0)%Q ->
      (0 <= maxZFace (scanRay verticalHits stacked (scos (3 # 4)%Q) 1 (-2)%Q 9%Q 0))%Z
      /\ (barycenterZ stacked 0
          <= barycenterZ stacked
               (maxZFace (scanRay verticalHits stacked (scos (3 # 4)%Q) 1 (-2)%Q 9%Q 0)))%Q)
  /\ ((0 <= 1)%Z ->
      passesHeightfieldLimit stacked (scos (3 # 4)%Q) zDirMin 0 = true ->
      (barycenterZ stacked 0 < 9)%Q ->
      (0 <= minZFace (scanRay verticalHits stacked (scos (3 # 4)%Q) 1 (-2)%Q 9%Q 0))%Z
      /\ (barycenterZ stacked
            (minZFace (scanRay verticalHits stacked (scos (3 # 4)%Q) 1 (-2)%Q 9%Q 0))
          <= barycenterZ stacked 0)%Q).
Proof.
  assert (E : barIntersectionOf verticalHits stacked (-2)%Q 9%Q 0 = [0; 1; 2]%Z) by evaluate.
  assert (Hh : forall g, In g (barIntersectionOf verticalHits stacked (-2)%Q 9%Q 0) ->
                         (0 <= g)%Z).
  { rewrite E. intros g [<-|[<-|[<-|[]]]]; lia. }
  assert (Hg : In 0%Z (barIntersectionOf verticalHits stacked (-2)%Q 9%Q 0)).
  { rewrite E. now left. }
  split; [exact Hh|]. split; [exact Hg|].
  exact (the_scan_ends_with_the_highest_and_the_lowest_face_within_the_angle verticalHits
           stacked (scos (3 # 4)%Q) 1 (-2)%Q 9%Q 0 Hh 0%Z Hg).
Defined.
